(** * fswalker: path policy, inventory comparison and review trust chain

    A shallow embedding of the Go package [fswalker] (files [fswalker.go],
    [reporter.go] and the walker's [isExcluded]) together with the parts of
    the Go runtime and standard library the package relies on
    ([path/filepath.Clean], [path/filepath.Dir], [strings.HasPrefix],
    [time.Unix], [Time.Equal], [Time.After]).

    Conventions of the embedding:
    - a Go [string] is an immutable byte sequence: it is a [string] here
      (one [ascii] per byte), and the byte algorithms of [path/filepath]
      run over its [list ascii];
    - a run-time panic (index out of range, nil dereference) is the
      [Panic] outcome of the [exec] monad;
    - a Go result pair [(v, err)] is a pair whose second component is an
      [option] error;
    - pointers to protobuf messages that may be nil are [option]s;
    - Go's [map] is a [gmap]; the order in which [range] visits a map is
      a parameter of [Compare]. *)

From Stdlib Require Import ZArith Ascii.
From stdpp Require Import base option list sorting gmap strings pretty.

Open Scope Z_scope.

(** ** Run-time panics *)

Inductive runtime_error : Type :=
  | IndexOutOfRange
  | NilDereference.

Inductive exec (A : Type) : Type :=
  | Ret (a : A)
  | Panic (e : runtime_error).
Arguments Ret {A} a.
Arguments Panic {A} e.

Global Instance exec_ret : MRet exec := λ A a, Ret a.
Global Instance exec_bind : MBind exec := λ A B k m,
  match m with
  | Ret a => k a
  | Panic e => Panic e
  end.

(** Dereference of a pointer that may be nil. *)
Definition deref {A} (p : option A) : exec A :=
  match p with
  | Some a => Ret a
  | None => Panic NilDereference
  end.

(** ** Go strings as byte sequences *)

Definition bytes (s : string) : list ascii := String.list_ascii_of_string s.
Definition str (b : list ascii) : string := String.string_of_list_ascii b.

(** [filepath.Separator] and [os.IsPathSeparator] on Unix. *)
Definition Separator : ascii := "/"%char.
Definition IsPathSeparator (c : ascii) : bool := bool_decide (c = Separator).
Definition dot : ascii := "."%char.

(** [s[len(s)-1]]: the index expression panics on the empty string. *)
Definition lastByte (s : string) : exec ascii :=
  match last (bytes s) with
  | Some c => Ret c
  | None => Panic IndexOutOfRange
  end.

(** [strings.HasPrefix(s, prefix)]. *)
Fixpoint hasPrefixBytes (s p : list ascii) {struct p} : bool :=
  match p, s with
  | [], _ => true
  | _ :: _, [] => false
  | c :: p', d :: s' => bool_decide (c = d) && hasPrefixBytes s' p'
  end.
Definition HasPrefix (s p : string) : bool := hasPrefixBytes (bytes s) (bytes p).

(** ** [path/filepath] on Unix *)

Module filepath.

(** The write buffer of [Clean] ([lazybuf]) is the list of the bytes
    written so far: [out.w] is its length, [out.append] adds a byte at the
    end, and lowering [out.w] truncates it. *)

(** [for out.w > dotdot && !os.IsPathSeparator(out.index(out.w)) { out.w-- }] *)
Fixpoint backscan (out : list ascii) (dotdot w : nat) : nat :=
  match w with
  | O => O
  | S w' =>
      if bool_decide (dotdot < w)%nat
         && negb (from_option IsPathSeparator false (out !! w))
      then backscan out dotdot w'
      else w
  end.

(** [out.w--] followed by the scan above. *)
Definition backtrack (out : list ascii) (dotdot : nat) : list ascii :=
  take (backscan out dotdot (length out - 1)) out.

(** [r+k == n || os.IsPathSeparator(path[r+k])], on the input that is
    left after [path[r+k-1]]. *)
Definition atElementEnd (rest : list ascii) : bool :=
  match rest with
  | [] => true
  | c :: _ => IsPathSeparator c
  end.

(** The main loop of [Clean], [for r < n { switch ... }], by recursion on
    the unread input [path[r:]].  [copyElement] is the inner loop
    [for ; r < n && !os.IsPathSeparator(path[r]); r++ { out.append(path[r]) }];
    when it stops at a separator, that separator is an empty path element
    for the next round of the main loop, which skips it ([r++]). *)
Fixpoint cleanLoop (rooted : bool) (rest out : list ascii) (dotdot : nat)
    {struct rest} : list ascii :=
  match rest with
  | [] => out
  | c :: rest1 =>
      if IsPathSeparator c then
        (* empty path element *)
        cleanLoop rooted rest1 out dotdot
      else if bool_decide (c = dot) && atElementEnd rest1 then
        (* . element *)
        cleanLoop rooted rest1 out dotdot
      else
        let copyElement :=
          (fix copyElement (rest out : list ascii) {struct rest} : list ascii :=
             match rest with
             | [] => out
             | d :: rest' =>
                 if IsPathSeparator d then cleanLoop rooted rest' out dotdot
                 else copyElement rest' (out ++ [d])
             end) in
        let element (_ : unit) :=
          (* real path element: add slash if needed, copy element *)
          let out :=
            if (rooted && negb (bool_decide (length out = 1%nat)))
               || (negb rooted && negb (bool_decide (length out = 0%nat)))
            then out ++ [Separator] else out in
          copyElement rest out in
        match rest1 with
        | d :: rest2 =>
            if bool_decide (c = dot) && bool_decide (d = dot)
               && atElementEnd rest2 then
              (* .. element: remove to last separator *)
              if bool_decide (dotdot < length out)%nat then
                (* can backtrack *)
                cleanLoop rooted rest2 (backtrack out dotdot) dotdot
              else if negb rooted then
                (* cannot backtrack, but not rooted, so append .. element *)
                let out :=
                  if bool_decide (0 < length out)%nat
                  then out ++ [Separator] else out in
                let out := out ++ [dot; dot] in
                cleanLoop rooted rest2 out (length out)
              else cleanLoop rooted rest2 out dotdot
            else element ()
        | [] => element ()
        end
  end.

(** [filepath.Clean] (no volume names on Unix; [FromSlash] is the
    identity). *)
Definition cleanBytes (path : list ascii) : list ascii :=
  match path with
  | [] => [dot]
  | c :: _ =>
      let rooted := IsPathSeparator c in
      let out :=
        if rooted
        then cleanLoop true (tail path) [Separator] 1
        else cleanLoop false path [] 0 in
      (* Turn empty string into "." *)
      if bool_decide (length out = 0%nat) then [dot] else out
  end.
Definition Clean (path : string) : string := str (cleanBytes (bytes path)).

(** [i := len(path) - 1; for i >= 0 && !os.IsPathSeparator(path[i]) { i-- }]
    followed by [path[:i+1]]: the prefix up to and including the last
    separator. *)
Fixpoint dirPrefix (path : list ascii) : list ascii :=
  match path with
  | [] => []
  | c :: path' =>
      if existsb IsPathSeparator path then c :: dirPrefix path' else []
  end.

(** [filepath.Dir]. *)
Definition Dir (path : string) : string :=
  str (cleanBytes (dirPrefix (bytes path))).

End filepath.

(** ** [fswalker.go] *)

(** [NormalizePath] returns a cleaned up path with a path separator at the
    end if it's a directory. *)
Definition NormalizePath (path : string) (isDir : bool) : exec string :=
  let p := filepath.Clean path in
  if isDir then
    c ← lastByte p;
    if negb (bool_decide (c = Separator))
    then Ret (p +:+ str [Separator])
    else Ret p
  else Ret p.

(** [isExcluded] determines whether a given path is excluded. *)
Fixpoint isExcluded (path : string) (excluded : list string) : exec bool :=
  match excluded with
  | [] => Ret false
  | e :: excluded' =>
      if bool_decide (path = e) then Ret true
      else
        c ← lastByte e;
        if bool_decide (c = Separator)
           && HasPrefix (filepath.Dir path +:+ str [Separator]) e
        then Ret true
        else isExcluded path excluded'
  end.

(** ** Protocol buffer messages ([proto/fswalker])

    One module per message; a singular message field is a pointer and may
    be nil ([option]), a repeated field is a list.  Integer fields are [Z]:
    the package only compares and prints them. *)

Module Timestamp.
Record t : Type := mk { Seconds : Z; Nanos : Z }.
Global Instance eq_dec : EqDecision t.
Proof. solve_decision. Defined.
End Timestamp.

Inductive Fingerprint_Method : Type :=
  | Fingerprint_UNKNOWN
  | Fingerprint_SHA256.
Global Instance Fingerprint_Method_eq_dec : EqDecision Fingerprint_Method.
Proof. solve_decision. Defined.

(** [Fingerprint_Method.String()], what [%s] prints. *)
Definition Fingerprint_Method_String (m : Fingerprint_Method) : string :=
  match m with
  | Fingerprint_UNKNOWN => "UNKNOWN"
  | Fingerprint_SHA256 => "SHA256"
  end.

Module Fingerprint.
Record t : Type := mk { Method : Fingerprint_Method; Value : string }.
Global Instance eq_dec : EqDecision t.
Proof. solve_decision. Defined.
End Fingerprint.

Module FileInfo.
Record t : Type := mk {
  Name : string;
  Size : Z;
  Mode : Z;
  Modified : option Timestamp.t;
  IsDir : bool
}.
Global Instance eq_dec : EqDecision t.
Proof. solve_decision. Defined.
End FileInfo.

Module FileStat.
Record t : Type := mk {
  Dev : Z;
  Inode : Z;
  Nlink : Z;
  Mode : Z;
  Uid : Z;
  Gid : Z;
  Rdev : Z;
  Size : Z;
  Blksize : Z;
  Blocks : Z;
  Atime : option Timestamp.t;
  Mtime : option Timestamp.t;
  Ctime : option Timestamp.t
}.
Global Instance eq_dec : EqDecision t.
Proof. solve_decision. Defined.
End FileStat.

Module File.
Record t : Type := mk {
  Version : Z;
  Path : string;
  Info : option FileInfo.t;
  Stat : option FileStat.t;
  Fingerprint : list Fingerprint.t
}.
Global Instance eq_dec : EqDecision t.
Proof. solve_decision. Defined.

(** [f.Path = p] on a clone of [f]. *)
Definition setPath (f : t) (p : string) : t :=
  mk (Version f) p (Info f) (Stat f) (Fingerprint f).
End File.

(** The walk's [Policy] and [Notification] fields are carried along by the
    comparison but never read by it; they are left out. *)
Module Walk.
Record t : Type := mk {
  Id : string;
  Version : Z;
  Hostname : string;
  StartWalk : option Timestamp.t;
  StopWalk : option Timestamp.t;
  File : list File.t
}.
Global Instance eq_dec : EqDecision t.
Proof. solve_decision. Defined.
End Walk.

Module ReportConfig.
Record t : Type := mk { Version : Z; Exclude : list string }.
End ReportConfig.

Module Review.
Record t : Type := mk {
  WalkID : string;
  WalkReference : string;
  Fingerprint : option Fingerprint.t
}.
End Review.

Module Reviews.
Record t : Type := mk { Review : gmap string Review.t }.
End Reviews.

(** ** [time.Time] as far as the reporter uses it *)

Module time.

(** An [int64] result wraps around. *)
Definition wrap64 (z : Z) : Z := (z + 2 ^ 63) mod 2 ^ 64 - 2 ^ 63.

(** Seconds since January 1, year 1 ([ext], no monotonic clock reading)
    and nanoseconds within the second. *)
Record Time : Type := mkTime { sec : Z; nsec : Z }.
Global Instance Time_eq_dec : EqDecision Time.
Proof. solve_decision. Defined.

Definition unixToInternal : Z := 62135596800.

(** [time.Unix(sec, nsec)]; Go's [/] truncates toward zero. *)
Definition Unix (sec nsec : Z) : Time :=
  let '(sec, nsec) :=
    if (nsec <? 0) || (1000000000 <=? nsec) then
      let n := nsec ÷ 1000000000 in
      let sec := wrap64 (sec + n) in
      let nsec := nsec - n * 1000000000 in
      if nsec <? 0 then (wrap64 (sec - 1), nsec + 1000000000)
      else (sec, nsec)
    else (sec, nsec) in
  mkTime (wrap64 (sec + unixToInternal)) nsec.

(** [t.Equal(u)]. *)
Definition Equal (t u : Time) : bool :=
  bool_decide (sec t = sec u) && bool_decide (nsec t = nsec u).

(** [t.After(u)]. *)
Definition After (t u : Time) : bool :=
  bool_decide (sec u < sec t)
  || (bool_decide (sec t = sec u) && bool_decide (nsec u < nsec t)).

End time.

(** [AsTime] of a timestamp pointer: the getters read nil as zero. *)
Definition AsTime (x : option Timestamp.t) : time.Time :=
  time.Unix (from_option Timestamp.Seconds 0 x) (from_option Timestamp.Nanos 0 x).

(** ** [reporter.go] *)

(** Error values, one constructor per [fmt.Errorf]/[errors.New] site and per
    failing collaborator. *)
Inductive error : Type :=
  | ErrReadFile (path : string)
  | ErrUnmarshal (path : string)
  | ErrFingerprintMethod (check good : Fingerprint_Method)
  | ErrUndefinedFingerprintMethod
  | ErrEmptyFingerprintValue
  | ErrFingerprintValue (check good : string)
  | ErrWalkID (got reference want reviewFile : string)
  | ErrNoAfterWalk
  | ErrSameWalkID (id : string)
  | ErrWalkVersions (before after : Z)
  | ErrHostnames (before after : string)
  | ErrWalkTimes (beforeTs afterTs : time.Time)
  | ErrFileVersions (before after : Z)
  | ErrFilePaths (before after : string)
  | ErrTimestamps (name : string) (e : error)
  | ErrDiffFileInfo (path : string) (e : error)
  | ErrDiffFileStat (path : string) (e : error).

Module WalkFile.
Record t : Type := mk {
  Path : string;
  Walk : Walk.t;
  Fingerprint : Fingerprint.t
}.
End WalkFile.

Module ActionData.
Record t : Type := mk {
  Before : option File.t;
  After : option File.t;
  Diff : string;
  Err : option error
}.
End ActionData.

(** Modelled from the spec: [metrics.Counter] (package
    [internal/metrics]): named counters; [Add] increments one of them. *)
Definition Counter : Type := gmap string Z.
Definition Counter_Add (n : Z) (name : string) (c : Counter) : Counter :=
  <[name := default 0 (c !! name) + n]> c.

Module Report.
Record t : Type := mk {
  Added : list ActionData.t;
  Deleted : list ActionData.t;
  Modified : list ActionData.t;
  Errors : list ActionData.t;
  Counter : gmap string Z;
  WalkBefore : option Walk.t;
  WalkAfter : Walk.t
}.
End Report.

(** [slices.Sort] on strings: ascending byte-wise order. *)
Definition Sort (l : list string) : list string := merge_sort String.le l.

(** [slices.SortFunc(l, less)]: the result is a permutation of [l] in which
    no element is [less] than its predecessor.  The library's sort is not
    stable; this one is, and the two agree whenever no two elements are
    equivalent for [less] (see [SortFunc_unique]). *)
Definition notAfter {A} (less : A → A → bool) : relation A :=
  λ a b, less b a = false.
Global Instance notAfter_dec {A} (less : A → A → bool) :
  RelDecision (notAfter less).
Proof. intros a b. unfold notAfter. apply _. Defined.
Definition SortFunc {A} (less : A → A → bool) (l : list A) : list A :=
  merge_sort (notAfter less) l.

(** [strings.Join]. *)
Fixpoint Join (elems : list string) (sep : string) : string :=
  match elems with
  | [] => ""
  | [e] => e
  | e :: elems' => e +:+ sep +:+ Join elems' sep
  end.

Definition newline : string := String "010"%char "".

(** [%t]. *)
Definition fmt_bool (b : bool) : string := if b then "true" else "false".

(** [for _, x := range l { s = step(s, x) }] with a body that may panic. *)
Fixpoint rangeList {A S} (step : S → A → exec S) (l : list A) (s : S) : exec S :=
  match l with
  | [] => Ret s
  | x :: l' => s' ← step s x; rangeList step l' s'
  end.

(** The [Reporter] struct. *)
Module Reporter.
Record t : Type := mk {
  config : ReportConfig.t;
  configPath : string;
  Verbose : bool
}.
End Reporter.

Section Reporter.

(** Collaborators outside the package: [strconv.Quote] (the [%q] verb),
    [Time.Format] with the layout [timeReportFormat], the hexadecimal
    SHA-256 digest [fmt.Sprintf("%x", sha256.Sum256(b))], the two
    protobuf decoders ([None] when decoding fails), and the order in
    which [range] visits the entries of a map, which may be any
    enumeration of them. *)
Variable Quote : string → string.
Variable Format : time.Time → string.
Variable Sum256 : string → string.
Variable UnmarshalWalk : string → option Walk.t.
Variable UnmarshalReviews : string → option Reviews.t.
Variable rangeMap : gmap string File.t → list (string * File.t).

(** The files [os.ReadFile] can read, with their content. *)
Variable disk : gmap string string.

Definition verifyFingerprint (goodFp checkFp : option Fingerprint.t)
    : exec (option error) :=
  check ← deref checkFp;
  good ← deref goodFp;
  if negb (bool_decide (Fingerprint.Method check = Fingerprint.Method good)) then
    Ret (Some (ErrFingerprintMethod (Fingerprint.Method check) (Fingerprint.Method good)))
  else if bool_decide (Fingerprint.Method good = Fingerprint_UNKNOWN) then
    Ret (Some ErrUndefinedFingerprintMethod)
  else if bool_decide (Fingerprint.Value good = "") then
    Ret (Some ErrEmptyFingerprintValue)
  else if negb (bool_decide (Fingerprint.Value check = Fingerprint.Value good)) then
    Ret (Some (ErrFingerprintValue (Fingerprint.Value check) (Fingerprint.Value good)))
  else Ret None.

Definition fingerprint (b : string) : Fingerprint.t :=
  Fingerprint.mk Fingerprint_SHA256 (Sum256 b).

(** [ReadWalk] reads a file as marshaled proto in [fspb.Walk] format. *)
Definition ReadWalk (path : string) : option WalkFile.t * option error :=
  match disk !! path with
  | None => (None, Some (ErrReadFile path))
  | Some b =>
      match UnmarshalWalk b with
      | None => (None, Some (ErrUnmarshal path))
      | Some p => (Some (WalkFile.mk path p (fingerprint b)), None)
      end
  end.

(** [readTextProto] into a [Reviews] message. *)
Definition readTextProto (path : string) : Reviews.t + error :=
  match disk !! path with
  | None => inr (ErrReadFile path)
  | Some b =>
      match UnmarshalReviews b with
      | None => inr (ErrUnmarshal path)
      | Some reviews => inl reviews
      end
  end.

(** [ReadLastGoodWalk] reads the designated review file and attempts to
    find an entry matching the given hostname. *)
Definition ReadLastGoodWalk (hostname reviewFile : string)
    : exec (option WalkFile.t * option error) :=
  match readTextProto reviewFile with
  | inr err => Ret (None, Some err)
  | inl reviews =>
      match Reviews.Review reviews !! hostname with
      | None => Ret (None, None)
      | Some rvws =>
          match ReadWalk (Review.WalkReference rvws) with
          | (wf, Some err) => Ret (wf, Some err)
          | (wf, None) =>
              wf' ← deref wf;
              verr ← verifyFingerprint (Review.Fingerprint rvws)
                                       (Some (WalkFile.Fingerprint wf'));
              match verr with
              | Some err => Ret (wf, Some err)
              | None =>
                  if negb (bool_decide
                             (Walk.Id (WalkFile.Walk wf') = Review.WalkID rvws))
                  then Ret (wf, Some (ErrWalkID (Walk.Id (WalkFile.Walk wf'))
                                                (Review.WalkReference rvws)
                                                (Review.WalkID rvws) reviewFile))
                  else Ret (wf, None)
              end
          end
      end
  end.

(** [sanityCheck] runs a few checks to ensure the "before" and "after"
    Walks are sane-ish. *)
Definition sanityCheck (before after : option Walk.t) : option error :=
  match after with
  | None => Some ErrNoAfterWalk
  | Some a =>
      match before with
      | None => None
      | Some b =>
          if bool_decide (Walk.Id b = Walk.Id a) then
            Some (ErrSameWalkID (Walk.Id b))
          else if negb (bool_decide (Walk.Version b = Walk.Version a)) then
            Some (ErrWalkVersions (Walk.Version b) (Walk.Version a))
          else if negb (bool_decide (Walk.Hostname b = Walk.Hostname a)) then
            Some (ErrHostnames (Walk.Hostname b) (Walk.Hostname a))
          else
            let beforeTs := AsTime (Walk.StopWalk b) in
            let afterTs := AsTime (Walk.StartWalk a) in
            if time.After beforeTs afterTs then
              Some (ErrWalkTimes beforeTs afterTs)
            else None
      end
  end.

Definition timestampDiff (bt at' : option Timestamp.t) : string * option error :=
  if bool_decide (bt = None) && bool_decide (at' = None) then ("", None)
  else
    let bmt := AsTime bt in
    let amt := AsTime at' in
    if time.Equal bmt amt then ("", None)
    else (Format bmt +:+ " => " +:+ Format amt, None).

(** [diffFileInfo] compares the FileInfo proto of two files and reports
    all relevant diffs as human readable strings. *)
Definition diffFileInfo (fib fia : option FileInfo.t)
    : exec (list string * option error) :=
  let diffs : list string := [] in
  if bool_decide (fib = None) && bool_decide (fia = None) then Ret (diffs, None)
  else
    b ← deref fib;
    a ← deref fia;
    let diffs :=
      if negb (bool_decide (FileInfo.Name b = FileInfo.Name a))
      then diffs ++ ["name: " +:+ Quote (FileInfo.Name b) +:+ " => "
                       +:+ Quote (FileInfo.Name a)]
      else diffs in
    let diffs :=
      if negb (bool_decide (FileInfo.Size b = FileInfo.Size a))
      then diffs ++ ["size: " +:+ pretty (FileInfo.Size b) +:+ " => "
                       +:+ pretty (FileInfo.Size a)]
      else diffs in
    let diffs :=
      if negb (bool_decide (FileInfo.Mode b = FileInfo.Mode a))
      then diffs ++ ["mode: " +:+ pretty (FileInfo.Mode b) +:+ " => "
                       +:+ pretty (FileInfo.Mode a)]
      else diffs in
    let diffs :=
      if negb (bool_decide (FileInfo.IsDir b = FileInfo.IsDir a))
      then diffs ++ ["is_dir: " +:+ fmt_bool (FileInfo.IsDir b) +:+ " => "
                       +:+ fmt_bool (FileInfo.IsDir a)]
      else diffs in
    (* Ignore if both timestamps are nil. *)
    if bool_decide (FileInfo.Modified b = None)
       && bool_decide (FileInfo.Modified a = None)
    then Ret (diffs, None)
    else
      match timestampDiff (FileInfo.Modified b) (FileInfo.Modified a) with
      | (_, Some err) => Ret (diffs, Some (ErrTimestamps (FileInfo.Name b) err))
      | (diff, None) =>
          let diffs :=
            if negb (bool_decide (diff = ""))
            then diffs ++ ["mtime: " +:+ diff] else diffs in
          Ret (diffs, None)
      end.

(** [diffFileStat] compares the FileStat proto of two files and reports
    all relevant diffs as human readable strings. *)
Definition diffFileStat (fsb fsa : option FileStat.t)
    : exec (list string * option error) :=
  let diffs : list string := [] in
  if bool_decide (fsb = None) && bool_decide (fsa = None) then Ret (diffs, None)
  else
    b ← deref fsb;
    a ← deref fsa;
    let diffs :=
      if negb (bool_decide (FileStat.Uid b = FileStat.Uid a))
      then diffs ++ ["uid: " +:+ pretty (FileStat.Uid b) +:+ " => "
                       +:+ pretty (FileStat.Uid a)]
      else diffs in
    let diffs :=
      if negb (bool_decide (FileStat.Gid b = FileStat.Gid a))
      then diffs ++ ["gid: " +:+ pretty (FileStat.Gid b) +:+ " => "
                       +:+ pretty (FileStat.Gid a)]
      else diffs in
    (* Ignore ctime changes if mtime equals to ctime or if both are nil. *)
    match timestampDiff (FileStat.Ctime b) (FileStat.Ctime a) with
    | (_, Some cerr) => Ret (diffs, Some (ErrTimestamps "" cerr))
    | (cdiff, None) =>
        if bool_decide (cdiff = "") then Ret (diffs, None)
        else
          match timestampDiff (FileStat.Mtime b) (FileStat.Mtime a) with
          | (_, Some merr) => Ret (diffs, Some (ErrTimestamps "" merr))
          | (mdiff, None) =>
              let diffs :=
                if negb (bool_decide (mdiff = cdiff))
                then diffs ++ ["ctime: " +:+ cdiff] else diffs in
              Ret (diffs, None)
          end
    end.

(** The fingerprint block of [diffFile]: ensure fingerprints are the
    same - if there was one before.  Do not show a diff if there's a new
    fingerprint. *)
Definition fingerprintDiffs (before after : File.t) : list string :=
  let diffs : list string := [] in
  match File.Fingerprint before with
  | [] => diffs
  | fb :: _ =>
      match File.Fingerprint after with
      | [] => diffs ++ ["fingerprint: " +:+ Fingerprint.Value fb +:+ " => "]
      | fa :: _ =>
          let diffs :=
            if negb (bool_decide (Fingerprint.Method fb = Fingerprint.Method fa))
            then diffs ++ ["fingerprint-method: "
                             +:+ Fingerprint_Method_String (Fingerprint.Method fb)
                             +:+ " => "
                             +:+ Fingerprint_Method_String (Fingerprint.Method fa)]
            else diffs in
          if negb (bool_decide (Fingerprint.Value fb = Fingerprint.Value fa))
          then diffs ++ ["fingerprint: " +:+ Fingerprint.Value fb +:+ " => "
                           +:+ Fingerprint.Value fa]
          else diffs
      end
  end.

(** [diffFile] up to and including [slices.Sort(diffs)]: the sorted diff
    lines of two File entries of a Walk. *)
Definition diffFileLines (before after : File.t)
    : exec (list string * option error) :=
  if negb (bool_decide (File.Version before = File.Version after)) then
    Ret ([], Some (ErrFileVersions (File.Version before) (File.Version after)))
  else if negb (bool_decide (File.Path before = File.Path after)) then
    Ret ([], Some (ErrFilePaths (File.Path before) (File.Path after)))
  else
    let diffs := fingerprintDiffs before after in
    '(fiDiffs, err) ← diffFileInfo (File.Info before) (File.Info after);
    match err with
    | Some err => Ret ([], Some (ErrDiffFileInfo (File.Path before) err))
    | None =>
        let diffs := diffs ++ fiDiffs in
        '(fsDiffs, err) ← diffFileStat (File.Stat before) (File.Stat after);
        match err with
        | Some err => Ret ([], Some (ErrDiffFileStat (File.Path before) err))
        | None =>
            let diffs := diffs ++ fsDiffs in
            Ret (Sort diffs, None)
        end
    end.

(** [diffFile] compares two File entries of a Walk and shows the diffs
    between the two. *)
Definition diffFile (before after : File.t) : exec (string * option error) :=
  '(diffs, err) ← diffFileLines before after;
  Ret (Join diffs newline, err).

(** The first loop of [Compare], and the same for "after": clone every
    file, normalize its path and index it by that path. *)
Definition indexFiles (files : list File.t) : exec (gmap string File.t) :=
  rangeList
    (λ (walked : gmap string File.t) fOrig,
       info ← deref (File.Info fOrig);
       p ← NormalizePath (File.Path fOrig) (FileInfo.IsDir info);
       Ret (<[p := File.setPath fOrig p]> walked))
    files ∅.

Definition count (name : string) (output : Report.t) : Report.t :=
  Report.mk (Report.Added output) (Report.Deleted output)
            (Report.Modified output) (Report.Errors output)
            (Counter_Add 1 name (Report.Counter output))
            (Report.WalkBefore output) (Report.WalkAfter output).
Definition appendAdded (d : ActionData.t) (output : Report.t) : Report.t :=
  Report.mk (Report.Added output ++ [d]) (Report.Deleted output)
            (Report.Modified output) (Report.Errors output)
            (Report.Counter output)
            (Report.WalkBefore output) (Report.WalkAfter output).
Definition appendDeleted (d : ActionData.t) (output : Report.t) : Report.t :=
  Report.mk (Report.Added output) (Report.Deleted output ++ [d])
            (Report.Modified output) (Report.Errors output)
            (Report.Counter output)
            (Report.WalkBefore output) (Report.WalkAfter output).
Definition appendModified (d : ActionData.t) (output : Report.t) : Report.t :=
  Report.mk (Report.Added output) (Report.Deleted output)
            (Report.Modified output ++ [d]) (Report.Errors output)
            (Report.Counter output)
            (Report.WalkBefore output) (Report.WalkAfter output).
Definition appendErrors (d : ActionData.t) (output : Report.t) : Report.t :=
  Report.mk (Report.Added output) (Report.Deleted output)
            (Report.Modified output) (Report.Errors output ++ [d])
            (Report.Counter output)
            (Report.WalkBefore output) (Report.WalkAfter output).

(** Body of [for _, fb := range walkedBefore]. *)
Definition compareBefore (r : Reporter.t) (walkedAfter : gmap string File.t)
    (output : Report.t) (fb : File.t) : exec Report.t :=
  let output := count "before-files" output in
  excluded ← isExcluded (File.Path fb) (ReportConfig.Exclude (Reporter.config r));
  if excluded : bool then Ret (count "before-files-ignored" output)
  else
    match walkedAfter !! File.Path fb with
    | None =>
        let output := count "before-files-removed" output in
        Ret (appendDeleted (ActionData.mk (Some fb) None "" None) output)
    | Some fa =>
        '(diff, err) ← diffFile fb fa;
        let output :=
          match err with
          | Some e =>
              appendErrors (ActionData.mk (Some fb) (Some fa) diff (Some e))
                           (count "file-diff-error" output)
          | None => output
          end in
        let output :=
          if negb (bool_decide (diff = ""))
          then appendModified (ActionData.mk (Some fb) (Some fa) diff None)
                              (count "before-files-modified" output)
          else output in
        Ret output
    end.

(** Body of [for _, fa := range walkedAfter]. *)
Definition compareAfter (r : Reporter.t) (walkedBefore : gmap string File.t)
    (output : Report.t) (fa : File.t) : exec Report.t :=
  let output := count "after-files" output in
  excluded ← isExcluded (File.Path fa) (ReportConfig.Exclude (Reporter.config r));
  if excluded : bool then Ret (count "after-files-ignored" output)
  else
    match walkedBefore !! File.Path fa with
    | Some _ => Ret output
    | None =>
        let output := count "after-files-created" output in
        Ret (appendAdded (ActionData.mk None (Some fa) "" None) output)
    end.

(** The [Path] of the file an entry is sorted by.  In each list the file
    in question is set on every entry (see [Added_elem], [Deleted_elem]
    and [changed_elem]), so the
    dereference in the comparison function cannot fail. *)
Definition beforePath (d : ActionData.t) : string :=
  from_option File.Path "" (ActionData.Before d).
Definition afterPath (d : ActionData.t) : string :=
  from_option File.Path "" (ActionData.After d).
Definition lessAfterPath (a b : ActionData.t) : bool :=
  String.ltb (afterPath a) (afterPath b).
Definition lessBeforePath (a b : ActionData.t) : bool :=
  String.ltb (beforePath a) (beforePath b).

Definition sortReport (output : Report.t) : Report.t :=
  Report.mk (SortFunc lessAfterPath (Report.Added output))
            (SortFunc lessBeforePath (Report.Deleted output))
            (SortFunc lessBeforePath (Report.Modified output))
            (SortFunc lessBeforePath (Report.Errors output))
            (Report.Counter output)
            (Report.WalkBefore output) (Report.WalkAfter output).

(** [Compare] two Walks and returns the diffs. *)
Definition Compare (r : Reporter.t) (before after : option Walk.t)
    : exec (option Report.t * option error) :=
  match sanityCheck before after with
  | Some err => Ret (None, Some err)
  | None =>
      walkedBefore ←
        match before with
        | Some b => indexFiles (Walk.File b)
        | None => Ret ∅
        end;
      a ← deref after;
      walkedAfter ← indexFiles (Walk.File a);
      let output := Report.mk [] [] [] [] ∅ before a in
      output ← rangeList (compareBefore r walkedAfter)
                         (rangeMap walkedBefore).*2 output;
      output ← rangeList (compareAfter r walkedBefore)
                         (rangeMap walkedAfter).*2 output;
      Ret (Some (sortReport output), None)
  end.

End Reporter.

(** * Notions the statements are written in *)

(** ** The shape of the buffer of [filepath.Clean] *)

Section CleanShape.
Import filepath.
Local Open Scope nat_scope.

Definition copyElement (rooted : bool) (dotdot : nat) :=
  fix copyElement (rest out : list ascii) {struct rest} : list ascii :=
    match rest with
    | [] => out
    | d :: rest' =>
        if IsPathSeparator d then cleanLoop rooted rest' out dotdot
        else copyElement rest' (out ++ [d])
    end.

Definition addSlash (rooted : bool) (out : list ascii) : list ascii :=
  if (rooted && negb (bool_decide (length out = 1)))
     || (negb rooted && negb (bool_decide (length out = 0)))
  then out ++ [Separator] else out.

Definition element (rooted : bool) (rest out : list ascii) (dotdot : nat) :=
  copyElement rooted dotdot rest (addSlash rooted out).

Definition sepFree (c : list ascii) : Prop := Forall (λ x, x ≠ Separator) c.
Definition realName (c : list ascii) : Prop :=
  c ≠ [] ∧ sepFree c ∧ c ≠ [dot] ∧ c ≠ [dot; dot].

Definition dotdotStep (rooted : bool) (out : list ascii) (dotdot : nat)
    : list ascii * nat :=
  if bool_decide (dotdot < length out) then (backtrack out dotdot, dotdot)
  else if negb rooted then
    let out := if bool_decide (0 < length out) then out ++ [Separator] else out in
    let out := out ++ [dot; dot] in
    (out, length out)
  else (out, dotdot).

Fixpoint joinPath (comps : list (list ascii)) : list ascii :=
  match comps with
  | [] => []
  | c :: comps' =>
      c ++ match comps' with [] => [] | _ => Separator :: joinPath comps' end
  end.

Definition dotdots (k : nat) : list (list ascii) := replicate k [dot; dot].

(** The buffer holds the root slash of a rooted path, then a run of [k]
    leading [..] elements (none when rooted), then real names. *)
Definition render (rooted : bool) (k : nat) (names : list (list ascii))
    : list ascii :=
  (if rooted then [Separator] else []) ++ joinPath (dotdots k ++ names).
Definition dotdotMark (rooted : bool) (k : nat) : nat :=
  length (render rooted k []).
Definition valid (rooted : bool) (k : nat) (names : list (list ascii)) : Prop :=
  (rooted = true → k = 0) ∧ Forall realName names.

Definition canon (out : list ascii) : list ascii :=
  if bool_decide (length out = 0) then [dot] else out.

Definition pathElem (c : list ascii) : Prop := c ≠ [] ∧ sepFree c.

End CleanShape.

(** ** Paths and exclude prefixes *)

Definition endsInSeparator (s : string) : Prop := last (bytes s) = Some Separator.

(** One exclude prefix [e] excludes [path]. *)
Definition excludedBy (path e : string) : Prop :=
  path = e
  ∨ (endsInSeparator e ∧ HasPrefix (filepath.Dir path +:+ str [Separator]) e = true).

Definition nonEmpty (s : string) : Prop := s ≠ "".

(** ** Diff lines *)

(** A diff line about ctime, about a fingerprint. *)
Definition isCtimeLine (l : string) : Prop := HasPrefix l "ctime: " = true.
Definition isFingerprintLine (l : string) : Prop := HasPrefix l "fingerprint" = true.

(** How a change of timestamp is rendered. *)
Definition renderDelta (Format : time.Time → string) (bt at' : option Timestamp.t)
    : string :=
  Format (AsTime bt) +:+ " => " +:+ Format (AsTime at').

Global Instance isCtimeLine_dec l : Decision (isCtimeLine l).
Proof. unfold isCtimeLine. apply _. Defined.
Global Instance isFingerprintLine_dec l : Decision (isFingerprintLine l).
Proof. unfold isFingerprintLine. apply _. Defined.

(** ** Order of the report lists *)

(** Go's [<] on strings. *)
Definition strLt (s t : string) : Prop := String.ltb s t = true.

(** Strictly ascending order of a list of report entries by a path. *)
Definition ascendingBy (key : ActionData.t → string) (l : list ActionData.t) : Prop :=
  StronglySorted (λ a b, strLt (key a) (key b)) l.

(** ** The two loops of [Compare], round by round *)

(** [range] may visit the entries of a map in any order. *)
Definition fairRange (rangeMap : gmap string File.t → list (string * File.t)) : Prop :=
  ∀ m, rangeMap m ≡ₚ map_to_list m.

(** The path a file of an inventory is indexed by. *)
Definition normalizedPath (f : File.t) : exec string :=
  info ← deref (File.Info f);
  NormalizePath (File.Path f) (FileInfo.IsDir info).

(** [p] is, after normalization, the path of a file of the inventory. *)
Definition present (w : option Walk.t) (p : string) : Prop :=
  ∃ w' f, w = Some w' ∧ f ∈ Walk.File w' ∧ normalizedPath f = Ret p.

Definition excludedIn (r : Reporter.t) (p : string) : Prop :=
  isExcluded p (ReportConfig.Exclude (Reporter.config r)) = Ret true.

(** A report entry is about the path [p]. *)
Definition mentions (p : string) (d : ActionData.t) : Prop :=
  beforePath d = p ∧ is_Some (ActionData.Before d)
  ∨ afterPath d = p ∧ is_Some (ActionData.After d).

(** What one round of each of the two loops of [Compare] appends to the
    lists of the report, and whether the round runs to its end. *)
Definition deletedOf (r : Reporter.t) (walkedAfter : gmap string File.t)
    (fb : File.t) : list ActionData.t :=
  match isExcluded (File.Path fb) (ReportConfig.Exclude (Reporter.config r)) with
  | Ret false =>
      match walkedAfter !! File.Path fb with
      | None => [ActionData.mk (Some fb) None "" None]
      | Some _ => []
      end
  | _ => []
  end.

Definition errorsOf (Quote : string → string) (Format : time.Time → string)
    (r : Reporter.t) (walkedAfter : gmap string File.t)
    (fb : File.t) : list ActionData.t :=
  match isExcluded (File.Path fb) (ReportConfig.Exclude (Reporter.config r)) with
  | Ret false =>
      match walkedAfter !! File.Path fb with
      | Some fa =>
          match diffFile Quote Format fb fa with
          | Ret (diff, Some e) => [ActionData.mk (Some fb) (Some fa) diff (Some e)]
          | _ => []
          end
      | None => []
      end
  | _ => []
  end.

Definition modifiedOf (Quote : string → string) (Format : time.Time → string)
    (r : Reporter.t) (walkedAfter : gmap string File.t)
    (fb : File.t) : list ActionData.t :=
  match isExcluded (File.Path fb) (ReportConfig.Exclude (Reporter.config r)) with
  | Ret false =>
      match walkedAfter !! File.Path fb with
      | Some fa =>
          match diffFile Quote Format fb fa with
          | Ret (diff, _) =>
              if bool_decide (diff = "") then []
              else [ActionData.mk (Some fb) (Some fa) diff None]
          | _ => []
          end
      | None => []
      end
  | _ => []
  end.

Definition addedOf (r : Reporter.t) (walkedBefore : gmap string File.t)
    (fa : File.t) : list ActionData.t :=
  match isExcluded (File.Path fa) (ReportConfig.Exclude (Reporter.config r)) with
  | Ret false =>
      match walkedBefore !! File.Path fa with
      | None => [ActionData.mk None (Some fa) "" None]
      | Some _ => []
      end
  | _ => []
  end.

Definition beforeOk (Quote : string → string) (Format : time.Time → string)
    (r : Reporter.t) (walkedAfter : gmap string File.t) (fb : File.t) : Prop :=
  match isExcluded (File.Path fb) (ReportConfig.Exclude (Reporter.config r)) with
  | Ret true => True
  | Ret false =>
      match walkedAfter !! File.Path fb with
      | None => True
      | Some fa => ∃ res, diffFile Quote Format fb fa = Ret res
      end
  | Panic _ => False
  end.

Definition afterOk (r : Reporter.t) (fa : File.t) : Prop :=
  ∃ b, isExcluded (File.Path fa) (ReportConfig.Exclude (Reporter.config r)) = Ret b.

(** The counters one round of each loop increments, and what incrementing
    a list of counters gives. *)
Definition countedBefore (Quote : string → string) (Format : time.Time → string)
    (r : Reporter.t) (walkedAfter : gmap string File.t)
    (fb : File.t) : list string :=
  "before-files" ::
  match isExcluded (File.Path fb) (ReportConfig.Exclude (Reporter.config r)) with
  | Ret true => ["before-files-ignored"]
  | Ret false =>
      match walkedAfter !! File.Path fb with
      | None => ["before-files-removed"]
      | Some fa =>
          match diffFile Quote Format fb fa with
          | Ret (diff, err) =>
              match err with Some _ => ["file-diff-error"] | None => [] end
              ++ (if bool_decide (diff = "") then [] else ["before-files-modified"])
          | Panic _ => []
          end
      end
  | Panic _ => []
  end.

Definition countedAfter (r : Reporter.t) (walkedBefore : gmap string File.t)
    (fa : File.t) : list string :=
  "after-files" ::
  match isExcluded (File.Path fa) (ReportConfig.Exclude (Reporter.config r)) with
  | Ret true => ["after-files-ignored"]
  | Ret false =>
      match walkedBefore !! File.Path fa with
      | None => ["after-files-created"]
      | Some _ => []
      end
  | Panic _ => []
  end.

Definition tally (names : list string) (c : gmap string Z) : gmap string Z :=
  foldl (λ c name, Counter_Add 1 name c) c names.

(** The index of "before", empty when there is no such walk. *)
Definition indexBefore (before : option Walk.t) : exec (gmap string File.t) :=
  match before with
  | Some b => indexFiles (Walk.File b)
  | None => Ret ∅
  end.

(** The report [Compare] builds from the two indexes. *)
Definition builtReport (Quote : string → string)
    (Format : time.Time → string)
    (rangeMap : gmap string File.t → list (string * File.t))
    (r : Reporter.t) (before : option Walk.t) (a : Walk.t)
    (wb wa : gmap string File.t) : Report.t :=
  Report.mk
    (SortFunc lessAfterPath ((rangeMap wa).*2 ≫= addedOf r wb))
    (SortFunc lessBeforePath ((rangeMap wb).*2 ≫= deletedOf r wa))
    (SortFunc lessBeforePath ((rangeMap wb).*2 ≫= modifiedOf Quote Format r wa))
    (SortFunc lessBeforePath ((rangeMap wb).*2 ≫= errorsOf Quote Format r wa))
    (tally ((rangeMap wa).*2 ≫= countedAfter r wb)
       (tally ((rangeMap wb).*2 ≫= countedBefore Quote Format r wa) ∅))
    before a.

(** ** Example inventories *)

(** The two inventories of the end-to-end scenario: [/a] with a changed
    fingerprint, the directory [/b/] only before, [/c] only after. *)
Definition exampleTime : option Timestamp.t := Some (Timestamp.mk 1700000000 0).
Definition exampleFileA1 : File.t :=
  File.mk 1 "/a" (Some (FileInfo.mk "a" 12 420 exampleTime false)) None
          [Fingerprint.mk Fingerprint_SHA256 "H1"].
Definition exampleFileA2 : File.t :=
  File.mk 1 "/a" (Some (FileInfo.mk "a" 12 420 exampleTime false)) None
          [Fingerprint.mk Fingerprint_SHA256 "H2"].
Definition exampleDirB : File.t :=
  File.mk 1 "/b/" (Some (FileInfo.mk "b" 4096 493 exampleTime true)) None [].
Definition exampleFileC : File.t :=
  File.mk 1 "/c" (Some (FileInfo.mk "c" 7 420 exampleTime false)) None [].
Definition exampleWalkA : Walk.t :=
  Walk.mk "walk-A" 1 "host" (Some (Timestamp.mk 1700000100 0))
          (Some (Timestamp.mk 1700000200 0)) [exampleFileA1; exampleDirB].
Definition exampleWalkB : Walk.t :=
  Walk.mk "walk-B" 1 "host" (Some (Timestamp.mk 1700000300 0))
          (Some (Timestamp.mk 1700000400 0)) [exampleFileA2; exampleFileC].
Definition exampleReporter : Reporter.t :=
  Reporter.mk (ReportConfig.mk 1 []) "config.toml" false.

(** The same "after" inventory with a stat block on [/a], and a report
    config with an empty exclude prefix. *)
Definition exampleStat : FileStat.t :=
  FileStat.mk 1 2 1 420 1000 1000 0 12 4096 8 exampleTime exampleTime exampleTime.
Definition exampleWalkBStat : Walk.t :=
  Walk.mk "walk-B" 1 "host" (Some (Timestamp.mk 1700000300 0))
          (Some (Timestamp.mk 1700000400 0))
          [File.mk 1 "/a" (Some (FileInfo.mk "a" 12 420 exampleTime false))
                   (Some exampleStat) [Fingerprint.mk Fingerprint_SHA256 "H2"];
           exampleFileC].
Definition exampleReporterEmptyPrefix : Reporter.t :=
  Reporter.mk (ReportConfig.mk 1 [""]) "config.toml" false.

(** Stand-ins for the two formatting collaborators, for closed examples:
    quoting without escapes, and a time rendered as its seconds. *)
Definition plainQuote (s : string) : string :=
  str [ascii_of_nat 34] +:+ s +:+ str [ascii_of_nat 34].
Definition secondsFormat (t : time.Time) : string := pretty (time.sec t).

Global Instance mentions_dec p d : Decision (mentions p d).
Proof. unfold mentions. apply _. Defined.

(** A disk with a review file pinning, for the host [host], the walk
    stored in [walk.pb], whose content was replaced afterwards. *)
Definition exampleDigest (b : string) : string := "sha256:" +:+ b.
Definition exampleDecodeWalk (b : string) : option Walk.t :=
  if bool_decide (b = "") then None else Some exampleWalkA.
Definition exampleReview : Review.t :=
  Review.mk "walk-A" "walk.pb"
            (Some (Fingerprint.mk Fingerprint_SHA256 (exampleDigest "original"))).
Definition exampleDecodeReviews (b : string) : option Reviews.t :=
  if bool_decide (b = "reviews") then Some (Reviews.mk {[ "host" := exampleReview ]})
  else None.
Definition exampleDisk : gmap string string :=
  {[ "reviews.asciipb" := "reviews"; "walk.pb" := "tampered" ]}.

(** A review entry that names a walk and its file and pins no
    fingerprint. *)
Definition exampleReviewUnpinned : Review.t :=
  Review.mk "walk-other" "walk.pb" None.
Definition exampleDecodeReviewsUnpinned (b : string) : option Reviews.t :=
  if bool_decide (b = "reviews")
  then Some (Reviews.mk {[ "host" := exampleReviewUnpinned ]})
  else None.



(** Two inventories with two entries for each list of the report, their
    files in no particular order, and a [range] that visits a map from
    the last entry to the first. *)
Definition exampleFile (version : Z) (path name hash : string) : File.t :=
  File.mk version path (Some (FileInfo.mk name 12 420 exampleTime false)) None
          [Fingerprint.mk Fingerprint_SHA256 hash].
Definition exampleWalkP : Walk.t :=
  Walk.mk "walk-P" 1 "host" (Some (Timestamp.mk 1700000100 0))
          (Some (Timestamp.mk 1700000200 0))
          [exampleFile 1 "/d" "d" "H1"; exampleFile 1 "/m2" "m2" "H1";
           exampleFile 1 "/e2" "e2" "H1"; exampleFile 1 "/c" "c" "H1";
           exampleFile 1 "/m1" "m1" "H1"; exampleFile 1 "/e1" "e1" "H1"].
Definition exampleWalkQ : Walk.t :=
  Walk.mk "walk-Q" 1 "host" (Some (Timestamp.mk 1700000300 0))
          (Some (Timestamp.mk 1700000400 0))
          [exampleFile 1 "/z" "z" "H1"; exampleFile 1 "/m2" "m2" "H2";
           exampleFile 2 "/e2" "e2" "H1"; exampleFile 1 "/y" "y" "H1";
           exampleFile 1 "/m1" "m1" "H2"; exampleFile 2 "/e1" "e1" "H1"].
Definition descendingRange (m : gmap string File.t) : list (string * File.t) :=
  reverse (map_to_list m).

(** * Further parts of the package *)

(** ** Notions for the diff and the report *)

(** A timestamp in the range protocol buffers allow for seconds
    (0001-01-01 to 9999-12-31), with any [int32] for the nanoseconds, and
    the nanoseconds since the Unix epoch it stands for; a nil timestamp
    reads as zero. *)
Definition inTimeRange (x : option Timestamp.t) : Prop :=
  -62135596800 ≤ from_option Timestamp.Seconds 0 x ≤ 253402300799
  ∧ -2 ^ 31 ≤ from_option Timestamp.Nanos 0 x < 2 ^ 31.
Definition totalNanos (x : option Timestamp.t) : Z :=
  from_option Timestamp.Seconds 0 x * 1000000000 + from_option Timestamp.Nanos 0 x.

(** The attributes [diffFile] tracks are unchanged: the first fingerprint
    (when there was one before), the info block except nothing, the stat
    block as far as uid, gid and ctime go. *)
Definition sameFingerprint (before after : File.t) : Prop :=
  match File.Fingerprint before, File.Fingerprint after with
  | [], _ => True
  | _ :: _, [] => False
  | fb :: _, fa :: _ => fb = fa
  end.
Definition sameInfo (fib fia : option FileInfo.t) : Prop :=
  match fib, fia with
  | None, None => True
  | Some b, Some a =>
      FileInfo.Name b = FileInfo.Name a ∧ FileInfo.Size b = FileInfo.Size a
      ∧ FileInfo.Mode b = FileInfo.Mode a ∧ FileInfo.IsDir b = FileInfo.IsDir a
      ∧ AsTime (FileInfo.Modified b) = AsTime (FileInfo.Modified a)
  | _, _ => False
  end.
Definition sameStat (Format : time.Time → string) (fsb fsa : option FileStat.t)
    : Prop :=
  match fsb, fsa with
  | None, None => True
  | Some b, Some a =>
      FileStat.Uid b = FileStat.Uid a ∧ FileStat.Gid b = FileStat.Gid a
      ∧ (AsTime (FileStat.Ctime b) = AsTime (FileStat.Ctime a)
         ∨ (AsTime (FileStat.Mtime b) ≠ AsTime (FileStat.Mtime a)
            ∧ renderDelta Format (FileStat.Ctime b) (FileStat.Ctime a)
              = renderDelta Format (FileStat.Mtime b) (FileStat.Mtime a)))
  | _, _ => False
  end.


(** Modelled from the spec: the value of a counter of [metrics.Counter],
    as [Add] reads it before it increments; a counter that was never
    incremented counts zero. *)
Definition Counter_Get (name : string) (c : Counter) : Z := default 0 (c !! name).

Definition exampleFileA3 : File.t :=
  File.mk 2 "/a" (Some (FileInfo.mk "a" 12 420 exampleTime false)) None
          [Fingerprint.mk Fingerprint_SHA256 "H2"].
Definition exampleWalkBNewFormat : Walk.t :=
  Walk.mk "walk-B" 1 "host" (Some (Timestamp.mk 1700000300 0))
          (Some (Timestamp.mk 1700000400 0)) [exampleFileA3; exampleFileC].

(** ** Writing the review file ([fswalker.go], [reporter.go]) *)

(** [strings.Replace(s, old, new, -1)]: every non-overlapping occurrence of
    [old], from the left, becomes [new].  [skip] counts the bytes of an
    occurrence that are still to be passed over.  For an empty [old] Go
    inserts [new] at every rune boundary; the package calls it with the
    one-byte strings [<] and [>] only, and the empty case is given here
    byte by byte. *)
Fixpoint replaceBytes (old new : list ascii) (skip : nat) (s : list ascii)
    : list ascii :=
  match s with
  | [] => []
  | c :: s' =>
      match skip with
      | S k => replaceBytes old new k s'
      | O =>
          if hasPrefixBytes s old
          then new ++ replaceBytes old new (length old - 1) s'
          else c :: replaceBytes old new 0 s'
      end
  end.
Definition Replace (s old new : string) : string :=
  match bytes old with
  | [] => str (bytes new ++ flat_map (λ c, c :: bytes new) (bytes s))
  | _ => str (replaceBytes (bytes old) (bytes new) 0 (bytes s))
  end.

(** Replace message boundary characters as curly braces look nicer. *)
Definition braces (blob : string) : string :=
  Replace (Replace blob "<" "{") ">" "}".

(** What [UpdateReviewProto] can return as an error: one of reading the
    review file, or the one of [os.WriteFile]. *)
Inductive update_error : Type :=
  | ErrReview (e : error)
  | ErrWriteFile (path : string).

(** [reviews.Review[...] = review] on a nil map is a run-time panic
    ("assignment to entry in nil map").  The map of a decoded message is
    allocated when the first entry is decoded: it is nil iff the message
    has no entry.  The lines printed so far are kept. *)
Inductive updated (A : Type) : Type :=
  | Updated (a : A)
  | PanicNilMap (stdout : list string).
Arguments Updated {A} a.
Arguments PanicNilMap {A} stdout.

Section ReviewFile.

(** Collaborators: [prototext.Format] on a [Reviews] message, the decoder
    [prototext.Unmarshal], [strconv.Quote], and whether [os.WriteFile]
    can write a path. *)
Variable FormatReviews : Reviews.t → string.
Variable UnmarshalReviews : string → option Reviews.t.
Variable Quote : string → string.
Variable writable : string → bool.

(** [writeTextProto] writes a text format proto buf for the provided
    proto message. *)
Definition writeTextProto (path : string) (pb : Reviews.t)
    (disk : gmap string string) : gmap string string * option update_error :=
  let blob := FormatReviews pb in
  let blob := braces blob in
  if writable path then (<[path := blob]> disk, None)
  else (disk, Some (ErrWriteFile path)).

(** [UpdateReviewProto] updates the reviews file to the reviewed version
    to be "last known good".  The result holds the files afterwards, the
    lines printed, and the error. *)
Definition UpdateReviewProto (walkFile : WalkFile.t) (reviewFile : string)
    (disk : gmap string string)
    : updated (gmap string string * list string * option update_error) :=
  let review :=
    Review.mk (Walk.Id (WalkFile.Walk walkFile)) (WalkFile.Path walkFile)
              (Some (WalkFile.Fingerprint walkFile)) in
  let blob :=
    FormatReviews
      (Reviews.mk {[ Walk.Hostname (WalkFile.Walk walkFile) := review ]}) in
  let stdout := ["New review section:"; braces blob] in
  if negb (bool_decide (reviewFile = "")) then
    match readTextProto UnmarshalReviews disk reviewFile with
    | inr err => Updated (disk, stdout, Some (ErrReview err))
    | inl reviews =>
        if bool_decide (Reviews.Review reviews = ∅) then PanicNilMap stdout
        else
          let reviews :=
            Reviews.mk (<[Walk.Hostname (WalkFile.Walk walkFile) := review]>
                          (Reviews.Review reviews)) in
          match writeTextProto reviewFile reviews disk with
          | (disk, Some err) => Updated (disk, stdout, Some err)
          | (disk, None) =>
              Updated (disk,
                       stdout ++ ["Changes written to " +:+ Quote reviewFile],
                       None)
          end
    end
  else
    Updated (disk,
             stdout ++ ["No reviews file provided so you will have to update it manually."],
             None).

End ReviewFile.

(** A string without the two message boundary characters. *)
Definition noAngles (s : string) : Prop :=
  Forall (λ c, c ≠ "<"%char ∧ c ≠ ">"%char) (bytes s).

(** The review of the example after the host's walk file, as it is on the
    disk now, has been accepted; a formatter and a decoder for the two
    review files of the example. *)
Definition exampleWalkFile : WalkFile.t :=
  WalkFile.mk "walk.pb" exampleWalkA
              (Fingerprint.mk Fingerprint_SHA256 (exampleDigest "tampered")).
Definition exampleReviewsUpdated : Reviews.t :=
  Reviews.mk
    (<["host" := Review.mk "walk-A" "walk.pb"
                   (Some (WalkFile.Fingerprint exampleWalkFile))]>
       {[ "host" := exampleReview ]}).
Definition exampleFormatReviews (m : Reviews.t) : string := "reviews-updated".
Definition exampleDecodeReviews2 (b : string) : option Reviews.t :=
  if bool_decide (b = "reviews") then Some (Reviews.mk {[ "host" := exampleReview ]})
  else if bool_decide (b = "reviews-updated") then Some exampleReviewsUpdated
  else None.

(** ** Finding the latest walk ([fswalker.go], [reporter.go]) *)

(** [t.IsZero()], and [time.Time{}]. *)
Definition Time_IsZero (t : time.Time) : bool :=
  bool_decide (time.sec t = 0) && bool_decide (time.nsec t = 0).
Definition zeroTime : time.Time := time.mkTime 0 0.

(** [path.Join]: the non-empty elements separated by slashes, cleaned;
    the empty string when there is nothing to join.  [path.Clean] is
    [filepath.Clean] on Unix. *)
Module path.
Definition joinElems (elem : list string) : list ascii :=
  foldl (λ buf e,
           if bool_decide (0 < length buf)%nat || negb (bool_decide (e = ""))
           then (if bool_decide (0 < length buf)%nat
                 then buf ++ [Separator] else buf) ++ bytes e
           else buf)
        [] elem.
Definition Join (elem : list string) : string :=
  let size := foldl (λ size e, (size + length (bytes e))%nat) 0%nat elem in
  if bool_decide (size = 0%nat) then ""
  else filepath.Clean (str (joinElems elem)).
End path.

(** [names[len(names)-1]]. *)
Definition lastName (names : list string) : exec string :=
  match last names with
  | Some name => Ret name
  | None => Panic IndexOutOfRange
  end.

(** The errors of [ReadLatestWalk]: the one of [filepath.Glob], the one
    of an empty match, and those of [ReadWalk]. *)
Inductive latest_error : Type :=
  | ErrGlob (pattern : string)
  | ErrNoFiles (matchpath : string)
  | ErrReadWalk (e : error).

Section Latest.

(** Collaborators: [Time.Format] with the layout [tsFileFormat],
    [filepath.Glob] ([None] for a malformed pattern), and those of
    [ReadWalk]. *)
Variable FormatFile : time.Time → string.
Variable Glob : string → option (list string).
Variable Sum256 : string → string.
Variable UnmarshalWalk : string → option Walk.t.
Variable disk : gmap string string.

(** [WalkFilename] returns the appropriate filename for a Walk for the
    given host and time.  If time is not provided, it returns a file
    pattern to glob by. *)
Definition WalkFilename (hostname : string) (t : time.Time) : string :=
  let hn := if negb (bool_decide (hostname = "")) then hostname else "*" in
  let ts := if negb (Time_IsZero t) then FormatFile t else "*" in
  hn +:+ "-" +:+ ts +:+ "-fswalker-state.pb".

(** [ReadLatestWalk] looks for the latest Walk in a given folder for a
    given hostname. *)
Definition ReadLatestWalk (hostname walkPath : string)
    : exec (option WalkFile.t * option latest_error) :=
  let matchpath := path.Join [walkPath; WalkFilename hostname zeroTime] in
  match Glob matchpath with
  | None => Ret (None, Some (ErrGlob matchpath))
  | Some names =>
      if bool_decide (length names = 0%nat)
      then Ret (None, Some (ErrNoFiles matchpath))
      else
        (* the assumption is that the file names are such that the latest
           is last. *)
        let names := Sort names in
        name ← lastName names;
        let '(wf, err) := ReadWalk Sum256 UnmarshalWalk disk name in
        Ret (wf, ErrReadWalk <$> err)
  end.

End Latest.

(** ** The walker ([walker.go]) *)

(** [strings.Split(s, sep)] for a non-empty [sep]: the substrings between
    the non-overlapping occurrences of [sep], from the left.  [cur] is the
    substring being read, [skip] the bytes of an occurrence still to be
    passed over.  (For an empty [sep] Go splits after every UTF-8
    sequence; the walker splits at the separator only, and the empty case
    is given here byte by byte.) *)
Fixpoint splitBytes (sep : list ascii) (skip : nat) (cur s : list ascii)
    : list (list ascii) :=
  match s with
  | [] => [cur]
  | c :: s' =>
      match skip with
      | S k => splitBytes sep k cur s'
      | O =>
          if hasPrefixBytes s sep
          then cur :: splitBytes sep (length sep - 1) [] s'
          else splitBytes sep 0 (cur ++ [c]) s'
      end
  end.
Definition Split (s sep : string) : list string :=
  match bytes sep with
  | [] => (λ c, str [c]) <$> bytes s
  | _ => str <$> splitBytes (bytes sep) 0 [] (bytes s)
  end.

(** The conversions [uint32(x)] and [uint64(x)] of an integer. *)
Definition uint32 (z : Z) : Z := z `mod` 2 ^ 32.
Definition uint64 (z : Z) : Z := z `mod` 2 ^ 64.

(** [relDirDepth] calculates the path depth relative to the origin. *)
Definition relDirDepth (origin path : string) : Z :=
  uint32 (Z.of_nat (length (Split path (str [Separator])))
          - Z.of_nat (length (Split origin (str [Separator])))).

(** The number of separators of a path. *)
Definition separators (s : string) : nat :=
  length (filter (λ c, c = Separator) (bytes s)).

(** Versions for compatibility comparison. *)
Definition fileVersion : Z := 1.
Definition walkVersion : Z := 1.

(** [fs.FileInfo] as the walker reads it: [Mode] is the [fs.FileMode],
    [Sys] is left to [fsstat.ToStat]. *)
Module fs.
Record FileInfo : Type := mkFileInfo {
  Name : string;
  Size : Z;
  Mode : Z;
  ModTime : time.Time;
  IsDir : bool
}.
(** [ModeType]: the bits of directory, symlink, named pipe, socket,
    device, character device and irregular file; [m.IsRegular()]. *)
Definition ModeType : Z :=
  2 ^ 31 + 2 ^ 27 + 2 ^ 26 + 2 ^ 25 + 2 ^ 24 + 2 ^ 21 + 2 ^ 19.
Definition IsRegular (m : Z) : bool := Z.land m ModeType =? 0.
End fs.

Module fileInfo.
Record t : Type := mk { path : string; info : option fs.FileInfo }.
End fileInfo.

(** What a worker reports on the error channel. *)
Inductive worker_error : Type :=
  | ErrBuildHash (e : error)
  | ErrToStat.
Module workerErr.
Record t : Type := mk { path : string; err : worker_error }.
End workerErr.

(** The walker policy, as far as [convert] reads it. *)
Module Policy.
Record t : Type := mk {
  ExcludeHashing : list string;
  MaxHashFileSize : Z
}.
End Policy.

(** [tspb.New(t)]: seconds since the Unix epoch and nanoseconds. *)
Definition tspb_New (t : time.Time) : Timestamp.t :=
  Timestamp.mk (time.wrap64 (time.sec t - time.unixToInternal)) (time.nsec t).

Section Walker.

(** Collaborators: the hexadecimal SHA-256 digest, the files that can be
    read, and [fsstat.ToStat] ([None] when the stat block is not to be
    had). *)
Variable Sum256 : string → string.
Variable disk : gmap string string.
Variable ToStat : fs.FileInfo → option FileStat.t.

(** [sha256sum] reads the given file path and builds a SHA-256 sum over
    its content. *)
Definition sha256sum (path : string) : string * option error :=
  match disk !! path with
  | None => ("", Some (ErrReadFile path))
  | Some b => (Sum256 b, None)
  end.

(** [convert] creates a File from the given information and if requested
    embeds the hash sum too.  The second component holds what is sent on
    the error channel. *)
Definition convert (pol : Policy.t) (fi : fileInfo.t)
    : exec (File.t * list workerErr.t) :=
  let path := filepath.Clean (fileInfo.path fi) in
  match fileInfo.info fi with
  | None => Ret (File.mk fileVersion path None None [], [])
  | Some info =>
      (* Only build the hash sum if requested and if it is not a
         directory. *)
      excluded ← isExcluded (fileInfo.path fi) (Policy.ExcludeHashing pol);
      let '(fingerprints, errs) :=
        if negb excluded && fs.IsRegular (fs.Mode info)
           && (uint64 (fs.Size info) <=? Policy.MaxHashFileSize pol)
        then
          match sha256sum path with
          | (_, Some err) => ([], [workerErr.mk path (ErrBuildHash err)])
          | (shaSum, None) => ([Fingerprint.mk Fingerprint_SHA256 shaSum], [])
          end
        else ([], []) in
      let mts := tspb_New (fs.ModTime info) in
      let finfo :=
        FileInfo.mk (fs.Name info) (fs.Size info) (uint32 (fs.Mode info))
                    (Some mts) (fs.IsDir info) in
      match ToStat info with
      | Some stat =>
          Ret (File.mk fileVersion path (Some finfo) (Some stat) fingerprints,
               errs)
      | None =>
          Ret (File.mk fileVersion path (Some finfo) None fingerprints,
               errs ++ [workerErr.mk path ErrToStat])
      end
  end.

End Walker.

(** A host with one small file, as a worker gets it from the walk. *)
Definition exampleHostDisk : gmap string string := {[ "/etc/hosts" := "localhost" ]}.
Definition exampleHostsInfo : fs.FileInfo :=
  fs.mkFileInfo "hosts" 9 420 (time.Unix 1700000000 0) false.
Definition exampleHosts : fileInfo.t :=
  fileInfo.mk "/etc/hosts" (Some exampleHostsInfo).
Definition examplePolicy : Policy.t := Policy.mk ["/proc/"] 1048576.
Definition exampleHostsFile : File.t :=
  File.mk 1 "/etc/hosts"
          (Some (FileInfo.mk "hosts" 9 420 (Some (Timestamp.mk 1700000000 0)) false))
          None [Fingerprint.mk Fingerprint_SHA256 (exampleDigest "localhost")].

(** An inventory that stops at the last second an [int64] holds, and one
    that starts at the epoch. *)
Definition exampleWalkLate : Walk.t :=
  Walk.mk "walk-L" 1 "host" (Some (Timestamp.mk 0 0))
          (Some (Timestamp.mk 9223372036854775807 0)) [].
Definition exampleWalkEpoch : Walk.t :=
  Walk.mk "walk-E" 1 "host" (Some (Timestamp.mk 0 0))
          (Some (Timestamp.mk 1 0)) [].

(** * [filepath.Clean] *)

Section CleanFacts.
Import filepath.
Local Open Scope nat_scope.

Lemma cleanLoop_cons rooted c rest1 out dotdot :
  cleanLoop rooted (c :: rest1) out dotdot =
    if IsPathSeparator c then cleanLoop rooted rest1 out dotdot
    else if bool_decide (c = dot) && atElementEnd rest1 then
      cleanLoop rooted rest1 out dotdot
    else
      match rest1 with
      | d :: rest2 =>
          if bool_decide (c = dot) && bool_decide (d = dot) && atElementEnd rest2 then
            if bool_decide (dotdot < length out) then
              cleanLoop rooted rest2 (backtrack out dotdot) dotdot
            else if negb rooted then
              let out := if bool_decide (0 < length out) then out ++ [Separator] else out in
              let out := out ++ [dot; dot] in
              cleanLoop rooted rest2 out (length out)
            else cleanLoop rooted rest2 out dotdot
          else element rooted (c :: rest1) out dotdot
      | [] => element rooted (c :: rest1) out dotdot
      end.
Proof. reflexivity. Qed.

Lemma IsPathSeparator_true c : IsPathSeparator c = true ↔ c = Separator.
Proof. unfold IsPathSeparator. by rewrite bool_decide_eq_true. Qed.
Lemma IsPathSeparator_false c : IsPathSeparator c = false ↔ c ≠ Separator.
Proof. unfold IsPathSeparator. by rewrite bool_decide_eq_false. Qed.

Lemma atElementEnd_inv more :
  atElementEnd more = true → more = [] ∨ ∃ more', more = Separator :: more'.
Proof.
  destruct more as [|c more]; [by left|]. simpl.
  intros ->%IsPathSeparator_true. right. by eexists.
Qed.

Lemma cleanLoop_end rooted more out dotdot :
  atElementEnd more = true →
  cleanLoop rooted more out dotdot = cleanLoop rooted (tail more) out dotdot.
Proof. by intros [->|[more' ->]]%atElementEnd_inv. Qed.

Lemma copyElement_app rooted dotdot c more out :
  sepFree c →
  copyElement rooted dotdot (c ++ more) out
  = copyElement rooted dotdot more (out ++ c).
Proof.
  intros Hc. revert out. induction Hc as [|x c Hx _ IH]; intros out; simpl.
  - by rewrite app_nil_r.
  - apply IsPathSeparator_false in Hx. rewrite Hx, IH.
    by rewrite <-app_assoc.
Qed.

Lemma copyElement_end rooted dotdot more out :
  atElementEnd more = true →
  copyElement rooted dotdot more out = cleanLoop rooted (tail more) out dotdot.
Proof. by intros [->|[more' ->]]%atElementEnd_inv. Qed.

Local Arguments cleanLoop : simpl never.

(** The four kinds of path element the main loop distinguishes. *)
Lemma cleanLoop_empty rooted more out dotdot :
  cleanLoop rooted (Separator :: more) out dotdot
  = cleanLoop rooted more out dotdot.
Proof. done. Qed.

Lemma cleanLoop_dot rooted more out dotdot :
  atElementEnd more = true →
  cleanLoop rooted (dot :: more) out dotdot
  = cleanLoop rooted (tail more) out dotdot.
Proof.
  intros Hend. rewrite cleanLoop_cons. simpl. rewrite Hend. simpl.
  by apply cleanLoop_end.
Qed.

Lemma cleanLoop_dotdot rooted more out dotdot :
  atElementEnd more = true →
  cleanLoop rooted (dot :: dot :: more) out dotdot
  = cleanLoop rooted (tail more) (dotdotStep rooted out dotdot).1
              (dotdotStep rooted out dotdot).2.
Proof.
  intros Hend. rewrite cleanLoop_cons. simpl. rewrite Hend. simpl.
  unfold dotdotStep. repeat case_bool_decide; destruct rooted; simpl;
    by rewrite cleanLoop_end.
Qed.

Lemma cleanLoop_name rooted c more out dotdot :
  realName c → atElementEnd more = true →
  cleanLoop rooted (c ++ more) out dotdot
  = cleanLoop rooted (tail more) (addSlash rooted out ++ c) dotdot.
Proof.
  intros (Hne & Hfree & Hdot & Hdotdot) Hend.
  assert (cleanLoop rooted (c ++ more) out dotdot
          = element rooted (c ++ more) out dotdot) as ->.
  { destruct c as [|x c]; [done|]. simpl. rewrite cleanLoop_cons.
    inv Hfree. rename select (x ≠ _) into Hx.
    apply IsPathSeparator_false in Hx. rewrite Hx.
    destruct c as [|y c]; simpl.
    - rewrite Hend, andb_true_r. case_bool_decide; [naive_solver|].
      simpl. by destruct more.
    - rename select (Forall _ (y :: c)) into Hyc. inv Hyc.
      rename select (y ≠ _) into Hy. apply IsPathSeparator_false in Hy.
      rewrite Hy, andb_false_r.
      destruct c as [|z c]; simpl.
      + rewrite Hend, andb_true_r.
        repeat case_bool_decide; simpl; naive_solver.
      + rename select (Forall _ (z :: c)) into Hzc. inv Hzc.
        rename select (z ≠ _) into Hz. apply IsPathSeparator_false in Hz.
        by rewrite Hz, andb_false_r. }
  unfold element. rewrite copyElement_app by done.
  by apply copyElement_end.
Qed.

(** Every input starts with a (possibly empty) separator-free element. *)
Lemma element_split (rest : list ascii) :
  ∃ c more, rest = c ++ more ∧ sepFree c ∧ atElementEnd more = true.
Proof.
  induction rest as [|x rest (c & more & -> & Hc & Hend)].
  - exists [], []. repeat split. constructor.
  - destruct (IsPathSeparator x) eqn:Hx.
    + exists [], (x :: c ++ more). repeat split; [constructor|done].
    + exists (x :: c), more. repeat split; [|done].
      constructor; [by apply IsPathSeparator_false|done].
Qed.

(** *** The shape of the write buffer *)

Lemma joinPath_app l1 l2 :
  joinPath (l1 ++ l2) =
    match l1, l2 with
    | [], _ => joinPath l2
    | _, [] => joinPath l1
    | _, _ => joinPath l1 ++ Separator :: joinPath l2
    end.
Proof.
  induction l1 as [|c l1 IH]; [done|].
  destruct l2 as [|d l2]; [by rewrite app_nil_r|].
  change (joinPath ((c :: l1) ++ d :: l2))
    with (c ++ match l1 ++ d :: l2 with
               | [] => []
               | _ => Separator :: joinPath (l1 ++ d :: l2)
               end).
  rewrite IH. destruct l1 as [|c' l1]; simpl; [by rewrite app_nil_r|].
  by rewrite <-(app_assoc c).
Qed.

Lemma joinPath_nil comps :
  Forall (λ c, c ≠ []) comps → joinPath comps = [] → comps = [].
Proof.
  destruct 1 as [|c comps Hc _]; [done|]. simpl.
  intros [? _]%app_eq_nil. done.
Qed.

Lemma dotdots_nonempty k : Forall (λ c, c ≠ []) (dotdots k).
Proof. unfold dotdots. by apply Forall_replicate. Qed.
Lemma realName_nonempty names :
  Forall realName names → Forall (λ c, c ≠ []) names.
Proof. intros H. eapply Forall_impl; [done|]. by intros c (? & _). Qed.

Lemma render_snoc rooted k names c :
  valid rooted k names →
  render rooted k (names ++ [c]) = addSlash rooted (render rooted k names) ++ c.
Proof.
  intros [Hk Hnames]. unfold render, addSlash.
  rewrite (assoc_L (++) (dotdots k)), joinPath_app.
  pose proof (joinPath_nil (dotdots k ++ names)) as Hnil.
  destruct (dotdots k ++ names) as [|d l] eqn:Hl.
  - destruct rooted; simpl; by rewrite ?app_nil_r.
  - assert (joinPath (d :: l) ≠ []) as Hne.
    { intros E. apply Hnil in E; [done|]. rewrite <-Hl.
      apply Forall_app; auto using dotdots_nonempty, realName_nonempty. }
    change (joinPath [c]) with (c ++ []). rewrite app_nil_r.
    clear Hnil Hl. revert Hne. generalize (joinPath (d :: l)).
    intros [|x J] HJ; [done|].
    destruct rooted; simpl; by rewrite <-?app_assoc.
Qed.

Lemma dotdotMark_le rooted k names :
  dotdotMark rooted k ≤ length (render rooted k names).
Proof.
  unfold dotdotMark, render. rewrite app_nil_r, !length_app, joinPath_app.
  destruct (dotdots k), names; rewrite ?length_app; simpl; lia.
Qed.

(** [out.w > dotdot]: there is a real name to remove. *)
Lemma dotdotMark_lt rooted k names :
  valid rooted k names →
  dotdotMark rooted k < length (render rooted k names) ↔ names ≠ [].
Proof.
  intros [_ Hnames]. unfold dotdotMark, render.
  rewrite app_nil_r, !length_app, joinPath_app.
  destruct names as [|c names].
  - destruct (dotdots k); split; (done || lia).
  - split; [done|intros _].
    assert (0 < length (joinPath (c :: names))).
    { inv Hnames. rename select (realName c) into Hc.
      destruct Hc as (? & _). destruct c; [done|]. simpl. lia. }
    destruct (dotdots k); rewrite ?length_app; simpl in *; lia.
Qed.

Lemma backscan_sep Y c dotdot j :
  sepFree c → dotdot ≤ length Y → j ≤ length c →
  backscan (Y ++ Separator :: c) dotdot (length Y + j) = length Y.
Proof.
  intros Hc Hdd. induction j as [|j IH]; intros Hj.
  - rewrite Nat.add_0_r. destruct (length Y) as [|n] eqn:HY; [done|].
    simpl. rewrite lookup_app_r, HY, Nat.sub_diag by lia. simpl.
    by rewrite andb_false_r.
  - rewrite Nat.add_succ_r. simpl.
    rewrite bool_decide_eq_true_2 by lia.
    rewrite lookup_app_r by lia.
    replace (S (length Y + j) - length Y) with (S j) by lia. simpl.
    destruct (lookup_lt_is_Some_2 c j) as [x Hx]; [lia|]. rewrite Hx. simpl.
    unfold sepFree in Hc. rewrite Forall_forall in Hc.
    assert (IsPathSeparator x = false) as ->.
    { apply IsPathSeparator_false, Hc. by eapply list_elem_of_lookup_2. }
    simpl. apply IH. lia.
Qed.

Lemma backscan_mark Y c j :
  sepFree c → j < length c →
  backscan (Y ++ c) (length Y) (length Y + j) = length Y.
Proof.
  intros Hc. induction j as [|j IH]; intros Hj.
  - rewrite Nat.add_0_r. destruct (length Y) as [|n] eqn:HY; [done|].
    simpl. rewrite bool_decide_eq_false_2 by lia. done.
  - rewrite Nat.add_succ_r. simpl.
    rewrite bool_decide_eq_true_2 by lia.
    rewrite lookup_app_r by lia.
    replace (S (length Y + j) - length Y) with (S j) by lia.
    destruct (lookup_lt_is_Some_2 c (S j)) as [x Hx]; [lia|]. rewrite Hx. simpl.
    unfold sepFree in Hc. rewrite Forall_forall in Hc.
    assert (IsPathSeparator x = false) as ->.
    { apply IsPathSeparator_false, Hc. by eapply list_elem_of_lookup_2. }
    simpl. apply IH. lia.
Qed.

(** Backtracking removes the last real name. *)
Lemma backtrack_render rooted k names c :
  valid rooted k names → realName c →
  backtrack (render rooted k (names ++ [c])) (dotdotMark rooted k)
  = render rooted k names.
Proof.
  intros Hv (Hne & Hfree & _). rewrite render_snoc by done.
  unfold backtrack, addSlash.
  destruct ((rooted && negb (bool_decide (length (render rooted k names) = 1)))
            || (negb rooted
                && negb (bool_decide (length (render rooted k names) = 0))))
    eqn:Hslash.
  - rewrite <-app_assoc. simpl.
    rewrite length_app. simpl.
    replace (length (render rooted k names) + S (length c) - 1)
      with (length (render rooted k names) + length c) by lia.
    rewrite backscan_sep; [by rewrite take_app_length|done| |done].
    apply dotdotMark_le.
  - assert (dotdotMark rooted k = length (render rooted k names)) as ->.
    { pose proof (dotdotMark_le rooted k names).
      pose proof (dotdotMark_lt rooted k names Hv) as Hlt.
      destruct names as [|d names]; [done|].
      exfalso. assert (dotdotMark rooted k < length (render rooted k (d :: names)))
        as Hlt' by by apply Hlt.
      unfold dotdotMark in *. destruct Hv as [Hk _].
      destruct rooted; cbn [andb orb negb] in Hslash;
        rewrite ?orb_false_r in Hslash;
        apply negb_false_iff, bool_decide_eq_true in Hslash.
      - rewrite Hk in * by done.
        change (length (render true 0 [])) with 1 in Hlt'. lia.
      - lia. }
    rewrite length_app.
    replace (length (render rooted k names) + length c - 1)
      with (length (render rooted k names) + (length c - 1)) by
      (destruct c; [done|simpl; lia]).
    rewrite backscan_mark; [by rewrite take_app_length|done|].
    destruct c; [done|simpl; lia].
Qed.

Lemma valid_snoc rooted k names c :
  valid rooted k names → realName c → valid rooted k (names ++ [c]).
Proof. intros [? ?] ?. split; [done|]. apply Forall_app; auto. Qed.

Lemma dotdotStep_name rooted k names c :
  valid rooted k names → realName c →
  dotdotStep rooted (render rooted k (names ++ [c])) (dotdotMark rooted k)
  = (render rooted k names, dotdotMark rooted k).
Proof.
  intros Hv Hc. unfold dotdotStep.
  rewrite bool_decide_eq_true_2, backtrack_render; [done..|].
  apply dotdotMark_lt; [by apply valid_snoc|]. by destruct names.
Qed.

Lemma dotdotStep_unrooted k :
  dotdotStep false (render false k []) (dotdotMark false k)
  = (render false (S k) [], dotdotMark false (S k)).
Proof.
  unfold dotdotStep, dotdotMark.
  rewrite bool_decide_eq_false_2 by lia. simpl negb. cbv iota.
  assert (render false (S k) [] = render false k ([] ++ [[dot; dot]])) as ->.
  { unfold render, dotdots. by rewrite replicate_S_end, <-app_assoc. }
  rewrite (render_snoc false k [] [dot; dot]) by (split; [done|constructor]).
  unfold addSlash. simpl.
  destruct (render false k []); simpl; done.
Qed.

Lemma dotdotStep_rooted :
  dotdotStep true (render true 0 []) (dotdotMark true 0)
  = (render true 0 [], dotdotMark true 0).
Proof. done. Qed.

(** Whatever the input, the buffer keeps its shape. *)
Lemma cleanLoop_shape rooted rest k names :
  valid rooted k names →
  ∃ k' names', valid rooted k' names'
    ∧ cleanLoop rooted rest (render rooted k names) (dotdotMark rooted k)
      = render rooted k' names'.
Proof.
  remember (length rest) as n eqn:Hn. revert rest k names Hn.
  induction (lt_wf n) as [n _ IH]. intros rest k names -> Hv.
  destruct rest as [|x rest]; [by exists k, names|].
  destruct (element_split (x :: rest)) as (c & more & Hrest & Hc & Hend).
  rewrite Hrest.
  assert (length (tail more) < length (x :: rest)) as Hlen.
  { rewrite Hrest, length_app.
    destruct more; simpl; [|lia]. destruct c; simpl in *; [done|lia]. }
  destruct (decide (c = [])) as [->|Hne].
  { simpl. rewrite cleanLoop_end by done. by eapply IH. }
  destruct (decide (c = [dot])) as [->|Hdot].
  { simpl. rewrite cleanLoop_dot by done. by eapply IH. }
  destruct (decide (c = [dot; dot])) as [->|Hdotdot].
  { simpl. rewrite cleanLoop_dotdot by done.
    destruct names as [|d names _] using rev_ind.
    - destruct rooted.
      + destruct Hv as [Hk _]. rewrite Hk by done.
        rewrite dotdotStep_rooted. eapply IH; [done..|]. by split.
      + rewrite dotdotStep_unrooted. eapply IH; [done..|]. by split.
    - destruct Hv as [Hk [Hnames Hd]%Forall_app].
      apply Forall_cons_1 in Hd as [Hd _].
      rewrite dotdotStep_name; [|by split|done]. simpl.
      eapply IH; [done..|]. by split. }
  rewrite cleanLoop_name by done.
  rewrite <-render_snoc by done.
  eapply IH; [done..|]. by apply valid_snoc.
Qed.

(** Input that is already clean is copied as it is; a trailing
    separator is dropped. *)
Lemma cleanLoop_names rooted comps tl k names :
  valid rooted k names → Forall realName comps →
  tl = [] ∨ tl = [Separator] →
  cleanLoop rooted (joinPath comps ++ tl) (render rooted k names)
            (dotdotMark rooted k)
  = render rooted k (names ++ comps).
Proof.
  intros Hv Hcomps Htl. revert names Hv.
  induction Hcomps as [|c comps Hc Hcomps IH]; intros names Hv.
  - rewrite app_nil_r. by destruct Htl as [-> | ->].
  - change (joinPath (c :: comps))
      with (c ++ match comps with
                 | [] => []
                 | _ => Separator :: joinPath comps
                 end).
    rewrite <-app_assoc, cleanLoop_name; [|done|].
    + rewrite <-render_snoc by done.
      rewrite (cons_middle c names comps), app_assoc.
      destruct comps as [|c' comps].
      * rewrite app_nil_r. by destruct Htl as [-> | ->].
      * simpl tail. apply IH. by apply valid_snoc.
    + destruct comps; [by destruct Htl as [-> | ->]|done].
Qed.

Lemma cleanLoop_dotdots j comps tl k :
  Forall realName comps → tl = [] ∨ tl = [Separator] →
  cleanLoop false (joinPath (dotdots j ++ comps) ++ tl) (render false k [])
            (dotdotMark false k)
  = render false (k + j) comps.
Proof.
  intros Hcomps Htl. revert k. induction j as [|j IH]; intros k.
  - rewrite Nat.add_0_r. simpl.
    rewrite cleanLoop_names; [done|by split|done..].
  - change (joinPath (dotdots (S j) ++ comps))
      with ([dot; dot] ++ match dotdots j ++ comps with
                          | [] => []
                          | _ => Separator :: joinPath (dotdots j ++ comps)
                          end).
    remember (dotdots j ++ comps) as L eqn:HL.
    rewrite <-app_assoc.
    change ([dot; dot] ++ ?l) with (dot :: dot :: l).
    rewrite cleanLoop_dotdot, dotdotStep_unrooted.
    + cbn [fst snd]. replace (k + S j) with (S k + j) by lia.
      destruct L as [|d l].
      * symmetry in HL. apply app_eq_nil in HL as [Hj ->]. destruct j; [|done].
        rewrite Nat.add_0_r. by destruct Htl as [-> | ->].
      * cbn [tail app]. apply IH.
    + destruct L; [by destruct Htl as [-> | ->]|done].
Qed.

(** *** What [Clean] returns *)

Lemma cleanBytes_shape path :
  ∃ rooted k names,
    valid rooted k names ∧ cleanBytes path = canon (render rooted k names).
Proof.
  destruct path as [|c path].
  { exists false, 0, []. by repeat split. }
  unfold cleanBytes. destruct (IsPathSeparator c).
  - destruct (cleanLoop_shape true (tail (c :: path)) 0 [])
      as (k & names & Hv & E); [by split|].
    exists true, k, names. split; [done|].
    change (cleanLoop true (tail (c :: path)) [Separator] 1
            = render true k names) in E.
    by rewrite E.
  - destruct (cleanLoop_shape false (c :: path) 0 [])
      as (k & names & Hv & E); [by split|].
    exists false, k, names. split; [done|].
    change (cleanLoop false (c :: path) [] 0 = render false k names) in E.
    by rewrite E.
Qed.

Lemma valid_pathElems rooted k names :
  valid rooted k names → Forall pathElem (dotdots k ++ names).
Proof.
  intros [_ Hnames]. apply Forall_app. split.
  - apply Forall_replicate. split; [done|]. by repeat constructor.
  - eapply Forall_impl; [done|]. by intros c (? & ? & _).
Qed.

Lemma joinPath_head c l :
  pathElem c → ∃ x J, joinPath (c :: l) = x :: J ∧ x ≠ Separator.
Proof.
  intros [Hne Hfree]. destruct c as [|x c]; [done|].
  inv Hfree. simpl. eauto.
Qed.

Lemma joinPath_last l c :
  pathElem c → ∃ x, last (joinPath (l ++ [c])) = Some x ∧ x ≠ Separator.
Proof.
  intros [Hne Hfree]. destruct c as [|y c _] using rev_ind; [done|].
  exists y. split.
  - rewrite joinPath_app. destruct l; simpl;
      rewrite ?app_nil_r, ?app_comm_cons, ?app_assoc; apply last_snoc.
  - unfold sepFree in Hfree. rewrite Forall_app, Forall_singleton in Hfree.
    by destruct Hfree.
Qed.

(** [Clean] never returns the empty string. *)
Lemma cleanBytes_nonempty path : cleanBytes path ≠ [].
Proof.
  destruct (cleanBytes_shape path) as (rooted & k & names & _ & ->).
  unfold canon. case_bool_decide as Hlen; [done|].
  intros E. by rewrite E in Hlen.
Qed.

(** The returned path ends in a slash only if it is the root. *)
Lemma cleanBytes_last_sep path :
  last (cleanBytes path) = Some Separator ↔ cleanBytes path = [Separator].
Proof.
  split; [|by intros ->].
  destruct (cleanBytes_shape path) as (rooted & k & names & Hv & ->).
  unfold canon. case_bool_decide as Hlen; [done|].
  apply valid_pathElems in Hv. unfold render in *.
  destruct (dotdots k ++ names) as [|c l _] using rev_ind.
  - by destruct rooted.
  - apply Forall_app in Hv as [_ Hc]. apply Forall_cons_1 in Hc as [Hc _].
    destruct (joinPath_last l c Hc) as (x & Hx & Hsep).
    rewrite last_app, Hx. naive_solver.
Qed.

Lemma cleanBytes_render rooted k names tl :
  valid rooted k names → tl = [] ∨ tl = [Separator] →
  cleanBytes (canon (render rooted k names) ++ tl)
  = canon (render rooted k names).
Proof.
  intros Hv Htl. unfold canon at 1. case_bool_decide as Hlen.
  { apply nil_length_inv in Hlen. rewrite Hlen.
    by destruct Htl as [-> | ->]. }
  destruct rooted.
  - destruct Hv as [Hk Hnames]. rewrite Hk in * by done.
    unfold render at 1. simpl. unfold cleanBytes. simpl.
    pose proof (cleanLoop_names true names tl 0 []) as E.
    change (valid true 0 [] → Forall realName names →
            tl = [] ∨ tl = [Separator] →
            cleanLoop true (joinPath names ++ tl) [Separator] 1
            = render true 0 names) in E.
    rewrite E; [done|by split|done..].
  - pose proof (valid_pathElems _ _ _ Hv) as Helems.
    destruct Hv as [_ Hnames]. unfold render at 1. simpl.
    destruct (dotdots k ++ names) as [|c l] eqn:Hl.
    { exfalso. apply Hlen. unfold render. by rewrite Hl. }
    apply Forall_cons_1 in Helems as [Hc _].
    destruct (joinPath_head c l Hc) as (x & J & HJ & Hx).
    apply IsPathSeparator_false in Hx.
    unfold cleanBytes. rewrite HJ. simpl. rewrite Hx.
    change (x :: J ++ tl) with ((x :: J) ++ tl). rewrite <-HJ, <-Hl.
    pose proof (cleanLoop_dotdots k names tl 0 Hnames Htl) as E.
    change (cleanLoop false (joinPath (dotdots k ++ names) ++ tl) [] 0
            = render false k names) in E.
    by rewrite E.
Qed.

(** [Clean] is idempotent, and a separator after a clean path is
    cleaned away again. *)
Lemma cleanBytes_idemp path : cleanBytes (cleanBytes path) = cleanBytes path.
Proof.
  destruct (cleanBytes_shape path) as (rooted & k & names & Hv & ->).
  rewrite <-(app_nil_r (canon _)) at 1. apply cleanBytes_render; auto.
Qed.

Lemma cleanBytes_slash path :
  cleanBytes (cleanBytes path ++ [Separator]) = cleanBytes path.
Proof.
  destruct (cleanBytes_shape path) as (rooted & k & names & Hv & ->).
  apply cleanBytes_render; auto.
Qed.

End CleanFacts.

(** * [NormalizePath] and [isExcluded] *)

Section PathPolicy.
Import filepath.

Lemma bytes_str b : bytes (str b) = b.
Proof. apply String.list_ascii_of_string_of_list_ascii. Qed.
Lemma str_bytes s : str (bytes s) = s.
Proof. apply String.string_of_list_ascii_of_string. Qed.
Lemma bytes_app s t : bytes (s +:+ t) = bytes s ++ bytes t.
Proof. induction s as [|c s IH]; [done|]. simpl. by rewrite <-IH. Qed.
Lemma bytes_nil s : bytes s = [] ↔ s = "".
Proof. by destruct s. Qed.

Lemma lastByte_Ret s c : lastByte s = Ret c ↔ last (bytes s) = Some c.
Proof. unfold lastByte. destruct (last (bytes s)); naive_solver. Qed.
Lemma lastByte_nonEmpty s : s ≠ "" → ∃ c, lastByte s = Ret c.
Proof.
  intros Hs. unfold lastByte. destruct (last (bytes s)) as [c|] eqn:E; [eauto|].
  apply last_None, bytes_nil in E. done.
Qed.
Lemma lastByte_empty : lastByte "" = Panic IndexOutOfRange.
Proof. done. Qed.

Lemma Clean_nonEmpty path : Clean path ≠ "".
Proof.
  unfold Clean. intros E%bytes_nil. rewrite bytes_str in E.
  by apply cleanBytes_nonempty in E.
Qed.
Lemma Clean_idemp path : Clean (Clean path) = Clean path.
Proof. unfold Clean. by rewrite bytes_str, cleanBytes_idemp. Qed.
Lemma Clean_slash path : Clean (Clean path +:+ str [Separator]) = Clean path.
Proof. unfold Clean. by rewrite bytes_app, !bytes_str, cleanBytes_slash. Qed.
Lemma Clean_endsInSeparator path :
  endsInSeparator (Clean path) ↔ Clean path = "/".
Proof.
  unfold endsInSeparator, Clean. rewrite bytes_str, cleanBytes_last_sep.
  split; [by intros ->|]. intros E. apply (f_equal bytes) in E.
  by rewrite bytes_str in E.
Qed.

(** [NormalizePath] by cases. *)
Lemma NormalizePath_file path : NormalizePath path false = Ret (Clean path).
Proof. done. Qed.
Lemma NormalizePath_dir path :
  NormalizePath path true
  = Ret (if decide (Clean path = "/") then "/" else Clean path +:+ "/").
Proof.
  unfold NormalizePath.
  destruct (lastByte_nonEmpty (Clean path)) as [c Hc]; [apply Clean_nonEmpty|].
  rewrite Hc. simpl. apply lastByte_Ret in Hc.
  case_decide as Hroot.
  - rewrite Hroot in *. by simplify_eq/=.
  - rewrite bool_decide_eq_false_2; [done|]. intros ->.
    by apply Hroot, Clean_endsInSeparator.
Qed.

(** [NormalizePath] never indexes out of range: [Clean] returns no empty
    path. *)
Lemma NormalizePath_returns path isDir : ∃ q, NormalizePath path isDir = Ret q.
Proof.
  destruct isDir; [rewrite NormalizePath_dir|rewrite NormalizePath_file]; eauto.
Qed.

(** C8, as stated, fails at the root directory: normalized as a
    non-directory, it still ends in a separator. *)
Lemma NormalizePath_root_not_dir :
  NormalizePath "/" false = Ret "/"
  ∧ ¬ (endsInSeparator "/" ↔ false = true).
Proof. split; [done|]. intros [H _]. discriminate (H eq_refl). Qed.

(** C8 (amended): [NormalizePath] returns the cleaned path, followed by a
    separator when [isDir] is true and the cleaned path does not end in
    one already; the result ends in a separator iff [isDir] is true or the
    cleaned path is the root. *)
Theorem NormalizePath_spec (p : string) (isDir : bool) :
  ∃ q, NormalizePath p isDir = Ret q
    ∧ q = (if isDir && negb (bool_decide (endsInSeparator (Clean p)))
           then Clean p +:+ "/" else Clean p)
    ∧ (endsInSeparator q ↔ isDir = true ∨ Clean p = "/").
Proof.
  destruct isDir.
  - rewrite NormalizePath_dir. eexists. split; [done|].
    case_decide as Hroot.
    + rewrite Hroot. split; [done|]. split; [auto|done].
    + simpl. rewrite bool_decide_eq_false_2; [|by rewrite Clean_endsInSeparator].
      simpl. split; [done|]. split; [auto|intros _].
      unfold endsInSeparator. rewrite bytes_app. apply last_snoc.
  - rewrite NormalizePath_file. eexists. split; [done|]. split; [done|].
    rewrite Clean_endsInSeparator. split; [auto|by intros [?|?]].
Qed.

(** C9: [NormalizePath] always returns, and normalizing its result again
    with the same flag returns the same path. *)
Theorem NormalizePath_idempotent (p : string) (d : bool) :
  ∃ q, NormalizePath p d = Ret q ∧ NormalizePath q d = Ret q.
Proof.
  destruct d.
  - rewrite NormalizePath_dir. eexists. split; [done|].
    destruct (decide (Clean p = "/")) as [Hroot|Hroot]; [done|].
    rewrite NormalizePath_dir, Clean_slash. by rewrite decide_False.
  - rewrite NormalizePath_file. eexists. split; [done|].
    by rewrite NormalizePath_file, Clean_idemp.
Qed.

(** [isExcluded], whenever it returns, has decided whether some prefix
    excludes the path. *)
Lemma isExcluded_Ret path excluded b :
  isExcluded path excluded = Ret b →
  (b = true ↔ ∃ e, e ∈ excluded ∧ excludedBy path e).
Proof.
  induction excluded as [|e excluded IH]; simpl.
  { intros [= <-]. split; [done|]. by intros (e & ?%not_elem_of_nil & _). }
  case_bool_decide as Hpath.
  { intros [= <-]. split; [intros _|done]. exists e. split; [left|by left]. }
  destruct (lastByte e) as [c|] eqn:Hc; [|done].
  apply lastByte_Ret in Hc. unfold mbind, exec_bind.
  destruct (_ && _) eqn:Hdir.
  - intros [= <-]. split; [intros _|done]. exists e. split; [left|right].
    apply andb_true_iff in Hdir as [->%bool_decide_eq_true Hpre]. by split.
  - intros Hrest. rewrite (IH Hrest). split.
    + intros (e' & ? & ?). exists e'. split; [by right|done].
    + intros (e' & [->|?]%elem_of_cons & He'); [|by eauto].
      destruct He' as [?|[Hsep Hpre]]; [done|]. exfalso.
      unfold endsInSeparator in Hsep. rewrite Hc in Hsep.
      injection Hsep as ->. apply andb_false_iff in Hdir as [Hdir|Hdir].
      * by apply bool_decide_eq_false in Hdir.
      * unfold str in Hpre. simpl in Hpre. congruence.
Qed.

(** With no empty prefix in the list, the index expression is in bounds. *)
Lemma isExcluded_returns path excluded :
  Forall nonEmpty excluded → ∃ b, isExcluded path excluded = Ret b.
Proof.
  induction 1 as [|e excluded He _ [b IH]]; simpl; [by eexists|].
  case_bool_decide; [by eexists|].
  destruct (lastByte_nonEmpty e He) as [c ->]. unfold mbind, exec_bind.
  destruct (_ && _); eauto.
Qed.

(** An empty prefix is indexed out of range as soon as the loop reaches
    it with a non-empty path. *)
Lemma isExcluded_empty_prefix path excluded :
  path ≠ "" → isExcluded path ("" :: excluded) = Panic IndexOutOfRange.
Proof. intros Hpath. simpl. by rewrite bool_decide_eq_false_2. Qed.

(** C2, as stated, fails on a list with an empty prefix: [/b] equals a
    prefix of the list, yet [isExcluded] does not return true there. *)
Lemma isExcluded_empty_prefix_first :
  ¬ (isExcluded "/b" [""; "/b"] = Ret true
     ↔ ∃ e, e ∈ [""; "/b"] ∧ excludedBy "/b" e).
Proof.
  intros [_ H]. enough (isExcluded "/b" [""; "/b"] = Ret true) by done.
  apply H. exists "/b". split; [set_solver|by left].
Qed.

(** C2 (amended): for every path and every list of non-empty exclude
    prefixes, [isExcluded] returns true iff the path equals some prefix,
    or some prefix ends in a separator and is a prefix of the path's
    directory followed by a separator.  [/tmp/some_file] excludes neither
    [/tmp/some_file/] nor [/tmp/some_file2]; [/tmp/] excludes [/tmp/foo]. *)
Theorem isExcluded_spec :
  (∀ p xs, Forall nonEmpty xs →
     ∃ b, isExcluded p xs = Ret b
          ∧ (b = true ↔ ∃ e, e ∈ xs ∧ excludedBy p e))
  ∧ isExcluded "/tmp/some_file/" ["/tmp/some_file"] = Ret false
  ∧ isExcluded "/tmp/some_file2" ["/tmp/some_file"] = Ret false
  ∧ isExcluded "/tmp/foo" ["/tmp/"] = Ret true.
Proof.
  split; [|by vm_compute].
  intros p xs Hxs. destruct (isExcluded_returns p xs Hxs) as [b Hb].
  exists b. split; [done|]. by apply isExcluded_Ret.
Qed.

(** [/var/log/syslog] under two directory prefixes. *)
Lemma isExcluded_spec_witness :
  Forall nonEmpty ["/tmp/"; "/var/log/"]
  ∧ ∃ b, isExcluded "/var/log/syslog" ["/tmp/"; "/var/log/"] = Ret b
         ∧ (b = true
            ↔ ∃ e, e ∈ ["/tmp/"; "/var/log/"] ∧ excludedBy "/var/log/syslog" e).
Proof.
  assert (Forall nonEmpty ["/tmp/"; "/var/log/"]) as H
    by (repeat constructor; discriminate).
  split; [exact H|]. exact (proj1 isExcluded_spec _ _ H).
Defined.

(** C10: [isExcluded] indexes in bounds for every path when every exclude
    prefix is non-empty, and for some non-empty path and list holding the
    empty string the index [e[len(e)-1]] is out of range. *)
Theorem isExcluded_in_bounds :
  (∀ path excluded, Forall nonEmpty excluded →
     ∃ b, isExcluded path excluded = Ret b)
  ∧ (∃ path excluded, "" ∈ excluded ∧ path ≠ ""
       ∧ isExcluded path excluded = Panic IndexOutOfRange).
Proof.
  split; [apply isExcluded_returns|].
  exists "/foo", ["/tmp/"; ""]. split; [set_solver|]. split; [done|].
  by vm_compute.
Qed.

(** The exclude list of the walker's own test. *)
Lemma isExcluded_in_bounds_witness :
  Forall nonEmpty ["/tmp/"; "/home/user2/"; "/var/log/"]
  ∧ ∃ b, isExcluded "/foo" ["/tmp/"; "/home/user2/"; "/var/log/"] = Ret b.
Proof.
  assert (Forall nonEmpty ["/tmp/"; "/home/user2/"; "/var/log/"]) as H
    by (repeat constructor; discriminate).
  split; [exact H|]. exact (proj1 isExcluded_in_bounds _ _ H).
Defined.

End PathPolicy.

(** * The diff of two files *)

Section DiffFacts.
Variable Quote : string → string.
Variable Format : time.Time → string.

Lemma time_Equal_eq t u : time.Equal t u = true ↔ t = u.
Proof.
  unfold time.Equal. rewrite andb_true_iff, !bool_decide_eq_true.
  destruct t, u; simpl. split; [by intros [-> ->]|by intros [= -> ->]].
Qed.

Lemma append_nonempty_r s t : t ≠ "" → s +:+ t ≠ "".
Proof. by destruct s, t. Qed.
Lemma append_nonempty_l s t : s ≠ "" → s +:+ t ≠ "".
Proof. by destruct s. Qed.

Lemma timestampDiff_err bt at' : (timestampDiff Format bt at').2 = None.
Proof. unfold timestampDiff. by repeat case_match. Qed.

Lemma timestampDiff_same bt at' :
  AsTime bt = AsTime at' → timestampDiff Format bt at' = ("", None).
Proof.
  intros E. unfold timestampDiff. case_match; [done|].
  by rewrite (proj2 (time_Equal_eq _ _) E).
Qed.

Lemma timestampDiff_changed bt at' :
  AsTime bt ≠ AsTime at' →
  timestampDiff Format bt at' = (renderDelta Format bt at', None).
Proof.
  intros E. unfold timestampDiff. case_match eqn:Hnil.
  { apply andb_true_iff in Hnil as [->%bool_decide_eq_true ->%bool_decide_eq_true].
    done. }
  destruct (time.Equal _ _) eqn:Heq; [|done].
  by apply time_Equal_eq in Heq.
Qed.

Lemma renderDelta_nonempty bt at' : renderDelta Format bt at' ≠ "".
Proof. unfold renderDelta. by apply append_nonempty_r, append_nonempty_l. Qed.

Lemma HasPrefix_app s t p :
  (length (bytes p) ≤ length (bytes s))%nat →
  HasPrefix (s +:+ t) p = HasPrefix s p.
Proof.
  unfold HasPrefix. rewrite bytes_app.
  generalize (bytes s) (bytes p) (bytes t). clear. intros s p t.
  revert s. induction p as [|c p IH]; intros [|d s] Hlen; simpl in *;
    [done..|lia|]. rewrite IH; [done|lia].
Qed.


Lemma filter_snoc_True {A} (P : A → Prop) `{!∀ x, Decision (P x)} l x :
  P x → filter P (l ++ [x]) = filter P l ++ [x].
Proof. intros. by rewrite filter_app, filter_cons_True. Qed.
Lemma filter_snoc_False {A} (P : A → Prop) `{!∀ x, Decision (P x)} l x :
  ¬ P x → filter P (l ++ [x]) = filter P l.
Proof. intros. by rewrite filter_app, filter_cons_False, app_nil_r. Qed.


(** [diffFileStat] on two stat blocks: the uid and gid lines, then at most
    one ctime line. *)
Lemma diffFileStat_Some fsb fsa :
  diffFileStat Format (Some fsb) (Some fsa)
  = Ret ((if bool_decide (FileStat.Uid fsb = FileStat.Uid fsa) then []
          else ["uid: " +:+ pretty (FileStat.Uid fsb) +:+ " => "
                  +:+ pretty (FileStat.Uid fsa)])
         ++ (if bool_decide (FileStat.Gid fsb = FileStat.Gid fsa) then []
             else ["gid: " +:+ pretty (FileStat.Gid fsb) +:+ " => "
                     +:+ pretty (FileStat.Gid fsa)])
         ++ (if bool_decide
                  (AsTime (FileStat.Ctime fsb) ≠ AsTime (FileStat.Ctime fsa)
                   ∧ (AsTime (FileStat.Mtime fsb) = AsTime (FileStat.Mtime fsa)
                      ∨ renderDelta Format (FileStat.Ctime fsb) (FileStat.Ctime fsa)
                        ≠ renderDelta Format (FileStat.Mtime fsb) (FileStat.Mtime fsa)))
             then ["ctime: " +:+ renderDelta Format (FileStat.Ctime fsb)
                                                   (FileStat.Ctime fsa)]
             else []),
         None).
Proof.
  unfold diffFileStat. simpl.
  destruct (decide (AsTime (FileStat.Ctime fsb) = AsTime (FileStat.Ctime fsa)))
    as [Hc|Hc].
  { rewrite (timestampDiff_same _ _ Hc). simpl.
    rewrite (bool_decide_eq_false_2 (_ ∧ _)) by (intros [? [?|?]]; congruence).
    repeat case_bool_decide; simpl; by rewrite ?app_nil_r. }
  rewrite (timestampDiff_changed _ _ Hc).
  rewrite (bool_decide_eq_false_2 (renderDelta _ _ _ = ""))
    by apply renderDelta_nonempty.
  destruct (decide (AsTime (FileStat.Mtime fsb) = AsTime (FileStat.Mtime fsa)))
    as [Hm|Hm].
  { rewrite (timestampDiff_same _ _ Hm).
    rewrite (bool_decide_eq_false_2 ("" = _))
      by (intros E; by eapply renderDelta_nonempty).
    rewrite (bool_decide_eq_true_2 (_ ∧ _)) by (split; [done|]; auto).
    repeat case_bool_decide; simpl; by rewrite ?app_nil_r. }
  rewrite (timestampDiff_changed _ _ Hm).
  destruct (decide (renderDelta Format (FileStat.Mtime fsb) (FileStat.Mtime fsa)
                    = renderDelta Format (FileStat.Ctime fsb) (FileStat.Ctime fsa)))
    as [Hr|Hr].
  - rewrite (bool_decide_eq_true_2 _ Hr).
    rewrite (bool_decide_eq_false_2 (_ ∧ _)) by (intros [? [?|?]]; congruence).
    repeat case_bool_decide; simpl; by rewrite ?app_nil_r.
  - rewrite (bool_decide_eq_false_2 _ Hr).
    rewrite (bool_decide_eq_true_2 (_ ∧ _)) by (split; [done|]; auto).
    repeat case_bool_decide; simpl; by rewrite ?app_nil_r.
Qed.


Lemma filter_none {A} (P : A → Prop) `{!∀ x, Decision (P x)} l :
  Forall (λ x, ¬ P x) l → filter P l = [].
Proof.
  induction 1 as [|x l Hx _ IH]; [done|]. by rewrite filter_cons_False.
Qed.

Lemma isFingerprintLine_intro s : isFingerprintLine ("fingerprint" +:+ s).
Proof. unfold isFingerprintLine. by rewrite HasPrefix_app. Qed.

Lemma fingerprintDiffs_lines before after :
  Forall isFingerprintLine (fingerprintDiffs before after).
Proof.
  unfold fingerprintDiffs.
  repeat (case_match || case_bool_decide); simpl;
    repeat constructor; apply (isFingerprintLine_intro (String _ _)).
Qed.




(** The error results of the two block comparisons are always nil. *)
Lemma diffFileInfo_err fib fia diffs err :
  diffFileInfo Quote Format fib fia = Ret (diffs, err) → err = None.
Proof.
  unfold diffFileInfo. case_match; [by intros [= <- <-]|].
  destruct fib as [b|], fia as [a|]; simpl; try done.
  pose proof (timestampDiff_err (FileInfo.Modified b) (FileInfo.Modified a)).
  destruct (timestampDiff Format _ _) as [diff e]; simpl in *; subst.
  by repeat case_match; intros [= <- <-].
Qed.
Lemma diffFileStat_err fsb fsa diffs err :
  diffFileStat Format fsb fsa = Ret (diffs, err) → err = None.
Proof.
  unfold diffFileStat. case_match; [by intros [= <- <-]|].
  destruct fsb as [b|], fsa as [a|]; simpl; try done.
  pose proof (timestampDiff_err (FileStat.Ctime b) (FileStat.Ctime a)).
  pose proof (timestampDiff_err (FileStat.Mtime b) (FileStat.Mtime a)).
  destruct (timestampDiff Format (FileStat.Ctime b) _) as [cdiff e];
    destruct (timestampDiff Format (FileStat.Mtime b) _) as [mdiff e'];
    simpl in *; subst.
  by repeat case_match; intros [= <- <-].
Qed.

(** What [diffFileLines] returns when it returns lines. *)
Lemma diffFileLines_Ret before after lines :
  diffFileLines Quote Format before after = Ret (lines, None) →
  ∃ fiDiffs fsDiffs,
    diffFileInfo Quote Format (File.Info before) (File.Info after)
      = Ret (fiDiffs, None)
    ∧ diffFileStat Format (File.Stat before) (File.Stat after)
      = Ret (fsDiffs, None)
    ∧ lines = Sort ((fingerprintDiffs before after ++ fiDiffs) ++ fsDiffs).
Proof.
  unfold diffFileLines. repeat case_bool_decide; simpl; try done.
  destruct (diffFileInfo _ _ _ _) as [[fiDiffs [e|]]|] eqn:Hfi; simpl; try done.
  destruct (diffFileStat _ _ _) as [[fsDiffs [e|]]|] eqn:Hfs; simpl; try done.
  intros [= <-]. eauto.
Qed.

Lemma diffFileLines_returns before after :
  File.Version before = File.Version after →
  File.Path before = File.Path after →
  (is_Some (File.Info before) ↔ is_Some (File.Info after)) →
  (is_Some (File.Stat before) ↔ is_Some (File.Stat after)) →
  ∃ lines, diffFileLines Quote Format before after = Ret (lines, None).
Proof.
  intros Hv Hp Hi Hs. unfold diffFileLines.
  rewrite !bool_decide_eq_true_2 by done. simpl.
  assert (∃ fiDiffs, diffFileInfo Quote Format (File.Info before) (File.Info after)
                     = Ret (fiDiffs, None)) as [fiDiffs Hfi].
  { destruct (diffFileInfo Quote Format (File.Info before) (File.Info after))
      as [[d e]|e] eqn:E.
    - apply diffFileInfo_err in E as E'. subst. eauto.
    - exfalso. unfold diffFileInfo in E.
      destruct (File.Info before), (File.Info after); simpl in E;
        repeat case_match; simplify_eq;
        (by apply is_Some_None, Hi) || (by eapply is_Some_None, Hi). }
  assert (∃ fsDiffs, diffFileStat Format (File.Stat before) (File.Stat after)
                     = Ret (fsDiffs, None)) as [fsDiffs Hfs].
  { destruct (diffFileStat Format (File.Stat before) (File.Stat after))
      as [[d e]|e] eqn:E.
    - apply diffFileStat_err in E as E'. subst. eauto.
    - exfalso. unfold diffFileStat in E.
      destruct (File.Stat before), (File.Stat after); simpl in E;
        repeat case_match; simplify_eq;
        (by apply is_Some_None, Hs) || (by eapply is_Some_None, Hs). }
  rewrite Hfi. simpl. rewrite Hfs. simpl. eauto.
Qed.



End DiffFacts.

(** * Sorting *)

Section Sorting.

Lemma ltb_leb s t : String.ltb t s = false ↔ String.le s t.
Proof.
  unfold String.le, String.ltb, String.leb.
  rewrite (String.compare_antisym t s).
  destruct (String.compare s t); simpl; split; done.
Qed.

Lemma compare_refl s : String.compare s s = Eq.
Proof.
  induction s as [|a s IH]; simpl; [done|].
  unfold Ascii.compare. by rewrite N.compare_refl.
Qed.

Lemma strLt_le s t : strLt s t ↔ String.le s t ∧ s ≠ t.
Proof.
  unfold strLt, String.le, String.ltb, String.leb.
  destruct (String.compare s t) eqn:E; simpl.
  - apply String.compare_eq_iff in E. split; [done|]. by intros [_ ?].
  - split; [intros _|done]. split; [done|]. intros ->.
    rewrite compare_refl in E. done.
  - split; [done|]. by intros [? _].
Qed.

Global Instance strLt_trans : Transitive strLt.
Proof.
  intros s t u [Hst Hne]%strLt_le [Htu Hne']%strLt_le. apply strLt_le.
  split; [by etrans|]. intros ->.
  by pose proof (anti_symm String.le _ _ Hst Htu).
Qed.

Lemma notAfter_le {A} (key : A → string) a b :
  notAfter (λ x y, String.ltb (key x) (key y)) a b ↔ String.le (key a) (key b).
Proof. unfold notAfter. apply ltb_leb. Qed.

Global Instance notAfter_total {A} (key : A → string) :
  Total (notAfter (λ x y, String.ltb (key x) (key y))).
Proof.
  intros a b. rewrite !notAfter_le. apply (total String.le).
Qed.
Global Instance notAfter_trans {A} (key : A → string) :
  Transitive (notAfter (λ x y, String.ltb (key x) (key y))).
Proof.
  intros a b c. rewrite !notAfter_le. apply transitivity.
Qed.

Lemma NoDup_fmap_inj_on {A B} (f : A → B) l x y :
  NoDup (f <$> l) → x ∈ l → y ∈ l → f x = f y → x = y.
Proof.
  induction l as [|z l IH]; simpl; [by intros _ ?%not_elem_of_nil|].
  intros [Hz Hl]%NoDup_cons [->|Hx]%elem_of_cons [->|Hy]%elem_of_cons E;
    [done| | |by apply IH].
  - destruct Hz. rewrite E. by apply list_elem_of_fmap_2.
  - destruct Hz. rewrite <-E. by apply list_elem_of_fmap_2.
Qed.

Lemma SortFunc_Permutation {A} (less : A → A → bool) l : SortFunc less l ≡ₚ l.
Proof. apply merge_sort_Permutation. Qed.

(** With pairwise different keys the sorted list is strictly ascending. *)
Lemma SortFunc_ascending (key : ActionData.t → string) l :
  NoDup (key <$> l) →
  ascendingBy key (SortFunc (λ x y, String.ltb (key x) (key y)) l).
Proof.
  intros Hnodup. unfold ascendingBy, SortFunc.
  set (less := λ x y, String.ltb (key x) (key y)).
  pose proof (StronglySorted_merge_sort (notAfter less) l) as Hs.
  pose proof (merge_sort_Permutation (notAfter less) l) as Hp.
  assert (NoDup (key <$> merge_sort (notAfter less) l)) as Hnd by by rewrite Hp.
  clear Hp Hnodup. induction Hs as [|a l' Hs IH Ha]; [constructor|].
  simpl in Hnd. apply NoDup_cons in Hnd as [Hin Hnd].
  constructor; [by apply IH|].
  rewrite Forall_forall in Ha |- *. intros b Hb. apply strLt_le.
  split; [by apply notAfter_le, Ha|].
  intros E. apply Hin. rewrite E. by apply list_elem_of_fmap_2.
Qed.

(** With pairwise different keys the result does not depend on the order
    of the input (nor on the sorting algorithm). *)
Lemma SortFunc_unique (key : ActionData.t → string) l1 l2 :
  NoDup (key <$> l1) → l1 ≡ₚ l2 →
  SortFunc (λ x y, String.ltb (key x) (key y)) l1
  = SortFunc (λ x y, String.ltb (key x) (key y)) l2.
Proof.
  intros Hnodup Hperm. unfold SortFunc.
  set (less := λ x y, String.ltb (key x) (key y)).
  apply (Sorted_unique_strong (notAfter less)).
  - intros x y Hx Hy Hxy Hyx.
    rewrite merge_sort_Permutation in Hx, Hy. rewrite <-Hperm in Hy.
    apply (NoDup_fmap_inj_on key l1); [done..|].
    apply (anti_symm String.le); by apply notAfter_le.
  - apply Sorted_merge_sort, _.
  - apply Sorted_merge_sort, _.
  - by rewrite !merge_sort_Permutation.
Qed.

End Sorting.

(** * [Compare] *)

(** Unfolding the functions the sections below abbreviate. *)
Ltac unfold_compareBefore := unfold compareBefore.
Ltac unfold_Compare := unfold Compare.

Section CompareFacts.
Variable Quote : string → string.
Variable Format : time.Time → string.
Variable rangeMap : gmap string File.t → list (string * File.t).

Local Abbreviation compareBefore := (compareBefore Quote Format).
Local Abbreviation Compare := (Compare Quote Format rangeMap).
Local Abbreviation builtReport := (builtReport Quote Format rangeMap).

Lemma bind_Ret {A B} (m : exec A) (k : A → exec B) b :
  m ≫= k = Ret b ↔ ∃ a, m = Ret a ∧ k a = Ret b.
Proof.
  destruct m as [a|e]; simpl.
  - split; [eauto|]. by intros (a' & [= <-] & ?).
  - split; [done|]. by intros (a' & ? & ?).
Qed.

(** *** One round of each loop *)

Lemma compareBefore_Ret r wa output fb output' :
  compareBefore r wa output fb = Ret output' →
  Report.Added output' = Report.Added output
  ∧ Report.Deleted output' = Report.Deleted output ++ deletedOf r wa fb
  ∧ Report.Modified output' = Report.Modified output ++ modifiedOf Quote Format r wa fb
  ∧ Report.Errors output' = Report.Errors output ++ errorsOf Quote Format r wa fb.
Proof.
  unfold_compareBefore. unfold deletedOf, modifiedOf, errorsOf.
  destruct (isExcluded _ _) as [[]|]; simpl; [| |done].
  { intros [= <-]. simpl. by rewrite !app_nil_r. }
  destruct (wa !! File.Path fb) as [fa|]; simpl.
  - destruct (diffFile _ _ _ _) as [[diff [e|]]|]; simpl; [| |done];
      case_bool_decide; intros [= <-]; simpl; by rewrite ?app_nil_r.
  - intros [= <-]. simpl. by rewrite !app_nil_r.
Qed.

Lemma compareBefore_returns r wa output fb :
  beforeOk Quote Format r wa fb ↔ ∃ output', compareBefore r wa output fb = Ret output'.
Proof.
  unfold_compareBefore. unfold beforeOk.
  destruct (isExcluded _ _) as [[]|]; simpl.
  - split; [eauto|done].
  - destruct (wa !! File.Path fb) as [fa|]; simpl; [|split; [eauto|done]].
    destruct (diffFile _ _ _ _) as [[diff e]|]; simpl.
    + split; [eauto|]. eauto.
    + split; [by intros [? ?]|by intros [? ?]].
  - split; [done|by intros [? ?]].
Qed.

Lemma compareAfter_Ret r wb output fa output' :
  compareAfter r wb output fa = Ret output' →
  Report.Added output' = Report.Added output ++ addedOf r wb fa
  ∧ Report.Deleted output' = Report.Deleted output
  ∧ Report.Modified output' = Report.Modified output
  ∧ Report.Errors output' = Report.Errors output.
Proof.
  unfold compareAfter, addedOf.
  destruct (isExcluded _ _) as [[]|]; simpl; [| |done].
  { intros [= <-]. simpl. by rewrite !app_nil_r. }
  destruct (wb !! File.Path fa) as [fb|]; simpl; intros [= <-]; simpl;
    by rewrite ?app_nil_r.
Qed.

Lemma compareAfter_returns r wb output fa :
  afterOk r fa ↔ ∃ output', compareAfter r wb output fa = Ret output'.
Proof.
  unfold compareAfter, afterOk.
  destruct (isExcluded _ _) as [[]|]; simpl.
  - split; eauto.
  - destruct (wb !! File.Path fa); split; eauto.
  - split; by intros [? ?].
Qed.

(** *** The two loops *)

Lemma rangeList_before r wa fbs output output' :
  rangeList (compareBefore r wa) fbs output = Ret output' →
  Report.Added output' = Report.Added output
  ∧ Report.Deleted output' = Report.Deleted output ++ (fbs ≫= deletedOf r wa)
  ∧ Report.Modified output'
    = Report.Modified output ++ (fbs ≫= modifiedOf Quote Format r wa)
  ∧ Report.Errors output'
    = Report.Errors output ++ (fbs ≫= errorsOf Quote Format r wa).
Proof.
  revert output. induction fbs as [|fb fbs IH]; intros output; simpl.
  { intros [= <-]. by rewrite !app_nil_r. }
  intros (o & Ho & Hrest)%bind_Ret.
  apply compareBefore_Ret in Ho as (F1 & F2 & F3 & F4).
  apply IH in Hrest as (E1 & E2 & E3 & E4).
  rewrite E1, E2, E3, E4, F1, F2, F3, F4. by rewrite <-!app_assoc.
Qed.

Lemma rangeList_before_returns r wa fbs output :
  Forall (beforeOk Quote Format r wa) fbs
  ↔ ∃ output', rangeList (compareBefore r wa) fbs output = Ret output'.
Proof.
  revert output. induction fbs as [|fb fbs IH]; intros output; simpl.
  { split; [eauto|constructor]. }
  rewrite Forall_cons. split.
  - intros [[o Ho]%(compareBefore_returns _ _ output) [o' Ho']%(IH o)].
    exists o'. by rewrite Ho.
  - intros [o' (o & Ho & Hrest)%bind_Ret]. split.
    + apply (compareBefore_returns _ _ output). eauto.
    + apply (IH o). eauto.
Qed.

Lemma rangeList_after r wb fas output output' :
  rangeList (compareAfter r wb) fas output = Ret output' →
  Report.Added output' = Report.Added output ++ (fas ≫= addedOf r wb)
  ∧ Report.Deleted output' = Report.Deleted output
  ∧ Report.Modified output' = Report.Modified output
  ∧ Report.Errors output' = Report.Errors output.
Proof.
  revert output. induction fas as [|fa fas IH]; intros output; simpl.
  { intros [= <-]. by rewrite !app_nil_r. }
  intros (o & Ho & Hrest)%bind_Ret.
  apply compareAfter_Ret in Ho as (F1 & F2 & F3 & F4).
  apply IH in Hrest as (E1 & E2 & E3 & E4).
  rewrite E1, E2, E3, E4, F1, F2, F3, F4. by rewrite <-!app_assoc.
Qed.

Lemma rangeList_after_returns r wb fas output :
  Forall (afterOk r) fas
  ↔ ∃ output', rangeList (compareAfter r wb) fas output = Ret output'.
Proof.
  revert output. induction fas as [|fa fas IH]; intros output; simpl.
  { split; [eauto|constructor]. }
  rewrite Forall_cons. split.
  - intros [[o Ho]%(compareAfter_returns _ wb output) [o' Ho']%(IH o)].
    exists o'. by rewrite Ho.
  - intros [o' (o & Ho & Hrest)%bind_Ret]. split.
    + apply (compareAfter_returns _ wb output). eauto.
    + apply (IH o). eauto.
Qed.

(** *** Counters *)

Lemma compareBefore_counter r wa output fb output' :
  compareBefore r wa output fb = Ret output' →
  Report.Counter output'
  = tally (countedBefore Quote Format r wa fb) (Report.Counter output)
  ∧ Report.WalkBefore output' = Report.WalkBefore output
  ∧ Report.WalkAfter output' = Report.WalkAfter output.
Proof.
  unfold_compareBefore. unfold countedBefore, tally.
  destruct (isExcluded _ _) as [[]|]; simpl; [| |done].
  { by intros [= <-]. }
  destruct (wa !! File.Path fb) as [fa|]; simpl.
  - destruct (diffFile _ _ _ _) as [[diff [e|]]|]; simpl; [| |done];
      case_bool_decide; by intros [= <-].
  - by intros [= <-].
Qed.

Lemma compareAfter_counter r wb output fa output' :
  compareAfter r wb output fa = Ret output' →
  Report.Counter output' = tally (countedAfter r wb fa) (Report.Counter output)
  ∧ Report.WalkBefore output' = Report.WalkBefore output
  ∧ Report.WalkAfter output' = Report.WalkAfter output.
Proof.
  unfold compareAfter, countedAfter, tally.
  destruct (isExcluded _ _) as [[]|]; simpl; [| |done].
  { by intros [= <-]. }
  destruct (wb !! File.Path fa) as [fb|]; simpl; by intros [= <-].
Qed.

Lemma tally_app l1 l2 c : tally (l1 ++ l2) c = tally l2 (tally l1 c).
Proof. apply foldl_app. Qed.

Lemma rangeList_before_counter r wa fbs output output' :
  rangeList (compareBefore r wa) fbs output = Ret output' →
  Report.Counter output'
  = tally (fbs ≫= countedBefore Quote Format r wa) (Report.Counter output)
  ∧ Report.WalkBefore output' = Report.WalkBefore output
  ∧ Report.WalkAfter output' = Report.WalkAfter output.
Proof.
  revert output. induction fbs as [|fb fbs IH]; intros output; simpl.
  { by intros [= <-]. }
  intros (o & Ho & Hrest)%bind_Ret.
  apply compareBefore_counter in Ho as (F1 & F2 & F3).
  apply IH in Hrest as (E1 & E2 & E3).
  rewrite E1, E2, E3, F1, F2, F3. split; [|done].
  change ((fb :: fbs) ≫= countedBefore Quote Format r wa)
    with (countedBefore Quote Format r wa fb
          ++ (fbs ≫= countedBefore Quote Format r wa)).
  by rewrite tally_app.
Qed.

Lemma rangeList_after_counter r wb fas output output' :
  rangeList (compareAfter r wb) fas output = Ret output' →
  Report.Counter output'
  = tally (fas ≫= countedAfter r wb) (Report.Counter output)
  ∧ Report.WalkBefore output' = Report.WalkBefore output
  ∧ Report.WalkAfter output' = Report.WalkAfter output.
Proof.
  revert output. induction fas as [|fa fas IH]; intros output; simpl.
  { by intros [= <-]. }
  intros (o & Ho & Hrest)%bind_Ret.
  apply compareAfter_counter in Ho as (F1 & F2 & F3).
  apply IH in Hrest as (E1 & E2 & E3).
  rewrite E1, E2, E3, F1, F2, F3. split; [|done].
  change ((fa :: fas) ≫= countedAfter r wb)
    with (countedAfter r wb fa ++ (fas ≫= countedAfter r wb)).
  by rewrite tally_app.
Qed.

Lemma Counter_Add_comm n1 n2 c :
  Counter_Add 1 n1 (Counter_Add 1 n2 c) = Counter_Add 1 n2 (Counter_Add 1 n1 c).
Proof.
  unfold Counter_Add. destruct (decide (n1 = n2)) as [->|Hne]; [done|].
  rewrite (lookup_insert_ne c n2 n1), (lookup_insert_ne c n1 n2) by done.
  by apply insert_insert_ne.
Qed.

(** The counters do not depend on the order of the increments. *)
Lemma tally_Permutation names names' c :
  names ≡ₚ names' → tally names c = tally names' c.
Proof.
  intros Hp. revert c.
  induction Hp as [|n l l' _ IH|n m l|l l' l'' _ IH1 _ IH2]; intros c; simpl.
  - done.
  - apply IH.
  - change (foldl _ ?c' l) with (tally l c'). by rewrite Counter_Add_comm.
  - by rewrite IH1.
Qed.

(** *** The index of an inventory *)

Lemma normalizedPath_returns f : is_Some (File.Info f) → ∃ p, normalizedPath f = Ret p.
Proof.
  intros [info Hinfo]. unfold normalizedPath. rewrite Hinfo. simpl.
  destruct (NormalizePath_returns (File.Path f) (FileInfo.IsDir info)) as [q ->].
  eauto.
Qed.

Lemma indexStep_Ret (walked : gmap string File.t) f m :
  (info ← deref (File.Info f);
   p ← NormalizePath (File.Path f) (FileInfo.IsDir info);
   Ret (<[p := File.setPath f p]> walked)) = Ret m
  ↔ ∃ p, normalizedPath f = Ret p ∧ m = <[p := File.setPath f p]> walked.
Proof.
  unfold normalizedPath. destruct (File.Info f) as [info|]; simpl.
  - destruct (NormalizePath _ _) as [p|]; simpl.
    + split; [intros [= <-]; eauto|]. by intros (p' & [= <-] & ->).
    + split; [done|]. by intros (? & ? & _).
  - split; [done|]. by intros (? & ? & _).
Qed.

Lemma indexFiles_acc files (m0 m : gmap string File.t) :
  rangeList
    (λ (walked : gmap string File.t) fOrig,
       info ← deref (File.Info fOrig);
       p ← NormalizePath (File.Path fOrig) (FileInfo.IsDir info);
       Ret (<[p := File.setPath fOrig p]> walked)) files m0 = Ret m →
  (∀ p f', m !! p = Some f' →
     m0 !! p = Some f'
     ∨ ∃ f, f ∈ files ∧ normalizedPath f = Ret p ∧ f' = File.setPath f p)
  ∧ (∀ p, is_Some (m0 !! p) → is_Some (m !! p))
  ∧ (∀ f p, f ∈ files → normalizedPath f = Ret p → is_Some (m !! p)).
Proof.
  revert m0. induction files as [|f files IH]; intros m0; simpl.
  { intros [= <-]. split; [auto|]. split; [auto|]. by intros ?? ?%not_elem_of_nil. }
  intros (m1 & (q & Hq & ->)%indexStep_Ret & Hrest)%bind_Ret.
  apply IH in Hrest as (H1 & H2 & H3). split; [|split].
  - intros p f' [Hm1|(f0 & ? & ? & ?)]%H1.
    + destruct (decide (q = p)) as [->|Hne].
      * rewrite lookup_insert_eq in Hm1. injection Hm1 as <-.
        right. exists f. split; [left|done].
      * rewrite lookup_insert_ne in Hm1 by done. by left.
    + right. exists f0. split; [by right|done].
  - intros p Hp. apply H2. destruct (decide (q = p)) as [->|Hne].
    + rewrite lookup_insert_eq. eauto.
    + by rewrite lookup_insert_ne.
  - intros f0 p [->|Hin]%elem_of_cons Hp; [|by eapply H3].
    apply H2. rewrite Hq in Hp. injection Hp as ->.
    rewrite lookup_insert_eq. eauto.
Qed.

Lemma indexFiles_lookup files m p f' :
  indexFiles files = Ret m → m !! p = Some f' →
  File.Path f' = p ∧ ∃ f, f ∈ files ∧ normalizedPath f = Ret p ∧ f' = File.setPath f p.
Proof.
  intros (H1 & _)%indexFiles_acc Hp.
  apply H1 in Hp as [Hp|(f & ? & ? & ->)]; [by rewrite lookup_empty in Hp|].
  split; [done|]. eauto.
Qed.

Lemma indexFiles_present files m p :
  indexFiles files = Ret m →
  is_Some (m !! p) ↔ ∃ f, f ∈ files ∧ normalizedPath f = Ret p.
Proof.
  intros Hm. split.
  - intros [f' Hp]. eapply indexFiles_lookup in Hp as (_ & f & ? & ? & _); eauto.
  - intros (f & ? & ?). apply indexFiles_acc in Hm as (_ & _ & H3). eauto.
Qed.

Lemma indexFiles_returns files :
  Forall (λ f, is_Some (File.Info f)) files → ∃ m, indexFiles files = Ret m.
Proof.
  intros Hall. unfold indexFiles. generalize (∅ : gmap string File.t).
  induction Hall as [|f files [p Hf]%normalizedPath_returns _ IH];
    intros m0; simpl.
  { eauto. }
  destruct (IH (<[p := File.setPath f p]> m0)) as [m Hm]. exists m.
  apply bind_Ret. eexists. split; [|done]. apply indexStep_Ret. eauto.
Qed.

Lemma indexBefore_lookup before m p f' :
  indexBefore before = Ret m → m !! p = Some f' → File.Path f' = p.
Proof.
  destruct before as [b|]; simpl.
  - intros Hm Hp. by eapply indexFiles_lookup in Hp as [? _].
  - intros [= <-]. by rewrite lookup_empty.
Qed.

Lemma indexBefore_present before m p :
  indexBefore before = Ret m → is_Some (m !! p) ↔ present before p.
Proof.
  unfold present. destruct before as [b|]; simpl.
  - intros Hm. rewrite (indexFiles_present _ _ _ Hm). split.
    + intros (f & ? & ?). eauto.
    + by intros (w' & f & [= <-] & ? & ?); eauto.
  - intros [= <-]. rewrite lookup_empty. split; [by intros [? ?]|].
    by intros (? & ? & ? & _).
Qed.

(** *** The values [range] visits *)

Lemma range_values (m : gmap string File.t) f :
  fairRange rangeMap → f ∈ (rangeMap m).*2 ↔ ∃ p, m !! p = Some f.
Proof.
  intros Hfair. rewrite (Hfair m), list_elem_of_fmap. split.
  - intros ([p f'] & -> & Hin%elem_of_map_to_list). eauto.
  - intros [p Hp]. exists (p, f). split; [done|]. by apply elem_of_map_to_list.
Qed.

Lemma range_paths (m : gmap string File.t) :
  fairRange rangeMap →
  (∀ p f, m !! p = Some f → File.Path f = p) →
  NoDup (File.Path <$> (rangeMap m).*2).
Proof.
  intros Hfair Hpath. rewrite (Hfair m).
  assert (File.Path <$> (map_to_list m).*2 = (map_to_list m).*1) as ->.
  { rewrite <-list_fmap_compose. apply list_fmap_ext.
    intros i [p f] Hi. simpl. apply Hpath, elem_of_map_to_list.
    by eapply list_elem_of_lookup_2. }
  apply NoDup_fst_map_to_list.
Qed.

Lemma bind_keys_sublist {A} (f : A → list ActionData.t)
    (key : ActionData.t → string) (k : A → string) l :
  (∀ x, key <$> f x = [k x] ∨ f x = []) →
  (key <$> (l ≫= f)) `sublist_of` (k <$> l).
Proof.
  intros Hf. induction l as [|x l IH]; [done|].
  change ((x :: l) ≫= f) with (f x ++ (l ≫= f)). rewrite fmap_app. simpl.
  destruct (Hf x) as [-> | ->]; simpl; by constructor.
Qed.

(** *** The entries one round contributes *)

Lemma deletedOf_elem r wa fb d :
  d ∈ deletedOf r wa fb ↔
  isExcluded (File.Path fb) (ReportConfig.Exclude (Reporter.config r)) = Ret false
  ∧ wa !! File.Path fb = None
  ∧ d = ActionData.mk (Some fb) None "" None.
Proof.
  unfold deletedOf. destruct (isExcluded _ _) as [[]|];
    [|destruct (wa !! File.Path fb)|];
    rewrite ?list_elem_of_singleton, ?elem_of_nil;
    (split; [intros H|intros (H1 & H2 & H3)]); try done.
Qed.

Lemma addedOf_elem r wb fa d :
  d ∈ addedOf r wb fa ↔
  isExcluded (File.Path fa) (ReportConfig.Exclude (Reporter.config r)) = Ret false
  ∧ wb !! File.Path fa = None
  ∧ d = ActionData.mk None (Some fa) "" None.
Proof.
  unfold addedOf. destruct (isExcluded _ _) as [[]|];
    [|destruct (wb !! File.Path fa)|];
    rewrite ?list_elem_of_singleton, ?elem_of_nil;
    (split; [intros H|intros (H1 & H2 & H3)]); try done.
Qed.

Lemma modifiedOf_elem r wa fb d :
  d ∈ modifiedOf Quote Format r wa fb →
  isExcluded (File.Path fb) (ReportConfig.Exclude (Reporter.config r)) = Ret false
  ∧ ∃ fa, wa !! File.Path fb = Some fa
          ∧ ActionData.Before d = Some fb ∧ ActionData.After d = Some fa.
Proof.
  unfold modifiedOf. destruct (isExcluded _ _) as [[]|];
    [|destruct (wa !! File.Path fb) as [fa|];
      [destruct (diffFile _ _ _ _) as [[diff e]|]; [case_bool_decide|]|]|];
    rewrite ?list_elem_of_singleton, ?elem_of_nil; try done.
  intros ->. eauto.
Qed.

Lemma errorsOf_elem r wa fb d :
  d ∈ errorsOf Quote Format r wa fb →
  isExcluded (File.Path fb) (ReportConfig.Exclude (Reporter.config r)) = Ret false
  ∧ ∃ fa, wa !! File.Path fb = Some fa
          ∧ ActionData.Before d = Some fb ∧ ActionData.After d = Some fa.
Proof.
  unfold errorsOf. destruct (isExcluded _ _) as [[]|];
    [|destruct (wa !! File.Path fb) as [fa|];
      [destruct (diffFile _ _ _ _) as [[diff [e|]]|]|]|];
    rewrite ?list_elem_of_singleton, ?elem_of_nil; try done.
  intros ->. eauto.
Qed.

Lemma deletedOf_key r wa fb :
  beforePath <$> deletedOf r wa fb = [File.Path fb] ∨ deletedOf r wa fb = [].
Proof.
  clear rangeMap. unfold deletedOf. destruct (isExcluded _ _) as [[]|]; auto.
  destruct (wa !! File.Path fb); auto.
Qed.
Lemma addedOf_key r wb fa :
  afterPath <$> addedOf r wb fa = [File.Path fa] ∨ addedOf r wb fa = [].
Proof.
  clear rangeMap. unfold addedOf. destruct (isExcluded _ _) as [[]|]; auto.
  destruct (wb !! File.Path fa); auto.
Qed.
Lemma modifiedOf_key r wa fb :
  beforePath <$> modifiedOf Quote Format r wa fb = [File.Path fb]
  ∨ modifiedOf Quote Format r wa fb = [].
Proof.
  unfold modifiedOf. destruct (isExcluded _ _) as [[]|]; auto.
  destruct (wa !! File.Path fb); auto.
  destruct (diffFile _ _ _ _) as [[diff e]|]; auto. case_bool_decide; auto.
Qed.
Lemma errorsOf_key r wa fb :
  beforePath <$> errorsOf Quote Format r wa fb = [File.Path fb]
  ∨ errorsOf Quote Format r wa fb = [].
Proof.
  unfold errorsOf. destruct (isExcluded _ _) as [[]|]; auto.
  destruct (wa !! File.Path fb); auto.
  destruct (diffFile _ _ _ _) as [[diff [e|]]|]; auto.
Qed.

(** *** [Compare] as a whole *)

Lemma Compare_Ret r before after rep :
  Compare r before after = Ret (Some rep, None) ↔
  ∃ a wb wa,
    sanityCheck before after = None ∧ after = Some a
    ∧ indexBefore before = Ret wb ∧ indexFiles (Walk.File a) = Ret wa
    ∧ Forall (beforeOk Quote Format r wa) (rangeMap wb).*2
    ∧ Forall (afterOk r) (rangeMap wa).*2
    ∧ rep = builtReport r before a wb wa.
Proof.
  unfold_Compare. fold (indexBefore before). split.
  - destruct (sanityCheck before after) as [e|] eqn:Hsane; [done|].
    intros (wb & Hwb & (a & Ha & (wa & Hwa & (o1 & Ho1 & (o2 & Ho2 & Hrep)
           %bind_Ret)%bind_Ret)%bind_Ret)%bind_Ret)%bind_Ret.
    destruct after as [a'|]; [|done]. injection Ha as ->.
    exists a, wb, wa. repeat (split; [done|]).
    split; [eapply rangeList_before_returns; eauto|].
    split; [eapply rangeList_after_returns; eauto|].
    injection Hrep as <-.
    pose proof (rangeList_before _ _ _ _ _ Ho1) as (A1 & A2 & A3 & A4).
    pose proof (rangeList_before_counter _ _ _ _ _ Ho1) as (A5 & A6 & A7).
    pose proof (rangeList_after _ _ _ _ _ Ho2) as (B1 & B2 & B3 & B4).
    pose proof (rangeList_after_counter _ _ _ _ _ Ho2) as (B5 & B6 & B7).
    unfold sortReport, builtReport.
    rewrite B1, B2, B3, B4, B5, B6, B7, A1, A2, A3, A4, A5, A6, A7. done.
  - intros (a & wb & wa & Hsane & -> & Hwb & Hwa & Hb & Ha & ->).
    rewrite Hsane, Hwb. simpl. rewrite Hwa. simpl.
    apply (rangeList_before_returns r wa _ (Report.mk [] [] [] [] ∅ before a))
      in Hb as [o1 Ho1].
    apply (rangeList_after_returns r wb _ o1) in Ha as [o2 Ho2].
    rewrite Ho1. simpl. rewrite Ho2. simpl. do 2 f_equal.
    pose proof (rangeList_before _ _ _ _ _ Ho1) as (A1 & A2 & A3 & A4).
    pose proof (rangeList_before_counter _ _ _ _ _ Ho1) as (A5 & A6 & A7).
    pose proof (rangeList_after _ _ _ _ _ Ho2) as (B1 & B2 & B3 & B4).
    pose proof (rangeList_after_counter _ _ _ _ _ Ho2) as (B5 & B6 & B7).
    unfold sortReport, builtReport.
    rewrite B1, B2, B3, B4, B5, B6, B7, A1, A2, A3, A4, A5, A6, A7. done.
Qed.

End CompareFacts.

Section CompareOrder.
Variable Quote : string → string.
Variable Format : time.Time → string.

Lemma fairRange_values rangeMap1 rangeMap2 (m : gmap string File.t) :
  fairRange rangeMap1 → fairRange rangeMap2 →
  (rangeMap1 m).*2 ≡ₚ (rangeMap2 m).*2.
Proof. intros H1 H2. by rewrite (H1 m), (H2 m). Qed.

Lemma fairRange_map_to_list : fairRange map_to_list.
Proof. by intros m. Qed.

(** The entries of each list have pairwise different paths. *)
Lemma built_keys rangeMap r before a wb wa :
  fairRange rangeMap →
  indexBefore before = Ret wb → indexFiles (Walk.File a) = Ret wa →
  NoDup (afterPath <$> ((rangeMap wa).*2 ≫= addedOf r wb))
  ∧ NoDup (beforePath <$> ((rangeMap wb).*2 ≫= deletedOf r wa))
  ∧ NoDup (beforePath <$> ((rangeMap wb).*2 ≫= modifiedOf Quote Format r wa))
  ∧ NoDup (beforePath <$> ((rangeMap wb).*2 ≫= errorsOf Quote Format r wa)).
Proof.
  intros Hfair Hwb Hwa.
  assert (NoDup (File.Path <$> (rangeMap wb).*2)) as Hb.
  { apply range_paths; [done|]. intros p f. by apply (indexBefore_lookup before). }
  assert (NoDup (File.Path <$> (rangeMap wa).*2)) as Ha.
  { apply range_paths; [done|]. intros p f Hp.
    by eapply indexFiles_lookup in Hp as [? _]. }
  split; [|split; [|split]].
  - eapply sublist_NoDup; [exact Ha|apply bind_keys_sublist, addedOf_key].
  - eapply sublist_NoDup; [exact Hb|apply bind_keys_sublist, deletedOf_key].
  - eapply sublist_NoDup; [exact Hb|apply bind_keys_sublist, modifiedOf_key].
  - eapply sublist_NoDup; [exact Hb|apply bind_keys_sublist, errorsOf_key].
Qed.

(** The report does not depend on the order in which the maps are
    visited. *)
Lemma builtReport_order rangeMap1 rangeMap2 r before a wb wa :
  fairRange rangeMap1 → fairRange rangeMap2 →
  indexBefore before = Ret wb → indexFiles (Walk.File a) = Ret wa →
  builtReport Quote Format rangeMap1 r before a wb wa
  = builtReport Quote Format rangeMap2 r before a wb wa.
Proof.
  intros H1 H2 Hwb Hwa.
  destruct (built_keys rangeMap1 r before a wb wa H1 Hwb Hwa) as (K1 & K2 & K3 & K4).
  pose proof (fairRange_values _ _ wb H1 H2) as Pb.
  pose proof (fairRange_values _ _ wa H1 H2) as Pa.
  unfold builtReport. f_equal.
  - apply (SortFunc_unique afterPath); [done|]. by rewrite Pa.
  - apply (SortFunc_unique beforePath); [done|]. by rewrite Pb.
  - apply (SortFunc_unique beforePath); [done|]. by rewrite Pb.
  - apply (SortFunc_unique beforePath); [done|]. by rewrite Pb.
  - rewrite (tally_Permutation (_ ≫= countedBefore _ _ _ _)
               ((rangeMap2 wb).*2 ≫= countedBefore Quote Format r wa))
      by by rewrite Pb.
    apply tally_Permutation. by rewrite Pa.
Qed.

Lemma Compare_order rangeMap1 rangeMap2 r before after rep :
  fairRange rangeMap1 → fairRange rangeMap2 →
  Compare Quote Format rangeMap1 r before after = Ret (Some rep, None) →
  Compare Quote Format rangeMap2 r before after = Ret (Some rep, None).
Proof.
  intros H1 H2 (a & wb & wa & Hsane & -> & Hwb & Hwa & Hb & Ha & ->)%Compare_Ret.
  apply Compare_Ret. exists a, wb, wa. repeat (split; [done|]).
  split; [by rewrite <-(fairRange_values _ _ wb H1 H2)|].
  split; [by rewrite <-(fairRange_values _ _ wa H1 H2)|].
  by apply builtReport_order.
Qed.

(** C7: the four lists of every report [Compare] returns are in strictly
    ascending order of path, [Added] by the path of the "after" file and the
    other three by the path of the "before" file; and whatever the order
    in which the maps are visited, [Compare] returns the same report. *)
Theorem Compare_sorted rangeMap r before after rep :
  fairRange rangeMap →
  Compare Quote Format rangeMap r before after = Ret (Some rep, None) →
  ascendingBy afterPath (Report.Added rep)
  ∧ ascendingBy beforePath (Report.Deleted rep)
  ∧ ascendingBy beforePath (Report.Modified rep)
  ∧ ascendingBy beforePath (Report.Errors rep)
  ∧ ∀ rangeMap', fairRange rangeMap' →
      Compare Quote Format rangeMap' r before after = Ret (Some rep, None).
Proof.
  intros Hfair Hrep.
  assert (∀ rangeMap', fairRange rangeMap' →
            Compare Quote Format rangeMap' r before after = Ret (Some rep, None))
    as Hdet
    by (intros rm Hrm; exact (Compare_order rangeMap rm _ _ _ _ Hfair Hrm Hrep)).
  apply Compare_Ret in Hrep
    as (a & wb & wa & Hsane & -> & Hwb & Hwa & Hb & Ha & ->).
  destruct (built_keys rangeMap r before a wb wa Hfair Hwb Hwa)
    as (K1 & K2 & K3 & K4).
  unfold builtReport. simpl.
  repeat split; [by apply (SortFunc_ascending _ _)..|done].
Qed.

End CompareOrder.

Section CompareTheorems.
Variable Quote : string → string.
Variable Format : time.Time → string.
Variable rangeMap : gmap string File.t → list (string * File.t).

Local Abbreviation Compare := (Compare Quote Format rangeMap).

(** *** The sanity check decides failure *)

Lemma sanityCheck_Some before after :
  is_Some (sanityCheck before after)
  ↔ after = None
    ∨ ∃ b a, before = Some b ∧ after = Some a
        ∧ (Walk.Id b = Walk.Id a
           ∨ Walk.Version b ≠ Walk.Version a
           ∨ Walk.Hostname b ≠ Walk.Hostname a
           ∨ time.After (AsTime (Walk.StopWalk b)) (AsTime (Walk.StartWalk a))
             = true).
Proof.
  unfold sanityCheck. destruct after as [a|]; [|split; [by left|eauto]].
  destruct before as [b|].
  2:{ split; [by intros [? ?]|]. by intros [?|(? & ? & ? & _)]. }
  split.
  - intros Herr. right. exists b, a. split; [done|]. split; [done|].
    repeat case_bool_decide; simpl in *; auto.
    destruct (time.After _ _); auto. by destruct Herr.
  - intros [?|(b' & a' & [= <-] & [= <-] & Hc)]; [done|].
    repeat case_bool_decide; simpl; eauto.
    destruct Hc as [?|[?|[?|Hafter]]]; try done. rewrite Hafter. eauto.
Qed.

Lemma Compare_error r before after rep err :
  Compare r before after = Ret (rep, Some err)
  ↔ rep = None ∧ sanityCheck before after = Some err.
Proof.
  unfold_Compare. destruct (sanityCheck before after) as [e|].
  { split; [by intros [= <- <-]|by intros [-> [= <-]]]. }
  split; [|by intros [_ ?]].
  intros (wb & Hwb & (a & Ha & (wa & Hwa & (o1 & Ho1 & (o2 & Ho2 & Hrep)
         %bind_Ret)%bind_Ret)%bind_Ret)%bind_Ret)%bind_Ret.
  done.
Qed.

Lemma Compare_no_error r before after rep :
  Compare r before after = Ret (rep, None) →
  is_Some rep ∧ sanityCheck before after = None.
Proof.
  unfold_Compare. destruct (sanityCheck before after) as [e|]; [done|].
  intros (wb & Hwb & (a & Ha & (wa & Hwa & (o1 & Ho1 & (o2 & Ho2 & Hrep)
         %bind_Ret)%bind_Ret)%bind_Ret)%bind_Ret)%bind_Ret.
  injection Hrep as <-. eauto.
Qed.

(** *** Which entries a path gets *)

Lemma filter_unique {A} (key : A → string) (P : A → Prop)
    `{!∀ x, Decision (P x)} l d :
  NoDup (key <$> l) → d ∈ l → (∀ x, x ∈ l → (P x ↔ key x = key d)) →
  filter P l = [d].
Proof.
  induction l as [|x l IH]; simpl; [by intros _ ?%not_elem_of_nil|].
  intros [Hx Hl]%NoDup_cons Hd HP.
  assert (∀ y, y ∈ l → key y ≠ key x) as Hfresh.
  { intros y Hy E. apply Hx. rewrite <-E. by apply list_elem_of_fmap_2. }
  apply elem_of_cons in Hd as [->|Hd].
  - rewrite filter_cons_True by (apply HP; [left|done]). f_equal.
    apply filter_none, Forall_forall. intros y Hy HPy.
    apply HP in HPy; [|by right]. by eapply Hfresh.
  - rewrite filter_cons_False.
    + apply IH; [done..|]. intros y Hy. apply HP. by right.
    + intros HPx. apply HP in HPx; [|left]. by eapply Hfresh.
Qed.

Lemma elem_of_SortFunc_bind {A} (less : ActionData.t → ActionData.t → bool)
    (f : A → list ActionData.t) l d :
  d ∈ SortFunc less (l ≫= f) ↔ ∃ x, x ∈ l ∧ d ∈ f x.
Proof.
  rewrite SortFunc_Permutation, list_elem_of_bind.
  split; intros (x & ? & ?); eauto.
Qed.

Section Entries.
Context (r : Reporter.t) (before : option Walk.t) (a : Walk.t).
Context (wb wa : gmap string File.t).
Context (Hfair : fairRange rangeMap).
Context (Hwb : indexBefore before = Ret wb).
Context (Hwa : indexFiles (Walk.File a) = Ret wa).

Local Abbreviation rep := (builtReport Quote Format rangeMap r before a wb wa).
Local Abbreviation exclude := (ReportConfig.Exclude (Reporter.config r)).

Lemma visited_before fb :
  fb ∈ (rangeMap wb).*2 ↔ wb !! File.Path fb = Some fb.
Proof.
  rewrite range_values by done. split; [|eauto].
  intros [p Hp]. by rewrite (indexBefore_lookup _ _ _ _ Hwb Hp).
Qed.
Lemma visited_after fa :
  fa ∈ (rangeMap wa).*2 ↔ wa !! File.Path fa = Some fa.
Proof.
  rewrite range_values by done. split; [|eauto].
  intros [p Hp]. by destruct (indexFiles_lookup _ _ _ _ Hwa Hp) as [-> _].
Qed.

Lemma Added_elem d :
  d ∈ Report.Added rep ↔
  ∃ fa, wa !! File.Path fa = Some fa ∧ isExcluded (File.Path fa) exclude = Ret false
        ∧ wb !! File.Path fa = None ∧ d = ActionData.mk None (Some fa) "" None.
Proof.
  simpl. rewrite elem_of_SortFunc_bind. split.
  - intros (fa & Hfa & Hd). apply visited_after in Hfa.
    apply addedOf_elem in Hd as (? & ? & ?). exists fa. auto.
  - intros (fa & Hfa & Hd). exists fa. split; [by apply visited_after|].
    by apply addedOf_elem.
Qed.

Lemma Deleted_elem d :
  d ∈ Report.Deleted rep ↔
  ∃ fb, wb !! File.Path fb = Some fb ∧ isExcluded (File.Path fb) exclude = Ret false
        ∧ wa !! File.Path fb = None ∧ d = ActionData.mk (Some fb) None "" None.
Proof.
  simpl. rewrite elem_of_SortFunc_bind. split.
  - intros (fb & Hfb & Hd). apply visited_before in Hfb.
    apply deletedOf_elem in Hd as (? & ? & ?). exists fb. auto.
  - intros (fb & Hfb & Hd). exists fb. split; [by apply visited_before|].
    by apply deletedOf_elem.
Qed.

Lemma changed_elem d :
  d ∈ Report.Modified rep ++ Report.Errors rep →
  ∃ fb fa, wb !! File.Path fb = Some fb
           ∧ isExcluded (File.Path fb) exclude = Ret false
           ∧ wa !! File.Path fb = Some fa ∧ File.Path fa = File.Path fb
           ∧ ActionData.Before d = Some fb ∧ ActionData.After d = Some fa.
Proof.
  simpl. rewrite elem_of_app, !elem_of_SortFunc_bind.
  intros [(fb & Hfb & Hd)|(fb & Hfb & Hd)]; apply visited_before in Hfb;
    [apply modifiedOf_elem in Hd|apply errorsOf_elem in Hd];
    destruct Hd as (Hex & fa & Hfa & ? & ?); exists fb, fa;
    destruct (indexFiles_lookup _ _ _ _ Hwa Hfa) as [Hp _];
    rewrite Hp; auto 10.
Qed.

(** Every entry about a path comes from a file with that path which the
    exclude list lets through. *)
Lemma mentions_not_excluded p d :
  d ∈ Report.Added rep ++ Report.Deleted rep
        ++ Report.Modified rep ++ Report.Errors rep →
  mentions p d → isExcluded p exclude = Ret false.
Proof.
  rewrite !elem_of_app, <-(elem_of_app (Report.Modified _)).
  intros [(fa & _ & Hex & _ & ->)%Added_elem
         |[(fb & _ & Hex & _ & ->)%Deleted_elem
          |(fb & fa & _ & Hex & _ & Hpath & Hb & Ha)%changed_elem]];
    unfold mentions, beforePath, afterPath; simpl.
  - intros [[_ [? ?]]|[<- _]]; done.
  - intros [[<- _]|[_ [? ?]]]; done.
  - rewrite Hb, Ha. simpl. rewrite Hpath. by intros [[<- _]|[<- _]].
Qed.

Lemma Deleted_only p fb :
  wb !! p = Some fb → wa !! p = None → isExcluded p exclude = Ret false →
  File.Path fb = p
  ∧ filter (mentions p) (Report.Deleted rep)
    = [ActionData.mk (Some fb) None "" None]
  ∧ filter (mentions p)
      (Report.Added rep ++ Report.Modified rep ++ Report.Errors rep) = [].
Proof.
  intros Hb Ha Hex.
  pose proof (indexBefore_lookup _ _ _ _ Hwb Hb) as Hpath.
  destruct (built_keys Quote Format rangeMap r before a wb wa Hfair Hwb Hwa)
    as (_ & K & _ & _).
  split; [done|]. split.
  - apply (filter_unique beforePath).
    + simpl. unfold SortFunc, lessBeforePath.
      by rewrite merge_sort_Permutation.
    + apply Deleted_elem. exists fb. by rewrite Hpath.
    + intros x (fb' & _ & _ & _ & ->)%Deleted_elem.
      unfold mentions, beforePath, afterPath. simpl. rewrite Hpath.
      split; [by intros [[? _]|[_ [? ?]]]|]. intros ->. left. eauto.
  - apply filter_none, Forall_forall. intros d Hd Hm.
    apply elem_of_app in Hd
      as [(fa & Hfa & _ & _ & ->)%Added_elem
         |(fb' & fa & _ & _ & Hfa & Hp & Hbd & Had)%changed_elem].
    + destruct Hm as [[_ [? ?]]|[Hp _]]; [done|].
      unfold afterPath in Hp. simpl in Hp. congruence.
    + unfold mentions, beforePath, afterPath in Hm. rewrite Hbd, Had in Hm.
      simpl in Hm. rewrite Hp in Hm. destruct Hm as [[E _]|[E _]]; congruence.
Qed.

Lemma Added_only p fa :
  wa !! p = Some fa → wb !! p = None → isExcluded p exclude = Ret false →
  File.Path fa = p
  ∧ filter (mentions p) (Report.Added rep)
    = [ActionData.mk None (Some fa) "" None]
  ∧ filter (mentions p)
      (Report.Deleted rep ++ Report.Modified rep ++ Report.Errors rep) = [].
Proof.
  intros Ha Hb Hex.
  destruct (indexFiles_lookup _ _ _ _ Hwa Ha) as [Hpath _].
  destruct (built_keys Quote Format rangeMap r before a wb wa Hfair Hwb Hwa)
    as (K & _ & _ & _).
  split; [done|]. split.
  - apply (filter_unique afterPath).
    + simpl. unfold SortFunc, lessAfterPath.
      by rewrite merge_sort_Permutation.
    + apply Added_elem. exists fa. by rewrite Hpath.
    + intros x (fa' & _ & _ & _ & ->)%Added_elem.
      unfold mentions, beforePath, afterPath. simpl. rewrite Hpath.
      split; [by intros [[_ [? ?]]|[? _]]|]. intros ->. right. eauto.
  - apply filter_none, Forall_forall. intros d Hd Hm.
    apply elem_of_app in Hd
      as [(fb & Hfb & _ & _ & ->)%Deleted_elem
         |(fb & fa' & Hfb & _ & _ & Hp & Hbd & Had)%changed_elem].
    + destruct Hm as [[Hp _]|[_ [? ?]]]; [|done].
      unfold beforePath in Hp. simpl in Hp. congruence.
    + unfold mentions, beforePath, afterPath in Hm. rewrite Hbd, Had in Hm.
      simpl in Hm. rewrite Hp in Hm. destruct Hm as [[E _]|[E _]]; congruence.
Qed.

End Entries.

(** *** When the comparison runs to its end *)

Lemma diffFile_returns fb fa :
  is_Some (File.Info fb) → is_Some (File.Info fa) →
  (is_Some (File.Stat fb) ↔ is_Some (File.Stat fa)) →
  ∃ res, diffFile Quote Format fb fa = Ret res.
Proof.
  intros Hib Hia Hs. unfold diffFile.
  destruct (decide (File.Version fb = File.Version fa)) as [Hv|Hv];
    [destruct (decide (File.Path fb = File.Path fa)) as [Hp|Hp]|].
  - destruct (diffFileLines_returns Quote Format fb fa) as [lines ->];
      [done|done|by split|done|]. simpl. eauto.
  - unfold diffFileLines. rewrite (bool_decide_eq_true_2 _ Hv).
    rewrite (bool_decide_eq_false_2 _ Hp). simpl. eauto.
  - unfold diffFileLines. rewrite (bool_decide_eq_false_2 _ Hv). simpl. eauto.
Qed.

Lemma files_of_index files m p f' :
  indexFiles files = Ret m → m !! p = Some f' →
  ∃ f, f ∈ files ∧ File.Info f' = File.Info f ∧ File.Stat f' = File.Stat f.
Proof.
  intros Hm Hp. destruct (indexFiles_lookup _ _ _ _ Hm Hp) as (_ & f & ? & _ & ->).
  by exists f.
Qed.

Lemma Compare_returns r (b a : Walk.t) :
  fairRange rangeMap →
  sanityCheck (Some b) (Some a) = None →
  Forall nonEmpty (ReportConfig.Exclude (Reporter.config r)) →
  Forall (λ f, is_Some (File.Info f)) (Walk.File b ++ Walk.File a) →
  (∀ fb fa, fb ∈ Walk.File b → fa ∈ Walk.File a →
     (is_Some (File.Stat fb) ↔ is_Some (File.Stat fa))) →
  ∃ rep, Compare r (Some b) (Some a) = Ret (Some rep, None).
Proof.
  intros Hfair Hsane Hex [Hib Hia]%Forall_app Hstat.
  destruct (indexFiles_returns _ Hib) as [wb Hwb].
  destruct (indexFiles_returns _ Hia) as [wa Hwa].
  eexists. apply Compare_Ret. exists a, wb, wa.
  do 4 (split; [done|]). split; [|split; [|done]].
  - apply Forall_forall. intros fb [p Hfb]%range_values; [|done].
    unfold beforeOk.
    destruct (isExcluded_returns (File.Path fb) _ Hex) as [[] ->]; [done|].
    destruct (wa !! File.Path fb) as [fa|] eqn:Hfa; [|done].
    destruct (files_of_index _ _ _ _ Hwb Hfb) as (f & Hf & Ef1 & Ef2).
    destruct (files_of_index _ _ _ _ Hwa Hfa) as (g & Hg & Eg1 & Eg2).
    apply diffFile_returns.
    + rewrite Ef1. by eapply Forall_forall in Hib.
    + rewrite Eg1. by eapply Forall_forall in Hia.
    + rewrite Ef2, Eg2. by apply Hstat.
  - apply Forall_forall. intros fa _. by apply isExcluded_returns.
Qed.

Lemma Compare_entries r before after rep p :
  fairRange rangeMap →
  Compare r before after = Ret (Some rep, None) →
  (present before p → ¬ excludedIn r p → ¬ present after p →
     ∃ fb, File.Path fb = p
       ∧ filter (mentions p) (Report.Deleted rep)
         = [ActionData.mk (Some fb) None "" None]
       ∧ filter (mentions p)
           (Report.Added rep ++ Report.Modified rep ++ Report.Errors rep) = [])
  ∧ (present after p → ¬ excludedIn r p → ¬ present before p →
     ∃ fa, File.Path fa = p
       ∧ filter (mentions p) (Report.Added rep)
         = [ActionData.mk None (Some fa) "" None]
       ∧ filter (mentions p)
           (Report.Deleted rep ++ Report.Modified rep ++ Report.Errors rep) = [])
  ∧ (excludedIn r p →
     filter (mentions p)
       (Report.Added rep ++ Report.Deleted rep
          ++ Report.Modified rep ++ Report.Errors rep) = []).
Proof.
  intros Hfair (a & wb & wa & _ & -> & Hwb & Hwa & Hb & Ha & ->)%Compare_Ret.
  assert (∀ q, present (Some a) q ↔ is_Some (wa !! q)) as Hafter.
  { intros q. rewrite (indexFiles_present _ _ _ Hwa). unfold present. split.
    - by intros (w' & f & [= <-] & ? & ?); eauto.
    - intros (f & ? & ?). eauto. }
  split; [|split].
  - intros [fb Hfb]%(indexBefore_present _ _ _ Hwb) Hex Hna.
    rewrite Hafter, <-eq_None_not_Some in Hna.
    pose proof (indexBefore_lookup _ _ _ _ Hwb Hfb) as Hp.
    exists fb. eapply Deleted_only; try done.
    assert (fb ∈ (rangeMap wb).*2) as Hin by (apply range_values; eauto).
    eapply Forall_forall in Hb; [|done]. unfold beforeOk in Hb.
    rewrite Hp in Hb. unfold excludedIn in Hex.
    by destruct (isExcluded p _) as [[]|].
  - intros [fa Hfa]%Hafter Hex Hnb.
    rewrite <-(indexBefore_present _ _ _ Hwb), <-eq_None_not_Some in Hnb.
    destruct (indexFiles_lookup _ _ _ _ Hwa Hfa) as [Hp _].
    exists fa. eapply Added_only; try done.
    assert (fa ∈ (rangeMap wa).*2) as Hin by (apply range_values; eauto).
    eapply Forall_forall in Ha; [|done]. destruct Ha as [c Hc].
    rewrite Hp in Hc. unfold excludedIn in Hex. rewrite Hc in Hex |- *.
    by destruct c.
  - intros Hex. apply filter_none, Forall_forall. intros d Hd Hm.
    eapply mentions_not_excluded in Hm; [|done..].
    unfold excludedIn in Hex. congruence.
Qed.

Lemma Compare_example :
  fairRange rangeMap →
  ∃ rep, Compare exampleReporter (Some exampleWalkA) (Some exampleWalkB)
         = Ret (Some rep, None)
    ∧ Report.Modified rep
      = [ActionData.mk (Some exampleFileA1) (Some exampleFileA2)
           "fingerprint: H1 => H2" None]
    ∧ Report.Deleted rep = [ActionData.mk (Some exampleDirB) None "" None]
    ∧ Report.Added rep = [ActionData.mk None (Some exampleFileC) "" None]
    ∧ Report.Errors rep = [].
Proof.
  intros Hfair. eexists. split.
  - eapply (Compare_order Quote Format map_to_list rangeMap);
      [apply fairRange_map_to_list|done|]. vm_compute. reflexivity.
  - done.
Qed.

(** C1: whenever [Compare] returns a report, every path present (after
    normalization) in "before", not excluded and absent from "after" has
    exactly one entry in the report, in Deleted; every path present only in
    "after" and not excluded has exactly one entry, in Added; an excluded
    path has no entry in any list.  [Compare] does return a report for
    inventories the sanity check accepts when every exclude prefix is
    non-empty, every file has its Info block and Stat blocks are present
    on both sides or on neither.  For A = {/a (H1), /b/ (dir)} and
    B = {/a (H2), /c} it returns Modified = [/a] with the diff
    "fingerprint: H1 => H2", Deleted = [/b/], Added = [/c]. *)
Theorem Compare_classification :
  fairRange rangeMap →
  (∀ r before after rep p,
     Compare r before after = Ret (Some rep, None) →
     (present before p → ¬ excludedIn r p → ¬ present after p →
        ∃ fb, File.Path fb = p
          ∧ filter (mentions p) (Report.Deleted rep)
            = [ActionData.mk (Some fb) None "" None]
          ∧ filter (mentions p)
              (Report.Added rep ++ Report.Modified rep ++ Report.Errors rep) = [])
     ∧ (present after p → ¬ excludedIn r p → ¬ present before p →
        ∃ fa, File.Path fa = p
          ∧ filter (mentions p) (Report.Added rep)
            = [ActionData.mk None (Some fa) "" None]
          ∧ filter (mentions p)
              (Report.Deleted rep ++ Report.Modified rep ++ Report.Errors rep) = [])
     ∧ (excludedIn r p →
        filter (mentions p)
          (Report.Added rep ++ Report.Deleted rep
             ++ Report.Modified rep ++ Report.Errors rep) = []))
  ∧ (∀ r b a,
       sanityCheck (Some b) (Some a) = None →
       Forall nonEmpty (ReportConfig.Exclude (Reporter.config r)) →
       Forall (λ f, is_Some (File.Info f)) (Walk.File b ++ Walk.File a) →
       (∀ fb fa, fb ∈ Walk.File b → fa ∈ Walk.File a →
          (is_Some (File.Stat fb) ↔ is_Some (File.Stat fa))) →
       ∃ rep, Compare r (Some b) (Some a) = Ret (Some rep, None))
  ∧ (∃ rep, Compare exampleReporter (Some exampleWalkA) (Some exampleWalkB)
            = Ret (Some rep, None)
       ∧ Report.Modified rep
         = [ActionData.mk (Some exampleFileA1) (Some exampleFileA2)
              "fingerprint: H1 => H2" None]
       ∧ Report.Deleted rep = [ActionData.mk (Some exampleDirB) None "" None]
       ∧ Report.Added rep = [ActionData.mk None (Some exampleFileC) "" None]
       ∧ Report.Errors rep = []).
Proof.
  intros Hfair. split; [|split].
  - intros r before after rep p Hrep. by apply Compare_entries.
  - intros r b a. by apply Compare_returns.
  - by apply Compare_example.
Qed.

End CompareTheorems.

Lemma present_exampleWalkA_b : present (Some exampleWalkA) "/b/".
Proof.
  exists exampleWalkA, exampleDirB. split; [done|]. split; [|done].
  simpl. by right; left.
Qed.

Lemma absent_after_b (w : Walk.t) :
  Forall (λ f, normalizedPath f ≠ Ret "/b/") (Walk.File w) →
  ¬ present (Some w) "/b/".
Proof.
  intros Hall (w' & f & [= <-] & Hf & Hn).
  eapply Forall_forall in Hall; [|done]. done.
Qed.

(** C1, as stated, fails: the sanity check accepts the two inventories,
    [/b/] is present before, not excluded and absent after, but the stat
    block of [/a] is present only after, and [Compare] panics on the nil
    one instead of returning a report; so it does with an empty exclude
    prefix. *)
Lemma Compare_accepted_panics :
  (sanityCheck (Some exampleWalkA) (Some exampleWalkBStat) = None
   ∧ present (Some exampleWalkA) "/b/"
   ∧ ¬ excludedIn exampleReporter "/b/"
   ∧ ¬ present (Some exampleWalkBStat) "/b/")
  ∧ Compare plainQuote secondsFormat map_to_list exampleReporter
      (Some exampleWalkA) (Some exampleWalkBStat) = Panic NilDereference
  ∧ ¬ (∃ rep fb,
         Compare plainQuote secondsFormat map_to_list exampleReporter
           (Some exampleWalkA) (Some exampleWalkBStat) = Ret (Some rep, None)
         ∧ filter (mentions "/b/") (Report.Deleted rep)
           = [ActionData.mk (Some fb) None "" None])
  ∧ sanityCheck (Some exampleWalkA) (Some exampleWalkB) = None
  ∧ Compare plainQuote secondsFormat map_to_list exampleReporterEmptyPrefix
      (Some exampleWalkA) (Some exampleWalkB) = Panic IndexOutOfRange.
Proof.
  assert (Compare plainQuote secondsFormat map_to_list exampleReporter
            (Some exampleWalkA) (Some exampleWalkBStat) = Panic NilDereference)
    as Hpanic by (vm_compute; reflexivity).
  split; [|split; [done|split]].
  - split; [by vm_compute|]. split; [apply present_exampleWalkA_b|].
    split; [by vm_compute|].
    apply absent_after_b. repeat constructor; by vm_compute.
  - intros (rep & fb & Hrep & _). by rewrite Hpanic in Hrep.
  - split; [by vm_compute|]. vm_compute. reflexivity.
Qed.

(** In the report on the inventories A and B, [/b/] has its one entry in
    Deleted. *)
Lemma Compare_classification_witness :
  ∃ rep,
    Compare plainQuote secondsFormat map_to_list exampleReporter
      (Some exampleWalkA) (Some exampleWalkB) = Ret (Some rep, None)
    ∧ ∃ fb, File.Path fb = "/b/"
        ∧ filter (mentions "/b/") (Report.Deleted rep)
          = [ActionData.mk (Some fb) None "" None]
        ∧ filter (mentions "/b/")
            (Report.Added rep ++ Report.Modified rep ++ Report.Errors rep) = [].
Proof.
  destruct (Compare_classification plainQuote secondsFormat map_to_list
              (fairRange_map_to_list)) as (Hclass & _ & rep & Hrep & _).
  exists rep. split; [exact Hrep|].
  destruct (Hclass exampleReporter (Some exampleWalkA) (Some exampleWalkB)
              rep "/b/" Hrep) as (Hdel & _).
  apply Hdel.
  - apply present_exampleWalkA_b.
  - by vm_compute.
  - apply absent_after_b. repeat constructor; by vm_compute.
Defined.

(** * [ReadLastGoodWalk] *)

Ltac unfold_ReadLastGoodWalk := unfold ReadLastGoodWalk.

Section ReviewFacts.
Variable Sum256 : string → string.
Variable UnmarshalWalk : string → option Walk.t.
Variable UnmarshalReviews : string → option Reviews.t.
Variable disk : gmap string string.

Local Abbreviation fingerprint := (fingerprint Sum256).
Local Abbreviation ReadLastGoodWalk :=
  (ReadLastGoodWalk Sum256 UnmarshalWalk UnmarshalReviews disk).

Lemma verifyFingerprint_None good check :
  verifyFingerprint (Some good) (Some check) = Ret None → check = good.
Proof.
  unfold verifyFingerprint. simpl. repeat case_bool_decide; simpl; try done.
  intros _. destruct check, good; simpl in *; congruence.
Qed.

Lemma verifyFingerprint_returns good check :
  ∃ verr, verifyFingerprint (Some good) (Some check) = Ret verr.
Proof.
  unfold verifyFingerprint. simpl. repeat case_bool_decide; simpl; eauto.
Qed.

Lemma verifyFingerprint_value good check :
  Fingerprint.Method check = Fingerprint.Method good →
  Fingerprint.Method good ≠ Fingerprint_UNKNOWN →
  Fingerprint.Value good ≠ "" →
  Fingerprint.Value check ≠ Fingerprint.Value good →
  verifyFingerprint (Some good) (Some check)
  = Ret (Some (ErrFingerprintValue (Fingerprint.Value check) (Fingerprint.Value good))).
Proof.
  intros Hm Hu He Hv. unfold verifyFingerprint. simpl.
  rewrite (bool_decide_eq_true_2 _ Hm), (bool_decide_eq_false_2 _ Hu),
    (bool_decide_eq_false_2 _ He), (bool_decide_eq_false_2 _ Hv). done.
Qed.

(** What [ReadLastGoodWalk] does once the review file is read and has an
    entry with a pinned fingerprint for the host. *)
Lemma ReadLastGoodWalk_entry hostname reviewFile rb reviews rv F :
  disk !! reviewFile = Some rb → UnmarshalReviews rb = Some reviews →
  Reviews.Review reviews !! hostname = Some rv →
  Review.Fingerprint rv = Some F →
  ReadLastGoodWalk hostname reviewFile
  = match ReadWalk Sum256 UnmarshalWalk disk (Review.WalkReference rv) with
    | (wf, Some err) => Ret (wf, Some err)
    | (wf, None) =>
        wf' ← deref wf;
        verr ← verifyFingerprint (Some F) (Some (WalkFile.Fingerprint wf'));
        match verr with
        | Some err => Ret (wf, Some err)
        | None =>
            if negb (bool_decide (Walk.Id (WalkFile.Walk wf') = Review.WalkID rv))
            then Ret (wf, Some (ErrWalkID (Walk.Id (WalkFile.Walk wf'))
                                  (Review.WalkReference rv)
                                  (Review.WalkID rv) reviewFile))
            else Ret (wf, None)
        end
    end.
Proof.
  intros Hrb Hrev Hrv HF. unfold_ReadLastGoodWalk. unfold readTextProto.
  by rewrite Hrb, Hrev, Hrv, HF.
Qed.

(** C3: with the review file read and parsed, [ReadLastGoodWalk] returns
    no walk and no error when there is no entry for the host.  With an
    entry that pins a fingerprint, it returns an error whenever the
    fingerprint of the bytes of the referenced file is not the pinned one,
    and whenever the identifier of the loaded walk is not the pinned one;
    bytes with another digest than the pinned (non-empty) SHA-256 digest
    give the fingerprint-mismatch error; and a walk is returned without an
    error only if fingerprint and identifier are the pinned ones.  With an
    entry that pins no fingerprint, it returns the error of [ReadWalk]
    when the referenced file cannot be read or decoded, and panics on the
    nil fingerprint once the walk is loaded, whatever its identifier. *)
Theorem ReadLastGoodWalk_rejects hostname reviewFile rb reviews :
  disk !! reviewFile = Some rb → UnmarshalReviews rb = Some reviews →
  (Reviews.Review reviews !! hostname = None →
     ReadLastGoodWalk hostname reviewFile = Ret (None, None))
  ∧ (∀ rv F b,
       Reviews.Review reviews !! hostname = Some rv →
       Review.Fingerprint rv = Some F →
       disk !! Review.WalkReference rv = Some b →
       (fingerprint b ≠ F →
          ∃ wf err, ReadLastGoodWalk hostname reviewFile = Ret (wf, Some err))
       ∧ (∀ w, UnmarshalWalk b = Some w → Walk.Id w ≠ Review.WalkID rv →
            ∃ wf err, ReadLastGoodWalk hostname reviewFile = Ret (wf, Some err))
       ∧ (∀ w value,
            UnmarshalWalk b = Some w →
            F = Fingerprint.mk Fingerprint_SHA256 value →
            value ≠ "" → Sum256 b ≠ value →
            ReadLastGoodWalk hostname reviewFile
            = Ret (Some (WalkFile.mk (Review.WalkReference rv) w (fingerprint b)),
                   Some (ErrFingerprintValue (Sum256 b) value)))
       ∧ (∀ wf, ReadLastGoodWalk hostname reviewFile = Ret (wf, None) →
            ∃ w, UnmarshalWalk b = Some w
              ∧ wf = Some (WalkFile.mk (Review.WalkReference rv) w (fingerprint b))
              ∧ fingerprint b = F ∧ Walk.Id w = Review.WalkID rv))
  ∧ (∀ rv,
       Reviews.Review reviews !! hostname = Some rv →
       Review.Fingerprint rv = None →
       (∀ err, (ReadWalk Sum256 UnmarshalWalk disk (Review.WalkReference rv)).2
               = Some err →
          ∃ wf, ReadLastGoodWalk hostname reviewFile = Ret (wf, Some err))
       ∧ (∀ b w, disk !! Review.WalkReference rv = Some b →
            UnmarshalWalk b = Some w →
            ReadLastGoodWalk hostname reviewFile = Panic NilDereference)).
Proof.
  intros Hrb Hrev. split.
  { intros Hnone. unfold_ReadLastGoodWalk. unfold readTextProto.
    by rewrite Hrb, Hrev, Hnone. }
  split.
  2:{ intros rv Hrv HF. unfold_ReadLastGoodWalk. unfold readTextProto.
      rewrite Hrb, Hrev, Hrv, HF. split.
      - intros err Herr.
        destruct (ReadWalk Sum256 UnmarshalWalk disk (Review.WalkReference rv))
          as [wf [e|]]; simpl in Herr; [|done].
        injection Herr as ->. eauto.
      - intros b w Hb Hw. unfold ReadWalk. by rewrite Hb, Hw. }
  intros rv F b Hrv HF Hb.
  rewrite (ReadLastGoodWalk_entry _ _ _ _ _ _ Hrb Hrev Hrv HF).
  unfold ReadWalk. rewrite Hb.
  destruct (UnmarshalWalk b) as [w|] eqn:Hw; simpl.
  2:{ split; [eauto|]. split; [done|]. split; [done|]. done. }
  destruct (verifyFingerprint (Some F) (Some (fingerprint b))) as [[e|]|] eqn:Hv;
    simpl.
  - split; [eauto|]. split; [eauto|]. split; [|done].
    intros w' value [= <-] -> Hne Hsum.
    rewrite verifyFingerprint_value in Hv by done. by injection Hv as <-.
  - apply verifyFingerprint_None in Hv. split; [done|]. split; [|split].
    + intros w' [= <-] Hid. rewrite (bool_decide_eq_false_2 _ Hid). simpl. eauto.
    + intros w' value _ -> _ Hsum. injection Hv as Hv. done.
    + intros wf. case_bool_decide; simpl; [|done]. intros [= <-]. eauto.
  - destruct (verifyFingerprint_returns F (fingerprint b)) as [verr Hr].
    rewrite Hr in Hv. discriminate.
Qed.

End ReviewFacts.

(** The review pins the digest of the original content of [walk.pb]; the
    tampered content is refused with the fingerprint-mismatch error. *)
Lemma ReadLastGoodWalk_rejects_witness :
  ReadLastGoodWalk exampleDigest exampleDecodeWalk exampleDecodeReviews exampleDisk
    "host" "reviews.asciipb"
  = Ret (Some (WalkFile.mk "walk.pb" exampleWalkA
                 (fingerprint exampleDigest "tampered")),
         Some (ErrFingerprintValue (exampleDigest "tampered")
                                   (exampleDigest "original"))).
Proof.
  assert (exampleDisk !! "reviews.asciipb" = Some "reviews") as Hrb
    by (vm_compute; reflexivity).
  assert (exampleDecodeReviews "reviews"
          = Some (Reviews.mk {[ "host" := exampleReview ]})) as Hrev
    by (vm_compute; reflexivity).
  destruct (ReadLastGoodWalk_rejects exampleDigest exampleDecodeWalk
              exampleDecodeReviews exampleDisk "host" "reviews.asciipb"
              "reviews" (Reviews.mk {[ "host" := exampleReview ]}) Hrb Hrev)
    as (_ & H & _).
  assert (Reviews.Review (Reviews.mk {[ "host" := exampleReview ]}) !! "host"
          = Some exampleReview) as Hrv by (vm_compute; reflexivity).
  assert (exampleDisk !! Review.WalkReference exampleReview = Some "tampered")
    as Hb by (vm_compute; reflexivity).
  destruct (H exampleReview
              (Fingerprint.mk Fingerprint_SHA256 (exampleDigest "original"))
              "tampered" Hrv eq_refl Hb) as (_ & _ & Hv & _).
  apply (Hv exampleWalkA (exampleDigest "original")).
  - vm_compute; reflexivity.
  - reflexivity.
  - vm_compute; discriminate.
  - vm_compute; discriminate.
Defined.

(** C3, as stated, fails: the review file parses and has an entry for the
    host, the referenced file loads, its fingerprint is not a pinned one
    and the identifier of the walk is not the pinned one, but the entry
    pins no fingerprint and [ReadLastGoodWalk] panics on it instead of
    returning an error. *)
Lemma ReadLastGoodWalk_unpinned_panics :
  (readTextProto exampleDecodeReviewsUnpinned exampleDisk "reviews.asciipb"
   = inl (Reviews.mk {[ "host" := exampleReviewUnpinned ]})
   ∧ ReadWalk exampleDigest exampleDecodeWalk exampleDisk
       (Review.WalkReference exampleReviewUnpinned)
     = (Some (WalkFile.mk "walk.pb" exampleWalkA
                (fingerprint exampleDigest "tampered")), None)
   ∧ Review.Fingerprint exampleReviewUnpinned
     ≠ Some (fingerprint exampleDigest "tampered")
   ∧ Walk.Id exampleWalkA ≠ Review.WalkID exampleReviewUnpinned)
  ∧ ReadLastGoodWalk exampleDigest exampleDecodeWalk
      exampleDecodeReviewsUnpinned exampleDisk "host" "reviews.asciipb"
    = Panic NilDereference
  ∧ ¬ (∃ wf err,
         ReadLastGoodWalk exampleDigest exampleDecodeWalk
           exampleDecodeReviewsUnpinned exampleDisk "host" "reviews.asciipb"
         = Ret (wf, Some err)).
Proof.
  assert (ReadLastGoodWalk exampleDigest exampleDecodeWalk
            exampleDecodeReviewsUnpinned exampleDisk "host" "reviews.asciipb"
          = Panic NilDereference) as Hpanic by (vm_compute; reflexivity).
  split; [|split; [done|]].
  - split; [by vm_compute|]. split; [by vm_compute|]. split; by vm_compute.
  - intros (wf & err & H). by rewrite Hpanic in H.
Qed.

(** * Instances on the example inventories *)




Lemma fairRange_descendingRange : fairRange descendingRange.
Proof. intros m. unfold descendingRange. by rewrite reverse_Permutation. Qed.

(** Two entries in each list: visiting the maps from the last entry to
    the first, [Compare] returns the lists in ascending order of path,
    and the same report as when visiting them the other way round. *)
Lemma Compare_sorted_witness :
  ∃ rep,
    Compare plainQuote secondsFormat descendingRange exampleReporter
      (Some exampleWalkP) (Some exampleWalkQ) = Ret (Some rep, None)
    ∧ afterPath <$> Report.Added rep = ["/y"; "/z"]
    ∧ beforePath <$> Report.Deleted rep = ["/c"; "/d"]
    ∧ beforePath <$> Report.Modified rep = ["/m1"; "/m2"]
    ∧ beforePath <$> Report.Errors rep = ["/e1"; "/e2"]
    ∧ ascendingBy afterPath (Report.Added rep)
    ∧ ascendingBy beforePath (Report.Deleted rep)
    ∧ ascendingBy beforePath (Report.Modified rep)
    ∧ ascendingBy beforePath (Report.Errors rep)
    ∧ Compare plainQuote secondsFormat map_to_list exampleReporter
        (Some exampleWalkP) (Some exampleWalkQ) = Ret (Some rep, None).
Proof.
  eexists. split; [vm_compute; reflexivity|].
  do 4 (split; [vm_compute; reflexivity|]).
  destruct (Compare_sorted plainQuote secondsFormat descendingRange
              exampleReporter (Some exampleWalkP) (Some exampleWalkQ) _
              fairRange_descendingRange ltac:(vm_compute; reflexivity))
    as (H1 & H2 & H3 & H4 & H5).
  repeat (split; [assumption|]).
  apply H5, fairRange_map_to_list.
Defined.

(** * Exclude lists *)

Section PathExtras.
Import filepath.

Lemma hasPrefixBytes_refl s : hasPrefixBytes s s = true.
Proof. induction s as [|c s IH]; simpl; [done|]. by rewrite bool_decide_eq_true_2. Qed.

Lemma dirPrefix_snoc_sep path :
  dirPrefix (path ++ [Separator]) = path ++ [Separator].
Proof.
  induction path as [|c path IH]; [done|].
  change ((c :: path) ++ [Separator]) with (c :: (path ++ [Separator])).
  unfold dirPrefix; fold dirPrefix.
  replace (existsb IsPathSeparator (c :: path ++ [Separator])) with true.
  - by rewrite IH.
  - symmetry. apply existsb_exists. exists Separator. split; [|done].
    apply list_elem_of_In. set_solver.
Qed.

(** The directory of a normalized directory path other than the root is
    that path without its final separator. *)
Lemma Dir_normalized_dir d :
  Clean d ≠ "/" → Dir (Clean d +:+ "/") = Clean d.
Proof.
  intros _. unfold Dir. rewrite bytes_app.
  change (bytes "/") with [Separator]. rewrite dirPrefix_snoc_sep.
  unfold Clean. rewrite bytes_str, cleanBytes_slash. done.
Qed.

(** X1: over a concatenated exclude list [isExcluded] short-circuits: it
    is true as soon as the first list excludes the path (whatever the
    second holds), is what the second list gives when the first does not
    exclude it, and panics when the first does. *)
Theorem isExcluded_app (path : string) (xs ys : list string) :
  isExcluded path (xs ++ ys)
  = (b ← isExcluded path xs; if b : bool then Ret true else isExcluded path ys).
Proof.
  induction xs as [|e xs IH]; simpl; [done|].
  case_bool_decide; [done|].
  destruct (lastByte e) as [c|]; simpl; [|done].
  destruct (_ && _); [done|]. apply IH.
Qed.

(** X2: exclude prefixes that do not end in a separator exclude by
    equality only: the path is excluded iff it is one of them. *)
Theorem isExcluded_exact (path : string) (xs : list string) :
  Forall (λ e, nonEmpty e ∧ ¬ endsInSeparator e) xs →
  isExcluded path xs = Ret (bool_decide (path ∈ xs)).
Proof.
  induction 1 as [|e xs [He Hsep] _ IH]; cbn [isExcluded].
  { by rewrite bool_decide_eq_false_2 by apply not_elem_of_nil. }
  destruct (bool_decide_reflect (path = e)) as [Hp|Hp].
  { by rewrite bool_decide_eq_true_2 by set_solver. }
  destruct (lastByte_nonEmpty e He) as [c Hc]. rewrite Hc.
  apply lastByte_Ret in Hc. unfold mbind, exec_bind.
  rewrite (bool_decide_eq_false_2 (c = Separator)).
  2:{ intros ->. by apply Hsep. }
  rewrite andb_false_l, IH. f_equal. apply bool_decide_ext.
  rewrite elem_of_cons. split; [auto|by intros [?|?]].
Qed.

(** The prefixes of the walker's test: [/tmp/some_file2] is none of them. *)
Lemma isExcluded_exact_witness :
  isExcluded "/tmp/some_file2" ["/tmp/some_file"; "/usr/src/linux-headers"]
  = Ret (bool_decide
           ("/tmp/some_file2" ∈ ["/tmp/some_file"; "/usr/src/linux-headers"])).
Proof.
  apply isExcluded_exact.
  repeat constructor; (discriminate || (vm_compute; discriminate)).
Defined.

(** X3: for a directory other than the root, exclusion by a prefix that
    ends in a separator is the prefix test on the normalized path of the
    directory. *)
Theorem isExcluded_directory (d e p : string) :
  NormalizePath d true = Ret p → p ≠ "/" → endsInSeparator e →
  isExcluded p [e] = Ret (HasPrefix p e).
Proof.
  rewrite NormalizePath_dir. intros [= <-] Hroot Hsep.
  destruct (decide (Clean d = "/")) as [|Hd]; [done|].
  cbn [isExcluded].
  destruct (bool_decide_reflect (Clean d +:+ "/" = e)) as [Hp|Hp].
  { rewrite <-Hp. unfold HasPrefix. by rewrite hasPrefixBytes_refl. }
  assert (lastByte e = Ret Separator) as -> by by apply lastByte_Ret.
  unfold mbind, exec_bind. rewrite bool_decide_eq_true_2 by done.
  rewrite andb_true_l. change (str [Separator]) with "/".
  rewrite (Dir_normalized_dir d Hd). by destruct (HasPrefix _ _).
Qed.

(** The directory [/var/log/apt] under the exclude prefix [/var/log/]. *)
Lemma isExcluded_directory_witness :
  isExcluded "/var/log/apt/" ["/var/log/"] = Ret (HasPrefix "/var/log/apt/" "/var/log/").
Proof.
  apply (isExcluded_directory "/var/log/apt//"); by vm_compute.
Defined.

End PathExtras.

(** * [diffFile] and its timestamps *)

Section TimeFacts.

Lemma wrap64_small z : -2 ^ 63 ≤ z < 2 ^ 63 → time.wrap64 z = z.
Proof.
  intros Hz. unfold time.wrap64. rewrite Z.mod_small; lia.
Qed.

(** [time.Unix] normalizes the nanoseconds into one second and keeps the
    instant. *)
Lemma Unix_total sec nsec :
  -62135596800 ≤ sec ≤ 253402300799 → -2 ^ 31 ≤ nsec < 2 ^ 31 →
  0 ≤ time.nsec (time.Unix sec nsec) < 1000000000
  ∧ time.sec (time.Unix sec nsec) * 1000000000 + time.nsec (time.Unix sec nsec)
    = (sec + time.unixToInternal) * 1000000000 + nsec.
Proof.
  intros Hsec Hnsec. unfold time.Unix, time.unixToInternal.
  destruct (Z.ltb_spec nsec 0) as [Hneg|Hpos]; simpl.
  - pose proof (Z.quot_rem' nsec 1000000000) as Hqr.
    pose proof (Z.rem_bound_pos_neg nsec 1000000000 ltac:(lia) ltac:(lia)) as Hr.
    assert (-3 < nsec ÷ 1000000000 ≤ 0) as Hq by lia.
    rewrite (wrap64_small (sec + _)) by lia.
    destruct (Z.ltb_spec (nsec - nsec ÷ 1000000000 * 1000000000) 0); simpl.
    + rewrite (wrap64_small (sec + _ - 1)) by lia.
      rewrite wrap64_small by lia. lia.
    + rewrite wrap64_small by lia. lia.
  - destruct (Z.leb_spec 1000000000 nsec) as [Hbig|Hsmall]; simpl.
    + pose proof (Z.quot_rem' nsec 1000000000) as Hqr.
      pose proof (Z.rem_bound_pos nsec 1000000000 ltac:(lia) ltac:(lia)) as Hr.
      assert (0 ≤ nsec ÷ 1000000000 < 3) as Hq by lia.
      rewrite (wrap64_small (sec + _)) by lia.
      destruct (Z.ltb_spec (nsec - nsec ÷ 1000000000 * 1000000000) 0); simpl.
      * lia.
      * rewrite wrap64_small by lia. lia.
    + rewrite wrap64_small by lia. lia.
Qed.

Lemma AsTime_total x :
  inTimeRange x →
  0 ≤ time.nsec (AsTime x) < 1000000000
  ∧ time.sec (AsTime x) * 1000000000 + time.nsec (AsTime x)
    = totalNanos x + time.unixToInternal * 1000000000.
Proof.
  intros [Hs Hn]. unfold AsTime, totalNanos.
  destruct (Unix_total _ _ Hs Hn) as [? ->]. split; [done|lia].
Qed.

Lemma AsTime_eq x y :
  inTimeRange x → inTimeRange y →
  AsTime x = AsTime y ↔ totalNanos x = totalNanos y.
Proof.
  intros [? Hx]%AsTime_total [? Hy]%AsTime_total. split.
  - intros E. rewrite E in Hx. lia.
  - intros E. destruct (AsTime x) as [s n], (AsTime y) as [s' n'].
    simpl in *. assert (s = s') by lia. assert (n = n') by lia. congruence.
Qed.

Lemma After_total x y :
  inTimeRange x → inTimeRange y →
  time.After (AsTime x) (AsTime y) = true ↔ totalNanos y < totalNanos x.
Proof.
  intros [? Hx]%AsTime_total [? Hy]%AsTime_total. unfold time.After.
  rewrite orb_true_iff, andb_true_iff, !bool_decide_eq_true. lia.
Qed.

End TimeFacts.

Section DiffExtras.
Variable Quote : string → string.
Variable Format : time.Time → string.

(** [diffFileInfo] on two info blocks: one line per changed attribute. *)
Lemma diffFileInfo_Some b a :
  diffFileInfo Quote Format (Some b) (Some a)
  = Ret ((if bool_decide (FileInfo.Name b = FileInfo.Name a) then []
          else ["name: " +:+ Quote (FileInfo.Name b) +:+ " => "
                  +:+ Quote (FileInfo.Name a)])
         ++ (if bool_decide (FileInfo.Size b = FileInfo.Size a) then []
             else ["size: " +:+ pretty (FileInfo.Size b) +:+ " => "
                     +:+ pretty (FileInfo.Size a)])
         ++ (if bool_decide (FileInfo.Mode b = FileInfo.Mode a) then []
             else ["mode: " +:+ pretty (FileInfo.Mode b) +:+ " => "
                     +:+ pretty (FileInfo.Mode a)])
         ++ (if bool_decide (FileInfo.IsDir b = FileInfo.IsDir a) then []
             else ["is_dir: " +:+ fmt_bool (FileInfo.IsDir b) +:+ " => "
                     +:+ fmt_bool (FileInfo.IsDir a)])
         ++ (if bool_decide (AsTime (FileInfo.Modified b)
                             = AsTime (FileInfo.Modified a)) then []
             else ["mtime: " +:+ renderDelta Format (FileInfo.Modified b)
                                                   (FileInfo.Modified a)]),
         None).
Proof.
  unfold diffFileInfo. simpl.
  destruct (decide (AsTime (FileInfo.Modified b) = AsTime (FileInfo.Modified a)))
    as [Hm|Hm].
  - rewrite (bool_decide_eq_true_2 _ Hm), (timestampDiff_same _ _ _ Hm). simpl.
    destruct (_ && _); repeat case_bool_decide; simpl; by rewrite ?app_nil_r.
  - rewrite (bool_decide_eq_false_2 _ Hm), (timestampDiff_changed _ _ _ Hm).
    rewrite (bool_decide_eq_false_2 (renderDelta _ _ _ = ""))
      by apply renderDelta_nonempty.
    destruct (_ && _) eqn:Hnil.
    { apply andb_true_iff in Hnil
        as [Hb%bool_decide_eq_true Ha%bool_decide_eq_true].
      by rewrite Hb, Ha in Hm. }
    repeat case_bool_decide; simpl; by rewrite <-?app_assoc.
Qed.

Lemma Join_empty lines sep :
  Forall (λ l, l ≠ "") lines → Join lines sep = "" → lines = [].
Proof.
  destruct 1 as [|l lines Hl _]; [done|]. simpl.
  destruct lines; [done|]. intros E. by apply append_nonempty_l in E.
Qed.

Lemma Sort_nil l : Sort l = [] ↔ l = [].
Proof.
  split; [|by intros ->]. intros E. apply Permutation_nil_r.
  rewrite <-E. unfold Sort. by rewrite merge_sort_Permutation.
Qed.

Lemma Sort_nonempty l :
  Forall (λ s, s ≠ "") l → Forall (λ s, s ≠ "") (Sort l).
Proof. unfold Sort. by rewrite merge_sort_Permutation. Qed.

Lemma fingerprintDiffs_nil before after :
  fingerprintDiffs before after = [] ↔ sameFingerprint before after.
Proof.
  unfold fingerprintDiffs, sameFingerprint.
  destruct (File.Fingerprint before) as [|[mb vb] ?]; [done|].
  destruct (File.Fingerprint after) as [|[ma va] ?]; simpl; [done|].
  repeat case_bool_decide; simpl; split; try done; try congruence.
  all: intros [= ? ?]; done.
Qed.

Lemma diffFileInfo_nil fib fia diffs :
  diffFileInfo Quote Format fib fia = Ret (diffs, None) →
  diffs = [] ↔ sameInfo fib fia.
Proof.
  destruct fib as [b|], fia as [a|]; try done.
  - rewrite diffFileInfo_Some. intros [= <-]. simpl.
    repeat case_bool_decide; simpl; split; try done; try tauto.
    all: by intros (? & ? & ? & ? & ?).
  - unfold diffFileInfo. simpl. by intros [= <-].
Qed.

Lemma diffFileStat_nil fsb fsa diffs :
  diffFileStat Format fsb fsa = Ret (diffs, None) →
  diffs = [] ↔ sameStat Format fsb fsa.
Proof.
  destruct fsb as [b|], fsa as [a|]; try done.
  - rewrite diffFileStat_Some. intros [= <-]. simpl.
    destruct (decide (AsTime (FileStat.Ctime b) = AsTime (FileStat.Ctime a)))
      as [Hc|Hc];
    destruct (decide (AsTime (FileStat.Mtime b) = AsTime (FileStat.Mtime a)))
      as [Hm|Hm];
    destruct (decide (renderDelta Format (FileStat.Ctime b) (FileStat.Ctime a)
                      = renderDelta Format (FileStat.Mtime b) (FileStat.Mtime a)))
      as [Hr|Hr];
    repeat case_bool_decide; simpl; split; try done; try tauto.
    all: intros (? & ? & [?|[? ?]]); tauto.
  - unfold diffFileStat. simpl. by intros [= <-].
Qed.

Lemma lines_nonempty before after lines :
  diffFileLines Quote Format before after = Ret (lines, None) →
  Forall (λ l, l ≠ "") lines.
Proof.
  intros (fiDiffs & fsDiffs & Hfi & Hfs & ->)%diffFileLines_Ret.
  apply Sort_nonempty. rewrite !Forall_app. split; [split|].
  - eapply Forall_impl; [apply fingerprintDiffs_lines|].
    by intros l Hl ->.
  - destruct (File.Info before) as [b|], (File.Info after) as [a|]; try done.
    + rewrite diffFileInfo_Some in Hfi. injection Hfi as <-.
      rewrite !Forall_app. repeat split; case_bool_decide;
        repeat constructor; by apply append_nonempty_l.
    + unfold diffFileInfo in Hfi. simpl in Hfi. by injection Hfi as <-.
  - destruct (File.Stat before) as [b|], (File.Stat after) as [a|]; try done.
    + rewrite diffFileStat_Some in Hfs. injection Hfs as <-.
      rewrite !Forall_app. repeat split; case_bool_decide;
        repeat constructor; by apply append_nonempty_l.
    + unfold diffFileStat in Hfs. simpl in Hfs. by injection Hfs as <-.
Qed.

End DiffExtras.

Section DiffTheorems.
Variable Quote : string → string.
Variable Format : time.Time → string.

Lemma sameFingerprint_refl f : sameFingerprint f f.
Proof. unfold sameFingerprint. by destruct (File.Fingerprint f). Qed.
Lemma sameInfo_refl x : sameInfo x x.
Proof. by destruct x. Qed.
Lemma sameStat_refl x : sameStat Format x x.
Proof. destruct x; simpl; auto. Qed.

Lemma diffFile_Ret before after lines :
  diffFileLines Quote Format before after = Ret (lines, None) →
  diffFile Quote Format before after = Ret (Join lines newline, None)
  ∧ (Join lines newline = ""
     ↔ sameFingerprint before after
       ∧ sameInfo (File.Info before) (File.Info after)
       ∧ sameStat Format (File.Stat before) (File.Stat after)).
Proof.
  intros Hlines. split; [unfold diffFile; by rewrite Hlines|].
  pose proof (lines_nonempty _ _ _ _ _ Hlines) as Hne.
  apply diffFileLines_Ret in Hlines as (fiDiffs & fsDiffs & Hfi & Hfs & ->).
  rewrite <-(fingerprintDiffs_nil before after).
  rewrite <-(diffFileInfo_nil _ _ _ _ _ Hfi), <-(diffFileStat_nil _ _ _ _ Hfs).
  split.
  - intros E%Join_empty; [|done]. apply (proj1 (Sort_nil _)) in E.
    apply app_eq_nil in E as [[? ?]%app_eq_nil ?]. done.
  - intros (-> & -> & ->). done.
Qed.

(** A file has no diff with itself. *)
Lemma diffFile_same (f : File.t) :
  diffFile Quote Format f f = Ret ("", None).
Proof.
  destruct (diffFileLines_returns Quote Format f f) as [lines Hlines]; [done..|].
  destruct (diffFile_Ret _ _ _ Hlines) as [-> Hempty]. f_equal. f_equal.
  apply Hempty. split; [apply sameFingerprint_refl|].
  split; [apply sameInfo_refl|apply sameStat_refl].
Qed.

(** X4: a file has no diff with itself: [diffFile(f, f)] returns the
    empty diff and no error, whatever blocks [f] has or lacks. *)
Theorem diffFile_refl (f : File.t) :
  diffFile Quote Format f f = Ret ("", None).
Proof. apply diffFile_same. Qed.

(** X5: [diffFile] panics, on a nil dereference, exactly when the two
    files have the same version and path and the info block or the stat
    block is present on one side only; otherwise it returns. *)
Theorem diffFile_panics_iff (before after : File.t) :
  let oneSided :=
    File.Version before = File.Version after
    ∧ File.Path before = File.Path after
    ∧ ¬ ((is_Some (File.Info before) ↔ is_Some (File.Info after))
         ∧ (is_Some (File.Stat before) ↔ is_Some (File.Stat after))) in
  (oneSided → diffFile Quote Format before after = Panic NilDereference)
  ∧ (¬ oneSided → ∃ diff err, diffFile Quote Format before after = Ret (diff, err)).
Proof.
  intros oneSided. split.
  - intros (Hv & Hp & Hone). unfold diffFile, diffFileLines.
    rewrite (bool_decide_eq_true_2 _ Hv), (bool_decide_eq_true_2 _ Hp). simpl.
    revert Hone.
    destruct (File.Info before) as [b|], (File.Info after) as [a|],
      (File.Stat before) as [sb|], (File.Stat after) as [sa|];
      intros Hone; rewrite ?diffFileInfo_Some; try reflexivity;
      exfalso; apply Hone; split; split; intros [? ?]; eauto; done.
  - intros Hnot. unfold diffFile.
    destruct (decide (File.Version before = File.Version after)) as [Hv|Hv];
      [destruct (decide (File.Path before = File.Path after)) as [Hp|Hp]|].
    + destruct (diffFileLines_returns Quote Format before after)
        as [lines ->]; [done|done| | |by simpl; eauto].
      * destruct (decide (is_Some (File.Info before) ↔ is_Some (File.Info after)));
          [done|]. exfalso. apply Hnot. repeat split; try done. tauto.
      * destruct (decide (is_Some (File.Stat before) ↔ is_Some (File.Stat after)));
          [done|]. exfalso. apply Hnot. repeat split; try done. tauto.
    + unfold diffFileLines. rewrite (bool_decide_eq_true_2 _ Hv).
      rewrite (bool_decide_eq_false_2 _ Hp). simpl. eauto.
    + unfold diffFileLines. rewrite (bool_decide_eq_false_2 _ Hv). simpl. eauto.
Qed.


(** When [diffFile] returns an error. *)
Lemma diffFile_Some_err (before after : File.t) (diff : string) (err : error) :
  diffFile Quote Format before after = Ret (diff, Some err)
  ↔ diff = ""
    ∧ (File.Version before ≠ File.Version after
       ∧ err = ErrFileVersions (File.Version before) (File.Version after)
       ∨ File.Version before = File.Version after
         ∧ File.Path before ≠ File.Path after
         ∧ err = ErrFilePaths (File.Path before) (File.Path after)).
Proof.
  unfold diffFile, diffFileLines.
  destruct (decide (File.Version before = File.Version after)) as [Hv|Hv];
    [destruct (decide (File.Path before = File.Path after)) as [Hp|Hp]|].
  - rewrite (bool_decide_eq_true_2 _ Hv), (bool_decide_eq_true_2 _ Hp). simpl.
    split; [|by intros (_ & [[? _]|(_ & ? & _)])].
    destruct (diffFileInfo _ _ _ _) as [[fiDiffs e]|] eqn:Hfi; simpl; [|done].
    apply diffFileInfo_err in Hfi as ->.
    destruct (diffFileStat _ _ _) as [[fsDiffs e]|] eqn:Hfs; simpl; [|done].
    apply diffFileStat_err in Hfs as ->. done.
  - rewrite (bool_decide_eq_true_2 _ Hv), (bool_decide_eq_false_2 _ Hp). simpl.
    split.
    + intros [= <- <-]. split; [done|]. right. done.
    + intros (-> & [[? _]|(_ & _ & ->)]); done.
  - rewrite (bool_decide_eq_false_2 _ Hv). simpl. split.
    + intros [= <- <-]. split; [done|]. left. done.
    + intros (-> & [[_ ->]|(? & _)]); done.
Qed.

(** X7: [diffFile] returns an error exactly for two files of different
    versions, or of the same version and different paths; the diff is
    then empty.  The comparisons of the info and stat blocks never fail. *)
Theorem diffFile_error_iff (before after : File.t) (diff : string) (err : error) :
  diffFile Quote Format before after = Ret (diff, Some err)
  ↔ diff = ""
    ∧ (File.Version before ≠ File.Version after
       ∧ err = ErrFileVersions (File.Version before) (File.Version after)
       ∨ File.Version before = File.Version after
         ∧ File.Path before ≠ File.Path after
         ∧ err = ErrFilePaths (File.Path before) (File.Path after)).
Proof. apply diffFile_Some_err. Qed.

(** X8: [timestampDiff] never returns an error, and for timestamps in
    range it returns the empty string iff the two stand for the same
    number of nanoseconds since the epoch, a nil timestamp standing for
    zero. *)
Theorem timestampDiff_empty_iff (bt at' : option Timestamp.t) :
  inTimeRange bt → inTimeRange at' →
  (timestampDiff Format bt at').2 = None
  ∧ ((timestampDiff Format bt at').1 = "" ↔ totalNanos bt = totalNanos at').
Proof.
  intros Hb Ha. split; [apply timestampDiff_err|].
  rewrite <-(AsTime_eq _ _ Hb Ha).
  destruct (decide (AsTime bt = AsTime at')) as [E|E].
  - by rewrite (timestampDiff_same _ _ _ E).
  - rewrite (timestampDiff_changed _ _ _ E). simpl. split; [|done].
    intros H. by apply renderDelta_nonempty in H.
Qed.

End DiffTheorems.

(** One second is a thousand million nanoseconds, and nil is the epoch. *)
Lemma timestampDiff_empty_iff_witness :
  (timestampDiff secondsFormat (Some (Timestamp.mk 1 0))
                 (Some (Timestamp.mk 0 1000000000))).1 = ""
  ∧ (timestampDiff secondsFormat None (Some (Timestamp.mk 0 0))).1 = "".
Proof.
  split.
  - apply (timestampDiff_empty_iff secondsFormat (Some (Timestamp.mk 1 0))
             (Some (Timestamp.mk 0 1000000000))); by vm_compute.
  - apply (timestampDiff_empty_iff secondsFormat None
             (Some (Timestamp.mk 0 0))); by vm_compute.
Defined.


(** * The report of [Compare] *)

Section CompareExtras.
Variable Quote : string → string.
Variable Format : time.Time → string.
Variable rangeMap : gmap string File.t → list (string * File.t).

Local Abbreviation Compare := (Compare Quote Format rangeMap).
Local Abbreviation builtReport := (builtReport Quote Format rangeMap).

Lemma SortFunc_nil_iff {A} (less : A → A → bool) l :
  SortFunc less l = [] ↔ l = [].
Proof.
  split; [|by intros ->]. intros E. apply Permutation_nil_r.
  by rewrite <-E, SortFunc_Permutation.
Qed.

Lemma SortFunc_length {A} (less : A → A → bool) l :
  length (SortFunc less l) = length l.
Proof. by rewrite SortFunc_Permutation. Qed.

Lemma nil_no_elem {A} (l : list A) : (∀ x, x ∉ l) → l = [].
Proof. destruct l as [|x l]; [done|]. intros H. destruct (H x). by left. Qed.

Lemma modifiedOf_detail r wa fb d :
  d ∈ modifiedOf Quote Format r wa fb ↔
  isExcluded (File.Path fb) (ReportConfig.Exclude (Reporter.config r)) = Ret false
  ∧ ∃ fa diff e, wa !! File.Path fb = Some fa
      ∧ diffFile Quote Format fb fa = Ret (diff, e) ∧ diff ≠ ""
      ∧ d = ActionData.mk (Some fb) (Some fa) diff None.
Proof.
  unfold modifiedOf. destruct (isExcluded _ _) as [[]|].
  1,3: rewrite elem_of_nil; split; [done|by intros [? _]].
  destruct (wa !! File.Path fb) as [fa|].
  2:{ rewrite elem_of_nil. split; [done|]. by intros (_ & ? & ? & ? & [=] & _). }
  destruct (diffFile Quote Format fb fa) as [[diff e]|] eqn:Hdiff.
  2:{ rewrite elem_of_nil. split; [done|].
      intros (_ & ? & ? & ? & [= <-] & ? & _). congruence. }
  case_bool_decide as Hd.
  - rewrite elem_of_nil. split; [done|].
    intros (_ & ? & ? & ? & [= <-] & ? & ? & _). congruence.
  - rewrite list_elem_of_singleton. split.
    + intros ->. split; [done|]. by exists fa, diff, e.
    + intros (_ & ? & ? & ? & [= <-] & ? & _ & ->). congruence.
Qed.

Lemma errorsOf_detail r wa fb d :
  d ∈ errorsOf Quote Format r wa fb ↔
  isExcluded (File.Path fb) (ReportConfig.Exclude (Reporter.config r)) = Ret false
  ∧ ∃ fa diff e, wa !! File.Path fb = Some fa
      ∧ diffFile Quote Format fb fa = Ret (diff, Some e)
      ∧ d = ActionData.mk (Some fb) (Some fa) diff (Some e).
Proof.
  unfold errorsOf. destruct (isExcluded _ _) as [[]|].
  1,3: rewrite elem_of_nil; split; [done|by intros [? _]].
  destruct (wa !! File.Path fb) as [fa|].
  2:{ rewrite elem_of_nil. split; [done|]. by intros (_ & ? & ? & ? & [=] & _). }
  destruct (diffFile Quote Format fb fa) as [[diff [e|]]|] eqn:Hdiff.
  - rewrite list_elem_of_singleton. split.
    + intros ->. split; [done|]. by exists fa, diff, e.
    + intros (_ & ? & ? & ? & [= <-] & ? & ->). congruence.
  - rewrite elem_of_nil. split; [done|].
    intros (_ & ? & ? & ? & [= <-] & ? & _). congruence.
  - rewrite elem_of_nil. split; [done|].
    intros (_ & ? & ? & ? & [= <-] & ? & _). congruence.
Qed.

Section Built.
Context (r : Reporter.t) (before : option Walk.t) (a : Walk.t).
Context (wb wa : gmap string File.t).
Context (Hfair : fairRange rangeMap).
Context (Hwb : indexBefore before = Ret wb).
Context (Hwa : indexFiles (Walk.File a) = Ret wa).

Local Abbreviation rep := (builtReport r before a wb wa).
Local Abbreviation exclude := (ReportConfig.Exclude (Reporter.config r)).

Lemma Modified_detail d :
  d ∈ Report.Modified rep ↔
  ∃ fb fa diff e,
    wb !! File.Path fb = Some fb ∧ wa !! File.Path fb = Some fa
    ∧ File.Path fa = File.Path fb
    ∧ isExcluded (File.Path fb) exclude = Ret false
    ∧ diffFile Quote Format fb fa = Ret (diff, e) ∧ diff ≠ ""
    ∧ d = ActionData.mk (Some fb) (Some fa) diff None.
Proof.
  simpl. rewrite elem_of_SortFunc_bind. split.
  - intros (fb & Hfb & Hd).
    apply (visited_before rangeMap before wb Hfair Hwb) in Hfb.
    apply modifiedOf_detail in Hd as (Hex & fa & diff & e & Hfa & Hdiff & Hne & ->).
    destruct (indexFiles_lookup _ _ _ _ Hwa Hfa) as [Hp _].
    exists fb, fa, diff, e. auto 10.
  - intros (fb & fa & diff & e & Hfb & Hfa & _ & Hex & Hdiff & Hne & ->).
    exists fb. split; [by apply (visited_before rangeMap before wb Hfair Hwb)|].
    apply modifiedOf_detail. split; [done|]. by exists fa, diff, e.
Qed.

Lemma Errors_detail d :
  d ∈ Report.Errors rep ↔
  ∃ fb fa diff e,
    wb !! File.Path fb = Some fb ∧ wa !! File.Path fb = Some fa
    ∧ File.Path fa = File.Path fb
    ∧ isExcluded (File.Path fb) exclude = Ret false
    ∧ diffFile Quote Format fb fa = Ret (diff, Some e)
    ∧ d = ActionData.mk (Some fb) (Some fa) diff (Some e).
Proof.
  simpl. rewrite elem_of_SortFunc_bind. split.
  - intros (fb & Hfb & Hd).
    apply (visited_before rangeMap before wb Hfair Hwb) in Hfb.
    apply errorsOf_detail in Hd as (Hex & fa & diff & e & Hfa & Hdiff & ->).
    destruct (indexFiles_lookup _ _ _ _ Hwa Hfa) as [Hp _].
    exists fb, fa, diff, e. auto 10.
  - intros (fb & fa & diff & e & Hfb & Hfa & _ & Hex & Hdiff & ->).
    exists fb. split; [by apply (visited_before rangeMap before wb Hfair Hwb)|].
    apply errorsOf_detail. split; [done|]. by exists fa, diff, e.
Qed.

End Built.

Lemma excluded_false r p b :
  isExcluded p (ReportConfig.Exclude (Reporter.config r)) = Ret b →
  ¬ excludedIn r p → b = false.
Proof. unfold excludedIn. intros -> Hex. destruct b; [by destruct Hex|done]. Qed.

(** X9: without a "before" inventory, every report [Compare] returns has
    no deleted, modified or erroneous entries, and its Added list holds
    exactly the paths of "after" that are not excluded. *)
Theorem Compare_first_run (r : Reporter.t) (a : Walk.t) (rep : Report.t) :
  fairRange rangeMap →
  Compare r None (Some a) = Ret (Some rep, None) →
  Report.Deleted rep = [] ∧ Report.Modified rep = [] ∧ Report.Errors rep = []
  ∧ ∀ p, (∃ d, d ∈ Report.Added rep ∧ is_Some (ActionData.After d)
               ∧ afterPath d = p)
         ↔ present (Some a) p ∧ ¬ excludedIn r p.
Proof.
  intros Hfair (a' & wb & wa & _ & [= <-] & Hwb & Hwa & _ & Ha & ->)%Compare_Ret.
  assert (wb = ∅) as Hempty by (by injection Hwb).
  split; [|split; [|split]].
  - apply nil_no_elem. intros d Hd.
    apply (Deleted_elem Quote Format rangeMap r None a wb wa Hfair Hwb) in Hd
      as (fb & Hfb & _). by rewrite Hempty, lookup_empty in Hfb.
  - apply nil_no_elem. intros d Hd.
    apply (Modified_detail r None a wb wa Hfair Hwb Hwa) in Hd
      as (fb & ? & ? & ? & Hfb & _). by rewrite Hempty, lookup_empty in Hfb.
  - apply nil_no_elem. intros d Hd.
    apply (Errors_detail r None a wb wa Hfair Hwb Hwa) in Hd
      as (fb & ? & ? & ? & Hfb & _). by rewrite Hempty, lookup_empty in Hfb.
  - intros p. split.
    + intros (d & Hd & _ & <-).
      apply (Added_elem Quote Format rangeMap r None a wb wa Hfair Hwa) in Hd
        as (fa & Hfa & Hex & _ & ->).
      unfold afterPath. simpl. split.
      * exists a. destruct (indexFiles_lookup _ _ _ _ Hwa Hfa)
          as (_ & f & ? & ? & _). eauto.
      * unfold excludedIn. by rewrite Hex.
    + intros [(a' & f & [= <-] & Hf & Hp) Hex].
      assert (is_Some (wa !! p)) as [fa Hfa]
        by (apply (indexFiles_present _ _ _ Hwa); eauto).
      destruct (indexFiles_lookup _ _ _ _ Hwa Hfa) as [Hpath _].
      exists (ActionData.mk None (Some fa) "" None).
      split; [|split; [by eexists|done]].
      apply (Added_elem Quote Format rangeMap r None a wb wa Hfair Hwa).
      exists fa. rewrite Hpath. split; [done|]. split; [|by rewrite Hempty].
      assert (fa ∈ (rangeMap wa).*2) as Hin by (apply range_values; eauto).
      eapply Forall_forall in Ha as [c Hc]; [|done]. rewrite Hpath in Hc.
      by rewrite Hc, (excluded_false _ _ _ Hc Hex).
Qed.


(** X11: in every report [Compare] returns, an entry of Errors is a pair
    of files of the same path and different versions, with that error and
    an empty diff; an entry of Modified is a pair of files of the same
    path and version with a non-empty diff and no error; and no path has
    an entry in both lists. *)
Theorem Compare_error_entries (r : Reporter.t) (before after : option Walk.t)
    (rep : Report.t) :
  fairRange rangeMap →
  Compare r before after = Ret (Some rep, None) →
  (∀ d, d ∈ Report.Errors rep →
     ∃ fb fa, File.Path fb = File.Path fa
       ∧ File.Version fb ≠ File.Version fa
       ∧ d = ActionData.mk (Some fb) (Some fa) ""
               (Some (ErrFileVersions (File.Version fb) (File.Version fa))))
  ∧ (∀ d, d ∈ Report.Modified rep →
     ∃ fb fa, File.Path fb = File.Path fa
       ∧ File.Version fb = File.Version fa
       ∧ ActionData.Diff d ≠ ""
       ∧ d = ActionData.mk (Some fb) (Some fa) (ActionData.Diff d) None)
  ∧ (∀ d d', d ∈ Report.Errors rep → d' ∈ Report.Modified rep →
     beforePath d ≠ beforePath d').
Proof.
  intros Hfair (a & wb & wa & _ & -> & Hwb & Hwa & _ & _ & ->)%Compare_Ret.
  split; [|split].
  - intros d (fb & fa & diff & e & _ & _ & Hp & _ & Hdiff & ->)
      %(Errors_detail r before a wb wa Hfair Hwb Hwa).
    apply diffFile_Some_err in Hdiff as (-> & [[Hv ->]|(_ & Hp' & _)]);
      [|congruence].
    by exists fb, fa.
  - intros d (fb & fa & diff & e & _ & _ & Hp & _ & Hdiff & Hne & ->)
      %(Modified_detail r before a wb wa Hfair Hwb Hwa).
    exists fb, fa. split; [done|]. split; [|done].
    destruct e as [e|].
    { apply diffFile_Some_err in Hdiff as [? _]. done. }
    destruct (decide (File.Version fb = File.Version fa)) as [|Hv]; [done|].
    assert (diffFile Quote Format fb fa
            = Ret ("", Some (ErrFileVersions (File.Version fb) (File.Version fa))))
      as E by (apply diffFile_Some_err; auto).
    congruence.
  - intros d d'
      (fb & fa & diff & e & Hfb & Hfa & _ & _ & Hdiff & ->)
        %(Errors_detail r before a wb wa Hfair Hwb Hwa)
      (fb' & fa' & diff' & e' & Hfb' & Hfa' & _ & _ & Hdiff' & Hne & ->)
        %(Modified_detail r before a wb wa Hfair Hwb Hwa).
    unfold beforePath. simpl. intros Hp. rewrite <-Hp in Hfb', Hfa'.
    assert (fb' = fb) as -> by congruence.
    assert (fa' = fa) as -> by congruence.
    pose proof (proj1 (diffFile_Some_err _ _ _ _ _ _) Hdiff) as [-> _].
    congruence.
Qed.

(** *** Counters and lists *)

Lemma Counter_Get_Add name n c :
  Counter_Get name (Counter_Add 1 n c)
  = Counter_Get name c + (if decide (n = name) then 1 else 0).
Proof.
  unfold Counter_Get, Counter_Add. destruct (decide (n = name)) as [->|E].
  - by rewrite (lookup_insert_eq c name).
  - rewrite (lookup_insert_ne c n name) by done. by rewrite Z.add_0_r.
Qed.

Lemma tally_get name names c :
  Counter_Get name (tally names c)
  = Counter_Get name c + Z.of_nat (length (filter (λ n, n = name) names)).
Proof.
  revert c. induction names as [|n names IH]; intros c.
  { simpl. lia. }
  change (tally (n :: names) c) with (tally names (Counter_Add 1 n c)).
  rewrite IH, Counter_Get_Add, filter_cons. case_decide; simpl; lia.
Qed.

Lemma length_filter_bind {A B C} (P : B → Prop) `{!∀ x, Decision (P x)}
    (f : A → list B) (g : A → list C) l :
  (∀ x, length (filter P (f x)) = length (g x)) →
  length (filter P (l ≫= f)) = length (l ≫= g).
Proof.
  intros Hfg. induction l as [|x l IH]; [done|].
  change ((x :: l) ≫= f) with (f x ++ (l ≫= f)).
  change ((x :: l) ≫= g) with (g x ++ (l ≫= g)).
  by rewrite filter_app, !length_app, IH, Hfg.
Qed.

Lemma filter_bind_nil {A B} (P : B → Prop) `{!∀ x, Decision (P x)}
    (f : A → list B) l :
  (∀ x, filter P (f x) = []) → filter P (l ≫= f) = [].
Proof.
  intros Hf. induction l as [|x l IH]; [done|].
  change ((x :: l) ≫= f) with (f x ++ (l ≫= f)).
  by rewrite filter_app, IH, Hf.
Qed.

Ltac count_names :=
  simpl app;
  repeat (rewrite filter_cons; case_decide; [try discriminate|try done]);
  rewrite ?filter_nil; try reflexivity.

Lemma countedBefore_removed r wa fb :
  length (filter (λ n, n = "before-files-removed")
            (countedBefore Quote Format r wa fb))
  = length (deletedOf r wa fb).
Proof.
  unfold countedBefore, deletedOf.
  destruct (isExcluded _ _) as [[]|]; [count_names| |count_names].
  destruct (wa !! File.Path fb); [|count_names].
  destruct (diffFile _ _ _ _) as [[diff [e|]]|]; [| |count_names];
    case_bool_decide; simpl; count_names.
Qed.

Lemma countedBefore_modified r wa fb :
  length (filter (λ n, n = "before-files-modified")
            (countedBefore Quote Format r wa fb))
  = length (modifiedOf Quote Format r wa fb).
Proof.
  unfold countedBefore, modifiedOf.
  destruct (isExcluded _ _) as [[]|]; [count_names| |count_names].
  destruct (wa !! File.Path fb); [|count_names].
  destruct (diffFile _ _ _ _) as [[diff [e|]]|]; [| |count_names];
    case_bool_decide; simpl; count_names.
Qed.

Lemma countedBefore_errors r wa fb :
  length (filter (λ n, n = "file-diff-error")
            (countedBefore Quote Format r wa fb))
  = length (errorsOf Quote Format r wa fb).
Proof.
  unfold countedBefore, errorsOf.
  destruct (isExcluded _ _) as [[]|]; [count_names| |count_names].
  destruct (wa !! File.Path fb); [|count_names].
  destruct (diffFile _ _ _ _) as [[diff [e|]]|]; [| |count_names];
    case_bool_decide; simpl; count_names.
Qed.

Lemma countedAfter_created r wb fa :
  length (filter (λ n, n = "after-files-created") (countedAfter r wb fa))
  = length (addedOf r wb fa).
Proof.
  unfold countedAfter, addedOf.
  destruct (isExcluded _ _) as [[]|]; [count_names| |count_names].
  destruct (wb !! File.Path fa); count_names.
Qed.

Lemma countedBefore_no_after name r wa fb :
  name = "after-files-created" →
  filter (λ n, n = name) (countedBefore Quote Format r wa fb) = [].
Proof.
  intros ->. unfold countedBefore.
  destruct (isExcluded _ _) as [[]|]; [count_names| |count_names].
  destruct (wa !! File.Path fb); [|count_names].
  destruct (diffFile _ _ _ _) as [[diff [e|]]|]; [| |count_names];
    case_bool_decide; simpl; count_names.
Qed.

Lemma countedAfter_no_before name r wb fa :
  name = "before-files-removed" ∨ name = "before-files-modified"
  ∨ name = "file-diff-error" →
  filter (λ n, n = name) (countedAfter r wb fa) = [].
Proof.
  unfold countedAfter.
  intros [-> | [-> | ->]]; (destruct (isExcluded _ _) as [[]|];
    [count_names| |count_names]); destruct (wb !! File.Path fa); count_names.
Qed.

(** X12: in every report [Compare] returns, the counters of removed,
    created and modified files and of diff errors are the lengths of the
    lists Deleted, Added, Modified and Errors. *)
Theorem Compare_counters (r : Reporter.t) (before after : option Walk.t)
    (rep : Report.t) :
  Compare r before after = Ret (Some rep, None) →
  Counter_Get "before-files-removed" (Report.Counter rep)
  = Z.of_nat (length (Report.Deleted rep))
  ∧ Counter_Get "after-files-created" (Report.Counter rep)
    = Z.of_nat (length (Report.Added rep))
  ∧ Counter_Get "before-files-modified" (Report.Counter rep)
    = Z.of_nat (length (Report.Modified rep))
  ∧ Counter_Get "file-diff-error" (Report.Counter rep)
    = Z.of_nat (length (Report.Errors rep)).
Proof.
  intros (a & wb & wa & _ & -> & _ & _ & _ & _ & ->)%Compare_Ret. simpl.
  rewrite !tally_get, !SortFunc_length.
  change (Counter_Get _ ∅) with 0.
  rewrite (length_filter_bind _ _ _ _ (countedBefore_removed r wa)).
  rewrite (length_filter_bind _ _ _ _ (countedBefore_modified r wa)).
  rewrite (length_filter_bind _ _ _ _ (countedBefore_errors r wa)).
  rewrite (length_filter_bind _ _ _ _ (countedAfter_created r wb)).
  rewrite (filter_bind_nil _ _ _ (λ fb, countedBefore_no_after _ r wa fb eq_refl)).
  rewrite (filter_bind_nil (λ n, n = "before-files-removed") _ _
             (λ fa, countedAfter_no_before _ r wb fa (or_introl eq_refl))).
  rewrite (filter_bind_nil (λ n, n = "before-files-modified") _ _
             (λ fa, countedAfter_no_before _ r wb fa
                      (or_intror (or_introl eq_refl)))).
  rewrite (filter_bind_nil (λ n, n = "file-diff-error") _ _
             (λ fa, countedAfter_no_before _ r wb fa
                      (or_intror (or_intror eq_refl)))).
  simpl. lia.
Qed.

End CompareExtras.

(** X13: two inventories with different identifiers and the same version
    and hostname pass the sanity check iff the stop time of "before" is
    not later than the start time of "after", both counted in nanoseconds
    since the epoch; a missing timestamp counts as the epoch. *)
Theorem sanityCheck_times (b a : Walk.t) :
  Walk.Id b ≠ Walk.Id a → Walk.Version b = Walk.Version a →
  Walk.Hostname b = Walk.Hostname a →
  inTimeRange (Walk.StopWalk b) → inTimeRange (Walk.StartWalk a) →
  sanityCheck (Some b) (Some a) = None
  ↔ totalNanos (Walk.StopWalk b) ≤ totalNanos (Walk.StartWalk a).
Proof.
  intros Hid Hv Hh Hb Ha. unfold sanityCheck.
  rewrite (bool_decide_eq_false_2 _ Hid), (bool_decide_eq_true_2 _ Hv),
    (bool_decide_eq_true_2 _ Hh). simpl.
  pose proof (After_total _ _ Hb Ha) as Hafter.
  destruct (time.After _ _); split; try done.
  - intros ?. assert (true = true) as E%Hafter by done. lia.
  - intros _. apply Z.le_ngt. intros E%Hafter. done.
Qed.

(** A walk that stops at the very nanosecond the next one starts. *)
Lemma sanityCheck_times_witness :
  sanityCheck
    (Some (Walk.mk "w1" 1 "host" None (Some (Timestamp.mk 1700000000 1000000000)) []))
    (Some (Walk.mk "w2" 1 "host" (Some (Timestamp.mk 1700000001 0)) None []))
  = None.
Proof.
  apply sanityCheck_times; by vm_compute.
Defined.

(** The first walk of a host: the inventory B alone. *)
Lemma Compare_first_run_witness :
  ∃ rep,
    Compare plainQuote secondsFormat map_to_list exampleReporter None
      (Some exampleWalkB) = Ret (Some rep, None)
    ∧ Report.Deleted rep = [] ∧ Report.Modified rep = []
    ∧ Report.Errors rep = []
    ∧ ∀ p, (∃ d, d ∈ Report.Added rep ∧ is_Some (ActionData.After d)
                 ∧ afterPath d = p)
           ↔ present (Some exampleWalkB) p ∧ ¬ excludedIn exampleReporter p.
Proof.
  eexists. split; [vm_compute; reflexivity|].
  apply (Compare_first_run plainQuote secondsFormat map_to_list);
    [apply fairRange_map_to_list|vm_compute; reflexivity].
Defined.


(** [/a] in two file format versions: an entry of Errors and none of
    Modified. *)
Lemma Compare_error_entries_witness :
  ∃ rep,
    Compare plainQuote secondsFormat map_to_list exampleReporter
      (Some exampleWalkA) (Some exampleWalkBNewFormat) = Ret (Some rep, None)
    ∧ Report.Errors rep
      = [ActionData.mk (Some exampleFileA1) (Some exampleFileA3) ""
           (Some (ErrFileVersions 1 2))]
    ∧ ∀ d d', d ∈ Report.Errors rep → d' ∈ Report.Modified rep →
        beforePath d ≠ beforePath d'.
Proof.
  eexists. split; [vm_compute; reflexivity|]. split; [reflexivity|].
  apply (Compare_error_entries plainQuote secondsFormat map_to_list
           exampleReporter (Some exampleWalkA) (Some exampleWalkBNewFormat));
    [apply fairRange_map_to_list|vm_compute; reflexivity].
Defined.

(** The counters of the report on the inventories A and B. *)
Lemma Compare_counters_witness :
  ∃ rep,
    Compare plainQuote secondsFormat map_to_list exampleReporter
      (Some exampleWalkA) (Some exampleWalkB) = Ret (Some rep, None)
    ∧ Counter_Get "before-files-removed" (Report.Counter rep) = 1
    ∧ Counter_Get "after-files-created" (Report.Counter rep) = 1
    ∧ Counter_Get "before-files-modified" (Report.Counter rep) = 1
    ∧ Counter_Get "file-diff-error" (Report.Counter rep) = 0.
Proof.
  eexists. split; [vm_compute; reflexivity|].
  apply (Compare_counters plainQuote secondsFormat map_to_list
           exampleReporter (Some exampleWalkA) (Some exampleWalkB)).
  vm_compute; reflexivity.
Defined.

(** * The review file *)

Section ReplaceFacts.

Lemma replaceBytes_byte (o : ascii) (new s : list ascii) :
  replaceBytes [o] new 0 s
  = flat_map (λ c, if bool_decide (o = c) then new else [c]) s.
Proof.
  induction s as [|c s IH]; [done|].
  cbn [replaceBytes flat_map hasPrefixBytes]. rewrite andb_true_r.
  case_bool_decide; simpl; by rewrite IH.
Qed.

Lemma Replace_byte (o n : ascii) s :
  Replace s (str [o]) (str [n])
  = str ((λ c, if bool_decide (o = c) then n else c) <$> bytes s).
Proof.
  unfold Replace. rewrite !bytes_str, replaceBytes_byte. f_equal.
  induction (bytes s) as [|c l IH]; [done|]. simpl. rewrite IH.
  by case_bool_decide.
Qed.

Lemma braces_bytes blob :
  bytes (braces blob)
  = (λ c, if bool_decide (">"%char = c) then "}"%char
          else if bool_decide ("<"%char = c) then "{"%char else c)
    <$> bytes blob.
Proof.
  unfold braces.
  rewrite (Replace_byte ">" "}"), (Replace_byte "<" "{"), !bytes_str.
  rewrite <-list_fmap_compose. apply list_fmap_ext. intros _ c _. simpl.
  repeat case_bool_decide; simplify_eq; done.
Qed.

Lemma braces_noAngles blob : noAngles blob → braces blob = blob.
Proof.
  intros Hb. assert (bytes (braces blob) = bytes blob) as E.
  { rewrite braces_bytes. unfold noAngles in Hb.
    induction Hb as [|c l [H1 H2] _ IH]; [done|]. rewrite fmap_cons, IH.
    repeat case_bool_decide; by simplify_eq. }
  by rewrite <-(str_bytes (braces blob)), E, str_bytes.
Qed.

Lemma noAngles_braces blob : noAngles (braces blob).
Proof.
  unfold noAngles. rewrite braces_bytes. apply Forall_fmap, Forall_true.
  intros c. simpl. repeat case_bool_decide; simplify_eq; done.
Qed.

Lemma braces_length blob :
  length (bytes (braces blob)) = length (bytes blob).
Proof. by rewrite braces_bytes, length_fmap. Qed.

End ReplaceFacts.

Ltac unfold_ReadWalk := unfold ReadWalk.
Ltac unfold_writeTextProto := unfold writeTextProto.
Ltac unfold_UpdateReviewProto := unfold UpdateReviewProto.

Section ReviewFileFacts.
Variable Sum256 : string → string.
Variable UnmarshalWalk : string → option Walk.t.
Variable FormatReviews : Reviews.t → string.
Variable UnmarshalReviews : string → option Reviews.t.
Variable Quote : string → string.
Variable writable : string → bool.

Local Abbreviation fingerprint := (fingerprint Sum256).
Local Abbreviation ReadWalk := (ReadWalk Sum256 UnmarshalWalk).
Local Abbreviation ReadLastGoodWalk :=
  (ReadLastGoodWalk Sum256 UnmarshalWalk UnmarshalReviews).
Local Abbreviation writeTextProto := (writeTextProto FormatReviews writable).
Local Abbreviation UpdateReviewProto :=
  (UpdateReviewProto FormatReviews UnmarshalReviews Quote writable).

(** When [verifyFingerprint] accepts, returns, panics. *)
Lemma verifyFingerprint_cases :
  (∀ good check,
     verifyFingerprint (Some good) (Some check) = Ret None
     ↔ check = good ∧ Fingerprint.Method good ≠ Fingerprint_UNKNOWN
       ∧ Fingerprint.Value good ≠ "")
  ∧ (∀ good check, ∃ res, verifyFingerprint (Some good) (Some check) = Ret res)
  ∧ (∀ goodFp checkFp, goodFp = None ∨ checkFp = None →
       verifyFingerprint goodFp checkFp = Panic NilDereference).
Proof.
  split; [|split].
  - intros [mg vg] [mc vc]. unfold verifyFingerprint. simpl.
    repeat case_bool_decide; simpl; split; try done; try congruence.
    all: try by intros ([= ? ?] & ? & ?).
    intros _. split; [congruence|done].
  - intros good check. apply verifyFingerprint_returns.
  - intros [g|] [c|] [?|?]; done.
Qed.

(** X14: [verifyFingerprint] accepts exactly a fingerprint equal to the
    pinned one whose method is not UNKNOWN and whose value is not empty;
    on two fingerprints it always returns, and a nil one makes it panic. *)
Theorem verifyFingerprint_accepts_iff :
  (∀ good check,
     verifyFingerprint (Some good) (Some check) = Ret None
     ↔ check = good ∧ Fingerprint.Method good ≠ Fingerprint_UNKNOWN
       ∧ Fingerprint.Value good ≠ "")
  ∧ (∀ good check, ∃ res, verifyFingerprint (Some good) (Some check) = Ret res)
  ∧ (∀ goodFp checkFp, goodFp = None ∨ checkFp = None →
       verifyFingerprint goodFp checkFp = Panic NilDereference).
Proof. apply verifyFingerprint_cases. Qed.

(** When [ReadLastGoodWalk] returns a walk and no error. *)
Lemma ReadLastGoodWalk_Some (disk : gmap string string)
    (hostname reviewFile : string) (wf : WalkFile.t) :
  ReadLastGoodWalk disk hostname reviewFile = Ret (Some wf, None)
  ↔ ∃ rb reviews rv b,
      disk !! reviewFile = Some rb ∧ UnmarshalReviews rb = Some reviews
      ∧ Reviews.Review reviews !! hostname = Some rv
      ∧ disk !! Review.WalkReference rv = Some b
      ∧ UnmarshalWalk b = Some (WalkFile.Walk wf)
      ∧ Review.Fingerprint rv = Some (fingerprint b) ∧ Sum256 b ≠ ""
      ∧ Walk.Id (WalkFile.Walk wf) = Review.WalkID rv
      ∧ wf = WalkFile.mk (Review.WalkReference rv) (WalkFile.Walk wf)
                         (fingerprint b).
Proof.
  unfold_ReadLastGoodWalk. unfold readTextProto. unfold_ReadWalk. split.
  - destruct (disk !! reviewFile) as [rb|] eqn:Hrb; [|done].
    destruct (UnmarshalReviews rb) as [reviews|] eqn:Hrev; [|done].
    destruct (Reviews.Review reviews !! hostname) as [rv|] eqn:Hrv; [|done].
    destruct (disk !! Review.WalkReference rv) as [b|] eqn:Hb; [|done].
    destruct (UnmarshalWalk b) as [w|] eqn:Hw; [|done]. simpl.
    destruct (Review.Fingerprint rv) as [F|] eqn:HF; [|done].
    destruct (verifyFingerprint (Some F) _) as [[e|]|] eqn:Hv; simpl; [done| |done].
    apply (proj1 verifyFingerprint_cases) in Hv as (HFb & _ & Hne).
    simpl in HFb. subst F. simpl in Hne.
    case_bool_decide as Hid; simpl; [|done]. intros [= <-].
    exists rb, reviews, rv, b. simpl. done.
  - intros (rb & reviews & rv & b & -> & -> & -> & -> & -> & -> & Hne & Hid & ->).
    simpl.
    assert (verifyFingerprint (Some (fingerprint b)) (Some (fingerprint b))
            = Ret None) as ->
      by (by apply (proj1 verifyFingerprint_cases)).
    simpl. simpl in Hid. by rewrite (bool_decide_eq_true_2 _ Hid).
Qed.

(** X15: [ReadLastGoodWalk] returns a walk and no error exactly when the
    review file is read and decoded, has an entry for the host that pins a
    fingerprint, the referenced file is read and decoded, the pinned
    fingerprint is the SHA-256 fingerprint of its bytes with a non-empty
    value, and the identifier of the walk is the pinned one; the walk
    returned is the decoded one with that path and fingerprint. *)
Theorem ReadLastGoodWalk_accepts_iff (disk : gmap string string)
    (hostname reviewFile : string) (wf : WalkFile.t) :
  ReadLastGoodWalk disk hostname reviewFile = Ret (Some wf, None)
  ↔ ∃ rb reviews rv b,
      disk !! reviewFile = Some rb ∧ UnmarshalReviews rb = Some reviews
      ∧ Reviews.Review reviews !! hostname = Some rv
      ∧ disk !! Review.WalkReference rv = Some b
      ∧ UnmarshalWalk b = Some (WalkFile.Walk wf)
      ∧ Review.Fingerprint rv = Some (fingerprint b) ∧ Sum256 b ≠ ""
      ∧ Walk.Id (WalkFile.Walk wf) = Review.WalkID rv
      ∧ wf = WalkFile.mk (Review.WalkReference rv) (WalkFile.Walk wf)
                         (fingerprint b).
Proof. apply ReadLastGoodWalk_Some. Qed.

(** X16: [writeTextProto] to a path that can be written stores a text
    with neither [<] nor [>], as long as the formatted message, and equal
    to it when that holds neither character; no other file changes. *)
Theorem writeTextProto_braces (path : string) (pb : Reviews.t)
    (disk : gmap string string) :
  writable path = true →
  ∃ blob,
    writeTextProto path pb disk = (<[path := blob]> disk, None)
    ∧ noAngles blob
    ∧ length (bytes blob) = length (bytes (FormatReviews pb))
    ∧ (noAngles (FormatReviews pb) → blob = FormatReviews pb).
Proof.
  intros Hw. exists (braces (FormatReviews pb)).
  unfold_writeTextProto.
  rewrite Hw. split; [done|]. split; [apply noAngles_braces|].
  split; [apply braces_length|apply braces_noAngles].
Qed.

(** X17: after [UpdateReviewProto] has written a review file that held
    an entry before, [ReadLastGoodWalk] for the host of the walk returns
    that walk with no error, and the entries of the other hosts are
    kept; this for a walk file as [ReadWalk] reads it from the disk, with
    a non-empty digest, a formatted message without [<] and [>], and a
    decoder that reads the formatted message back. *)
Theorem UpdateReviewProto_round_trip (wf : WalkFile.t) (reviewFile rb : string)
    (reviews : Reviews.t) (disk : gmap string string) :
  let hostname := Walk.Hostname (WalkFile.Walk wf) in
  let review :=
    Review.mk (Walk.Id (WalkFile.Walk wf)) (WalkFile.Path wf)
              (Some (WalkFile.Fingerprint wf)) in
  let new := Reviews.mk (<[hostname := review]> (Reviews.Review reviews)) in
  reviewFile ≠ "" → writable reviewFile = true →
  disk !! reviewFile = Some rb → UnmarshalReviews rb = Some reviews →
  Reviews.Review reviews ≠ ∅ →
  noAngles (FormatReviews new) → UnmarshalReviews (FormatReviews new) = Some new →
  WalkFile.Path wf ≠ reviewFile →
  ReadWalk disk (WalkFile.Path wf) = (Some wf, None) →
  Fingerprint.Value (WalkFile.Fingerprint wf) ≠ "" →
  ∃ disk' stdout,
    UpdateReviewProto wf reviewFile disk = Updated (disk', stdout, None)
    ∧ disk' = <[reviewFile := FormatReviews new]> disk
    ∧ ReadLastGoodWalk disk' hostname reviewFile = Ret (Some wf, None)
    ∧ ∀ h, h ≠ hostname →
        Reviews.Review new !! h = Reviews.Review reviews !! h.
Proof.
  intros hostname review new Hfile Hw Hrb Hrev Hnonnil Hangles Hback Hpath
    Hread Hvalue.
  exists (<[reviewFile := FormatReviews new]> disk). eexists.
  split; [|split; [done|split]].
  - unfold_UpdateReviewProto. unfold readTextProto.
    rewrite (bool_decide_eq_false_2 _ Hfile), Hrb, Hrev. simpl.
    rewrite (bool_decide_eq_false_2 _ Hnonnil). unfold_writeTextProto.
    rewrite Hw. fold hostname review new. rewrite (braces_noAngles _ Hangles).
    reflexivity.
  - revert Hread. unfold_ReadWalk.
    destruct (disk !! WalkFile.Path wf) as [b|] eqn:Hb; [|done].
    destruct (UnmarshalWalk b) as [w|] eqn:Hwalk; [|done]. intros [= Hwf].
    assert (WalkFile.Fingerprint wf = fingerprint b) as HF by (by rewrite <-Hwf).
    assert (WalkFile.Walk wf = w) as HW by (by rewrite <-Hwf).
    apply ReadLastGoodWalk_Some.
    exists (FormatReviews new), new, review, b. simpl.
    rewrite (lookup_insert_eq disk reviewFile).
    rewrite (lookup_insert_ne disk reviewFile _) by done.
    rewrite (lookup_insert_eq (Reviews.Review reviews)).
    rewrite HF in Hvalue |- *. rewrite HW.
    repeat (split; [done|]). by rewrite <-Hwf.
  - intros h Hh. simpl. by rewrite lookup_insert_ne.
Qed.

End ReviewFileFacts.

(** A formatter that brackets a message with [<] and [>]. *)
Lemma writeTextProto_braces_witness :
  ∃ blob,
    writeTextProto (λ _, "review <key: 1>") (λ _, true) "reviews.asciipb"
      (Reviews.mk ∅) ∅
    = (<["reviews.asciipb" := blob]> ∅, None)
    ∧ noAngles blob
    ∧ length (bytes blob) = length (bytes "review <key: 1>")
    ∧ (noAngles "review <key: 1>" → blob = "review <key: 1>").
Proof.
  apply (writeTextProto_braces (λ _, "review <key: 1>") (λ _, true)).
  reflexivity.
Defined.

(** The review file of the example, updated for the walk file that is on
    the disk, then read. *)
Lemma UpdateReviewProto_round_trip_witness :
  ReadLastGoodWalk exampleDigest exampleDecodeWalk exampleDecodeReviews2
    (<["reviews.asciipb" := "reviews-updated"]> exampleDisk)
    "host" "reviews.asciipb"
  = Ret (Some exampleWalkFile, None).
Proof.
  destruct (UpdateReviewProto_round_trip exampleDigest exampleDecodeWalk
              exampleFormatReviews exampleDecodeReviews2 plainQuote (λ _, true)
              exampleWalkFile "reviews.asciipb" "reviews"
              (Reviews.mk {[ "host" := exampleReview ]}) exampleDisk)
    as (disk' & stdout & _ & Hdisk & Hread & _).
  - discriminate.
  - reflexivity.
  - vm_compute; reflexivity.
  - vm_compute; reflexivity.
  - vm_compute; discriminate.
  - repeat constructor; vm_compute; discriminate.
  - vm_compute; reflexivity.
  - discriminate.
  - vm_compute; reflexivity.
  - vm_compute; discriminate.
  - rewrite Hdisk in Hread. exact Hread.
Defined.

(** * [ReadLatestWalk] *)

Ltac unfold_ReadLatestWalk := unfold ReadLatestWalk.
Ltac unfold_WalkFilename := unfold WalkFilename.

Section LatestFacts.
Variable FormatFile : time.Time → string.
Variable Glob : string → option (list string).
Variable Sum256 : string → string.
Variable UnmarshalWalk : string → option Walk.t.
Variable disk : gmap string string.

Local Abbreviation WalkFilename := (WalkFilename FormatFile).
Local Abbreviation ReadWalk := (ReadWalk Sum256 UnmarshalWalk disk).
Local Abbreviation ReadLatestWalk :=
  (ReadLatestWalk FormatFile Glob Sum256 UnmarshalWalk disk).

Lemma last_greatest (names : list string) latest :
  StronglySorted String.le names → last names = Some latest →
  ∀ n, n ∈ names → String.le n latest.
Proof.
  induction 1 as [|x l Hs IH Hx]; [done|].
  intros Hlast n [->|Hn]%elem_of_cons.
  - apply last_Some_elem_of, elem_of_cons in Hlast as [->|Hin]; [done|].
    rewrite Forall_forall in Hx. by apply Hx.
  - apply IH; [|done]. destruct l as [|y l]; [by apply elem_of_nil in Hn|done].
Qed.

Lemma lastName_Sort names :
  names ≠ [] →
  ∃ latest, lastName (Sort names) = Ret latest ∧ latest ∈ names
    ∧ ∀ n, n ∈ names → String.le n latest.
Proof.
  intros Hne. unfold lastName.
  destruct (last (Sort names)) as [latest|] eqn:Hlast.
  - exists latest. split; [done|].
    assert (latest ∈ Sort names) as Hin by by apply last_Some_elem_of.
    unfold Sort in *. rewrite merge_sort_Permutation in Hin. split; [done|].
    intros n Hn.
    apply (last_greatest (merge_sort String.le names)); [|done|].
    + apply StronglySorted_merge_sort; apply _.
    + by rewrite merge_sort_Permutation.
  - apply last_None in Hlast. by apply (proj1 (Sort_nil _)) in Hlast.
Qed.

(** X19: [ReadLatestWalk] never indexes out of range: it fails when the
    pattern is malformed or matches nothing, and else returns what
    [ReadWalk] returns for the greatest matching name, in whatever order
    the names are found. *)
Theorem ReadLatestWalk_latest (hostname walkPath : string) :
  let matchpath := path.Join [walkPath; WalkFilename hostname zeroTime] in
  (Glob matchpath = None →
     ReadLatestWalk hostname walkPath = Ret (None, Some (ErrGlob matchpath)))
  ∧ (Glob matchpath = Some [] →
     ReadLatestWalk hostname walkPath = Ret (None, Some (ErrNoFiles matchpath)))
  ∧ (∀ names, Glob matchpath = Some names → names ≠ [] →
     ∃ latest, latest ∈ names ∧ (∀ n, n ∈ names → String.le n latest)
       ∧ ReadLatestWalk hostname walkPath
         = Ret ((ReadWalk latest).1, ErrReadWalk <$> (ReadWalk latest).2)).
Proof.
  intros matchpath. unfold_ReadLatestWalk. fold matchpath.
  split; [by intros ->|]. split; [by intros ->|].
  intros names -> Hne.
  rewrite bool_decide_eq_false_2 by (by destruct names).
  destruct (lastName_Sort names Hne) as (latest & -> & Hin & Hmax).
  exists latest. split; [done|]. split; [done|]. simpl.
  by destruct (ReadWalk latest).
Qed.

End LatestFacts.

(** * The walker *)

Ltac unfold_convert := unfold convert.

Section WalkerFacts.
Variable Sum256 : string → string.
Variable disk : gmap string string.
Variable ToStat : fs.FileInfo → option FileStat.t.

Local Abbreviation convert := (convert Sum256 disk ToStat).

Lemma splitBytes_length (c : ascii) cur s :
  length (splitBytes [c] 0 cur s) = S (length (filter (λ x, x = c) s)).
Proof.
  revert cur. induction s as [|x s IH]; intros cur; [done|].
  cbn [splitBytes hasPrefixBytes length Nat.sub]. rewrite andb_true_r.
  rewrite filter_cons. case_bool_decide as E; case_decide; simplify_eq.
  - simpl. by rewrite IH.
  - by rewrite IH.
Qed.

Lemma Split_length s :
  length (Split s (str [Separator])) = S (separators s).
Proof.
  unfold Split, separators. rewrite bytes_str, length_fmap.
  apply splitBytes_length.
Qed.

Lemma separators_app s t : separators (s +:+ t) = (separators s + separators t)%nat.
Proof. unfold separators. by rewrite bytes_app, filter_app, length_app. Qed.

(** X20: [relDirDepth] is the number of separators of the path minus the
    number of separators of the origin, as an unsigned 32-bit number; for
    a path that continues the origin it is the number of separators of
    the continuation. *)
Theorem relDirDepth_separators (origin path : string) :
  relDirDepth origin path
  = (Z.of_nat (separators path) - Z.of_nat (separators origin)) `mod` 2 ^ 32
  ∧ ∀ rest, Z.of_nat (separators rest) < 2 ^ 32 →
      relDirDepth origin (origin +:+ rest) = Z.of_nat (separators rest).
Proof.
  assert (∀ p, relDirDepth origin p
               = (Z.of_nat (separators p) - Z.of_nat (separators origin))
                   `mod` 2 ^ 32) as Hgen.
  { intros p. unfold relDirDepth, uint32. rewrite !Split_length. f_equal. lia. }
  split; [apply Hgen|]. intros rest Hrest.
  rewrite Hgen, separators_app.
  replace (Z.of_nat (separators origin + separators rest)
           - Z.of_nat (separators origin)) with (Z.of_nat (separators rest))
    by lia.
  apply Z.mod_small. lia.
Qed.

Lemma NormalizePath_Clean p d : NormalizePath (filepath.Clean p) d = NormalizePath p d.
Proof. unfold NormalizePath. by rewrite Clean_idemp. Qed.

Lemma NormalizePath_again q d p :
  NormalizePath q d = Ret p → NormalizePath p d = Ret p.
Proof.
  destruct d.
  - rewrite NormalizePath_dir. intros [= <-].
    destruct (decide (filepath.Clean q = "/")) as [Hroot|Hroot]; [done|].
    rewrite NormalizePath_dir, Clean_slash. by rewrite decide_False.
  - rewrite NormalizePath_file. intros [= <-].
    by rewrite NormalizePath_file, Clean_idemp.
Qed.

Lemma convert_Ret pol fi info :
  fileInfo.info fi = Some info →
  ∀ f errs, convert pol fi = Ret (f, errs) →
  File.Version f = fileVersion
  ∧ File.Path f = filepath.Clean (fileInfo.path fi)
  ∧ File.Info f
    = Some (FileInfo.mk (fs.Name info) (fs.Size info) (uint32 (fs.Mode info))
              (Some (tspb_New (fs.ModTime info))) (fs.IsDir info))
  ∧ File.Stat f = ToStat info
  ∧ (File.Fingerprint f = []
     ∨ isExcluded (fileInfo.path fi) (Policy.ExcludeHashing pol) = Ret false
       ∧ fs.IsRegular (fs.Mode info) = true
       ∧ uint64 (fs.Size info) ≤ Policy.MaxHashFileSize pol
       ∧ ∃ b, disk !! filepath.Clean (fileInfo.path fi) = Some b
           ∧ File.Fingerprint f = [fingerprint Sum256 b]).
Proof.
  intros Hinfo f errs. unfold_convert. rewrite Hinfo.
  destruct (isExcluded _ _) as [excluded|] eqn:Hex; [|done]. simpl.
  destruct (negb excluded && fs.IsRegular (fs.Mode info)
            && (uint64 (fs.Size info) <=? Policy.MaxHashFileSize pol))
    eqn:Hhash.
  - apply andb_true_iff in Hhash as [[Hn Hreg]%andb_true_iff Hsize%Z.leb_le].
    destruct excluded; [done|]. unfold sha256sum.
    destruct (disk !! filepath.Clean (fileInfo.path fi)) as [b|] eqn:Hb;
      destruct (ToStat info); intros [= <- <-]; simpl;
      repeat (split; [done|]); [right|right|by left|by left];
      repeat (split; [done|]); by exists b.
  - destruct (ToStat info); intros [= <- <-]; simpl;
      repeat (split; [done|]); by left.
Qed.

(** X21: [convert] returns whenever no prefix of the list excluded from
    hashing is empty.  The file it returns for a path with file
    information has the version [fileVersion], and [Compare] indexes it
    by the normalized path of the walked path: by the walked path itself
    when that is a normalized path already, as those of the walker are. *)
Theorem convert_normalizedPath (pol : Policy.t) (fi : fileInfo.t)
    (info : fs.FileInfo) :
  fileInfo.info fi = Some info →
  (Forall nonEmpty (Policy.ExcludeHashing pol) →
     ∃ f errs, convert pol fi = Ret (f, errs))
  ∧ ∀ f errs, convert pol fi = Ret (f, errs) →
      File.Version f = fileVersion
      ∧ normalizedPath f = NormalizePath (fileInfo.path fi) (fs.IsDir info)
      ∧ ∀ q, NormalizePath q (fs.IsDir info) = Ret (fileInfo.path fi) →
          normalizedPath f = Ret (fileInfo.path fi).
Proof.
  intros Hinfo. split.
  - intros Hne. unfold_convert. rewrite Hinfo.
    destruct (isExcluded_returns (fileInfo.path fi) _ Hne) as [b ->]. simpl.
    destruct (_ && _); [destruct (sha256sum _ _ _) as [? [?|]]|];
      destruct (ToStat info); eauto.
  - intros f errs Hf.
    destruct (convert_Ret pol fi info Hinfo f errs Hf) as (Hv & Hp & Hi & _).
    split; [done|].
    assert (normalizedPath f
            = NormalizePath (fileInfo.path fi) (fs.IsDir info)) as Hn.
    { unfold normalizedPath. rewrite Hi, Hp. simpl. apply NormalizePath_Clean. }
    split; [done|]. intros q Hq. rewrite Hn. by eapply NormalizePath_again.
Qed.

(** X22: the modification time [convert] stores reads back, with
    [AsTime], as the modification time of the file, for a time with its
    nanoseconds within the second and its seconds within [int64] after
    the shift to the Unix epoch. *)
Theorem convert_mtime (pol : Policy.t) (fi : fileInfo.t) (info : fs.FileInfo)
    (f : File.t) (errs : list workerErr.t) :
  fileInfo.info fi = Some info →
  convert pol fi = Ret (f, errs) →
  0 ≤ time.nsec (fs.ModTime info) < 1000000000 →
  -2 ^ 63 + time.unixToInternal ≤ time.sec (fs.ModTime info) < 2 ^ 63 →
  ∃ finfo, File.Info f = Some finfo
    ∧ AsTime (FileInfo.Modified finfo) = fs.ModTime info.
Proof.
  intros Hinfo Hf Hn Hs.
  destruct (convert_Ret pol fi info Hinfo f errs Hf) as (_ & _ & Hi & _).
  eexists. split; [exact Hi|]. simpl.
  destruct (fs.ModTime info) as [s n]. simpl in *.
  unfold AsTime, tspb_New, time.Unix, time.unixToInternal in *. simpl.
  destruct (Z.ltb_spec n 0); [lia|].
  destruct (Z.leb_spec 1000000000 n); [lia|]. simpl.
  rewrite (wrap64_small (s - _)) by lia. f_equal.
  rewrite wrap64_small by lia. lia.
Qed.


End WalkerFacts.

(** [/etc/hosts], walked as a file: it is indexed by that path. *)
Lemma convert_normalizedPath_witness :
  ∃ f errs,
    convert exampleDigest exampleHostDisk (λ _, None) examplePolicy exampleHosts
    = Ret (f, errs)
    ∧ normalizedPath f = Ret "/etc/hosts".
Proof.
  destruct (convert_normalizedPath exampleDigest exampleHostDisk (λ _, None)
              examplePolicy exampleHosts exampleHostsInfo eq_refl)
    as [Hret Hpath].
  destruct Hret as (f & errs & Hf).
  { repeat constructor. discriminate. }
  exists f, errs. split; [exact Hf|].
  destruct (Hpath f errs Hf) as (_ & _ & H).
  apply (H "/etc//hosts"). vm_compute. reflexivity.
Defined.

Lemma convert_Ret_example :
  convert exampleDigest exampleHostDisk (λ _, None) examplePolicy exampleHosts
  = Ret (exampleHostsFile, [workerErr.mk "/etc/hosts" ErrToStat]).
Proof. vm_compute. reflexivity. Qed.

(** Its modification time, stored and read back. *)
Lemma convert_mtime_witness :
  ∃ finfo,
    File.Info exampleHostsFile = Some finfo
    ∧ AsTime (FileInfo.Modified finfo) = fs.ModTime exampleHostsInfo.
Proof.
  apply (convert_mtime exampleDigest exampleHostDisk (λ _, None) examplePolicy
           exampleHosts exampleHostsInfo _ _ eq_refl convert_Ret_example);
    vm_compute; split; (discriminate || reflexivity).
Defined.


(** * Exclusion below a directory *)

Section Subtree.
Import filepath.
Local Open Scope nat_scope.

Lemma hasPrefixBytes_app s t p :
  hasPrefixBytes s p = true → hasPrefixBytes (s ++ t) p = true.
Proof.
  revert s. induction p as [|c p IH]; intros [|d s]; simpl; try done.
  intros [Hc Hp]%andb_true_iff. rewrite Hc. simpl. by apply IH.
Qed.

Lemma existsb_sepFree c : sepFree c → existsb IsPathSeparator c = false.
Proof.
  induction 1 as [|x c Hx _ IH]; [done|]. simpl.
  apply IsPathSeparator_false in Hx. by rewrite Hx, IH.
Qed.

Lemma dirPrefix_sepFree c : sepFree c → dirPrefix c = [].
Proof.
  intros Hc. destruct c as [|x c]; [done|].
  unfold dirPrefix. by rewrite (existsb_sepFree _ Hc).
Qed.

(** The last element of a path is cut off up to the separator before
    it. *)
Lemma dirPrefix_app_sepFree X c :
  sepFree c → X = [] ∨ last X = Some Separator → dirPrefix (X ++ c) = X.
Proof.
  intros Hc [->|HX]; [by apply dirPrefix_sepFree|].
  revert HX. induction X as [|x X IH]; intros HX; [done|].
  change ((x :: X) ++ c) with (x :: (X ++ c)).
  unfold dirPrefix; fold dirPrefix.
  replace (existsb IsPathSeparator (x :: X ++ c)) with true.
  - f_equal. destruct X as [|y X]; [by apply dirPrefix_sepFree|].
    apply IH. by rewrite last_cons_cons in HX.
  - symmetry. apply existsb_exists. exists Separator. split; [|done].
    apply list_elem_of_In. apply last_Some_elem_of in HX.
    change (x :: X ++ c) with ((x :: X) ++ c). apply elem_of_app. by left.
Qed.

(** The directory of a cleaned path that ends in a real name is the
    cleaned path without that name. *)
Lemma Dir_child rooted k names c :
  valid rooted k names → realName c → render rooted k names ≠ [] →
  cleanBytes (dirPrefix (render rooted k (names ++ [c])))
  = render rooted k names.
Proof.
  intros Hv (Hne & Hfree & _) HY. rewrite (render_snoc _ _ _ _ Hv).
  assert (canon (render rooted k names) = render rooted k names) as Hcanon.
  { unfold canon. case_bool_decide as Hlen; [|done].
    by apply nil_length_inv in Hlen. }
  unfold addSlash.
  destruct ((rooted && negb (bool_decide (length (render rooted k names) = 1)))
            || (negb rooted && negb (bool_decide (length (render rooted k names) = 0))))
    eqn:Hslash.
  - rewrite dirPrefix_app_sepFree; [|done|right; by rewrite last_snoc].
    rewrite <-Hcanon at 1. rewrite cleanBytes_render; auto.
  - destruct rooted.
    + rewrite andb_true_l, orb_false_r in Hslash.
      apply negb_false_iff, bool_decide_eq_true in Hslash.
      destruct Hv as [Hk _]. rewrite Hk in * by done.
      unfold render in *. simpl in *.
      destruct (joinPath names); [|done].
      by rewrite dirPrefix_app_sepFree by auto.
    + rewrite andb_false_l, andb_true_l, orb_false_l in Hslash.
      apply negb_false_iff, bool_decide_eq_true, nil_length_inv in Hslash.
      done.
Qed.

Lemma render_app rooted k names more :
  dotdots k ++ names ≠ [] → more ≠ [] →
  render rooted k (names ++ more)
  = render rooted k names ++ Separator :: joinPath more.
Proof.
  intros Hne Hmore. unfold render.
  rewrite (assoc_L (++) (dotdots k)), joinPath_app.
  destruct (dotdots k ++ names); [done|]. destruct more; [done|].
  by rewrite <-app_assoc.
Qed.

(** What the exclusion of the elements below a directory rests on: the
    bytes [D] of the normalized directory path, the clean form of the
    paths below it, and [D] at the head of each of their directories. *)
Lemma below_shape (d : string) :
  Clean d ≠ "." →
  ∃ D rooted k names,
    NormalizePath d true = Ret (str D)
    ∧ valid rooted k names
    ∧ (∀ more, more ≠ [] →
         D ++ joinPath more = render rooted k (names ++ more))
    ∧ (∀ more, ∃ t, render rooted k (names ++ more) ++ [Separator] = D ++ t)
    ∧ (∀ more, render rooted k (names ++ more) ≠ []).
Proof.
  intros Hdot. rewrite NormalizePath_dir. unfold Clean in *.
  destruct (cleanBytes_shape (bytes d)) as (rooted & k & names & Hv & E).
  assert (render rooted k names ≠ []) as Hne.
  { intros Hnil. apply Hdot. rewrite E, Hnil. done. }
  assert (cleanBytes (bytes d) = render rooted k names) as E'.
  { rewrite E. unfold canon. case_bool_decide as Hlen; [|done].
    by apply nil_length_inv in Hlen. }
  clear E. rewrite E'.
  destruct (decide (str (render rooted k names) = "/")) as [Hroot|Hroot].
  - exists [Separator], true, 0, []. split; [done|].
    split; [split; [done|constructor]|]. split.
    + intros more _. done.
    + split; [intros more; unfold render; simpl; eauto|].
      intros more. done.
  - exists (render rooted k names ++ [Separator]), rooted, k, names.
    split.
    { f_equal. rewrite <-(str_bytes (_ +:+ _)). by rewrite bytes_app, bytes_str. }
    split; [done|].
    assert (dotdots k ++ names ≠ []) as Hl.
    { intros Hl. unfold render in Hne, Hroot. rewrite Hl in Hne, Hroot.
      destruct rooted; [by apply Hroot|by apply Hne]. }
    split.
    + intros more Hmore. rewrite render_app by done.
      by rewrite <-app_assoc.
    + split.
      * intros [|m more].
        -- rewrite app_nil_r. exists []. by rewrite app_nil_r.
        -- rewrite render_app by done.
           exists (joinPath (m :: more) ++ [Separator]).
           by rewrite <-!app_assoc.
      * intros [|m more]; [by rewrite app_nil_r|].
        rewrite render_app by done. by intros [_ ?]%app_eq_nil.
Qed.

Lemma canon_nonempty out : out ≠ [] → canon out = out.
Proof.
  intros Hout. unfold canon. case_bool_decide as Hlen; [|done].
  by apply nil_length_inv in Hlen.
Qed.

Lemma isExcluded_prefix path e :
  endsInSeparator e → HasPrefix (Dir path +:+ "/") e = true →
  isExcluded path [e] = Ret true.
Proof.
  intros Hsep Hpre. cbn [isExcluded]. case_bool_decide; [done|].
  assert (lastByte e = Ret Separator) as -> by by apply lastByte_Ret.
  unfold mbind, exec_bind. rewrite bool_decide_eq_true_2 by done.
  change (str [Separator]) with "/". by rewrite Hpre.
Qed.

(** X24: an exclude prefix that ends in a separator and is a prefix of
    the normalized path of a directory excludes everything below that
    directory, at any depth: the files (paths without a final separator)
    and the directories (paths with one). *)
Theorem isExcluded_below (d e D : string) (names : list (list ascii)) :
  NormalizePath d true = Ret D → Clean d ≠ "." →
  endsInSeparator e → HasPrefix D e = true →
  names ≠ [] → Forall realName names →
  isExcluded (D +:+ str (joinPath names)) [e] = Ret true
  ∧ isExcluded (D +:+ str (joinPath names) +:+ "/") [e] = Ret true.
Proof.
  intros HN Hdot Hsep Hpre Hnames Hreal.
  destruct (below_shape d Hdot) as (Db & r & k & N0 & HD & Hv & Hjoin & Hhead & Hne).
  rewrite HD in HN. injection HN as <-.
  unfold HasPrefix in Hpre. rewrite bytes_str in Hpre.
  assert (bytes (str Db +:+ str (joinPath names)) = render r k (N0 ++ names))
    as Hbytes.
  { rewrite bytes_app, !bytes_str. by apply Hjoin. }
  split; apply isExcluded_prefix; try done; unfold HasPrefix, Dir.
  - rewrite bytes_app, bytes_str, Hbytes.
    change (bytes "/") with [Separator].
    destruct names as [|c init _] using rev_ind; [done|].
    apply Forall_app in Hreal as [Hinit Hc].
    apply Forall_cons_1 in Hc as [Hc _].
    rewrite (assoc_L (++)), Dir_child; [|..|done|apply Hne].
    2:{ destruct Hv as [Hk HN0]. split; [done|]. by apply Forall_app. }
    destruct (Hhead init) as [t ->]. by apply hasPrefixBytes_app.
  - rewrite !bytes_app, !bytes_str. change (bytes "/") with [Separator].
    rewrite (assoc_L (++) Db), (Hjoin names Hnames), dirPrefix_snoc_sep.
    assert (valid r k (N0 ++ names)) as Hv'.
    { destruct Hv as [Hk HN0]. split; [done|]. by apply Forall_app. }
    rewrite <-(canon_nonempty (render r k (N0 ++ names))) by apply Hne.
    rewrite cleanBytes_render by auto.
    rewrite canon_nonempty by apply Hne.
    destruct (Hhead names) as [t ->]. by apply hasPrefixBytes_app.
Qed.

(** Below [/var/log/], excluded by the prefix [/var/]: the file
    [/var/log/apt/history.log] and the directory [/var/log/apt/]. *)
Lemma isExcluded_below_witness :
  isExcluded ("/var/log/" +:+ str (joinPath [bytes "apt"; bytes "history.log"]))
    ["/var/"] = Ret true
  ∧ isExcluded ("/var/log/" +:+ str (joinPath [bytes "apt"; bytes "history.log"])
                +:+ "/") ["/var/"] = Ret true.
Proof.
  apply (isExcluded_below "/var//log"); try by vm_compute.
  repeat constructor; try discriminate; by (intros [=]).
Defined.

End Subtree.

(** * When [Compare] fails *)

Section CompareFails.
Variable Quote : string → string.
Variable Format : time.Time → string.
Variable rangeMap : gmap string File.t → list (string * File.t).

Local Abbreviation Compare := (Compare Quote Format rangeMap).

(** C4: for a stop time of "before" and a start time of "after" in the
    range protocol buffers allow, a missing one counting as the epoch,
    [Compare] returns an error and no report exactly when "after" is
    absent, or "before" is present and has the same identifier, another
    format version, another hostname, or a stop time later than the
    start time of "after".  Whatever the times, an error comes with no
    report and a result without an error holds a report, and comparing
    an inventory with itself fails with the same-identifier error. *)
Theorem Compare_fails_iff (r : Reporter.t) (before after : option Walk.t) :
  ((∀ b a, before = Some b → after = Some a →
      inTimeRange (Walk.StopWalk b) ∧ inTimeRange (Walk.StartWalk a)) →
   ((∃ err, Compare r before after = Ret (None, Some err))
    ↔ after = None
      ∨ ∃ b a, before = Some b ∧ after = Some a
          ∧ (Walk.Id b = Walk.Id a
             ∨ Walk.Version b ≠ Walk.Version a
             ∨ Walk.Hostname b ≠ Walk.Hostname a
             ∨ totalNanos (Walk.StartWalk a) < totalNanos (Walk.StopWalk b))))
  ∧ (∀ rep err, Compare r before after = Ret (rep, Some err) → rep = None)
  ∧ (∀ rep, Compare r before after = Ret (rep, None) → is_Some rep)
  ∧ (∀ w, Compare r (Some w) (Some w)
          = Ret (None, Some (ErrSameWalkID (Walk.Id w)))).
Proof.
  split; [|split; [|split]].
  - intros Hrange.
    assert ((∃ err, Compare r before after = Ret (None, Some err))
            ↔ is_Some (sanityCheck before after)) as ->.
    { split.
      - intros [err [_ Herr]%Compare_error]. eauto.
      - intros [err Herr]. exists err. by apply Compare_error. }
    rewrite sanityCheck_Some. split.
    + intros [?|(b & a & Hb & Ha & Hc)]; [by left|]. right.
      exists b, a. split; [done|]. split; [done|].
      destruct (Hrange b a Hb Ha) as [Hsb Hsa].
      destruct Hc as [?|[?|[?|Hafter]]]; auto.
      right. right. right. by apply (After_total _ _ Hsb Hsa).
    + intros [?|(b & a & Hb & Ha & Hc)]; [by left|]. right.
      exists b, a. split; [done|]. split; [done|].
      destruct (Hrange b a Hb Ha) as [Hsb Hsa].
      destruct Hc as [?|[?|[?|Hlater]]]; auto.
      right. right. right. by apply (After_total _ _ Hsb Hsa).
  - by intros rep err [-> _]%Compare_error.
  - by intros rep [? _]%Compare_no_error.
  - intros w. apply Compare_error. split; [done|]. simpl.
    by rewrite bool_decide_eq_true_2.
Qed.

End CompareFails.

(** The inventory B stops after the inventory A starts: comparing B as
    "before" with A as "after" fails; and so does comparing A with
    itself. *)
Lemma Compare_fails_iff_witness :
  (∃ err, Compare plainQuote secondsFormat map_to_list exampleReporter
            (Some exampleWalkB) (Some exampleWalkA) = Ret (None, Some err))
  ∧ Compare plainQuote secondsFormat map_to_list exampleReporter
      (Some exampleWalkA) (Some exampleWalkA)
    = Ret (None, Some (ErrSameWalkID "walk-A")).
Proof.
  split.
  - apply (proj1 (Compare_fails_iff plainQuote secondsFormat map_to_list
                    exampleReporter (Some exampleWalkB) (Some exampleWalkA))).
    + intros b a [= <-] [= <-]. by vm_compute.
    + right. exists exampleWalkB, exampleWalkA.
      split; [done|]. split; [done|]. right. right. right. by vm_compute.
  - exact (proj2 (proj2 (proj2
      (Compare_fails_iff plainQuote secondsFormat map_to_list exampleReporter
         (Some exampleWalkA) (Some exampleWalkA)))) exampleWalkA).
Defined.

(** C4, as stated, fails: "before" stops later than "after" starts, at
    the last second an [int64] holds; the shift to the internal epoch
    wraps around, the sanity check accepts the two inventories and
    [Compare] returns a report and no error. *)
Lemma Compare_late_stop_accepted :
  (Walk.Id exampleWalkLate ≠ Walk.Id exampleWalkEpoch
   ∧ Walk.Version exampleWalkLate = Walk.Version exampleWalkEpoch
   ∧ Walk.Hostname exampleWalkLate = Walk.Hostname exampleWalkEpoch
   ∧ totalNanos (Walk.StartWalk exampleWalkEpoch)
     < totalNanos (Walk.StopWalk exampleWalkLate))
  ∧ sanityCheck (Some exampleWalkLate) (Some exampleWalkEpoch) = None
  ∧ (∃ rep, Compare plainQuote secondsFormat map_to_list exampleReporter
              (Some exampleWalkLate) (Some exampleWalkEpoch)
            = Ret (Some rep, None))
  ∧ ¬ (∃ err, Compare plainQuote secondsFormat map_to_list exampleReporter
                (Some exampleWalkLate) (Some exampleWalkEpoch)
              = Ret (None, Some err)).
Proof.
  assert (sanityCheck (Some exampleWalkLate) (Some exampleWalkEpoch) = None)
    as Hsane by (vm_compute; reflexivity).
  split; [|split; [done|split]].
  - split; [by vm_compute|]. split; [done|]. split; [done|]. by vm_compute.
  - eexists. vm_compute. reflexivity.
  - intros [err Herr]. apply Compare_error in Herr as [_ Herr].
    by rewrite Hsane in Herr.
Qed.
